(** * daisyschain: a shallow embedding of the firmware core

    The firmware is MicroPython.  This development embeds, function by
    function, the parts of it that the specification talks about:

    - [lib/misc/thistothat.py]: the XOR framing codec;
    - [lib/tracking.py]: the tracked-rover store;
    - [lib/event.py]: the event bus;
    - [lib/lora.py]: the rate-limited, locked send path;
    - [lib/device.py]: the button classifier;

    and, around these, the base's handlers ([lib/base_device.py]), the
    stored preferences ([lib/config_manager.py]), the rover's fix
    ([lib/gps.py]), the heartbeat of the display ([lib/display.py])
    and the link to the phone ([lib/ble.py]).

    Python exceptions are values of [exn] carried by [result]; mutable
    objects become explicit state; hardware and library calls whose
    outcome the firmware cannot control are inputs of the model. *)

From Stdlib Require Import ZArith QArith Qcanon Lia.
From stdpp Require Import gmap strings list fin_maps.

(** ** Python values that cross function boundaries *)

Module Py.

(** The exception classes the firmware can meet.  The last three derive
    from [BaseException] only, so [except Exception] lets them through
    (MicroPython's [uasyncio.CancelledError] is one of them). *)
Inductive exn : Type :=
  | ZeroDivisionError
  | UnicodeError
  | NameError
  | OSError
  | ValueError
  | TypeError
  | KeyError
  | AttributeError
  | RuntimeError
  | KeyboardInterrupt
  | SystemExit
  | CancelledError.

(** [isinstance(e, Exception)] *)
Definition is_Exception (e : exn) : bool :=
  match e with
  | KeyboardInterrupt | SystemExit | CancelledError => false
  | _ => true
  end.

(** Outcome of evaluating a call: a value, or an exception in flight. *)
Inductive result (A : Type) : Type :=
  | Ok (a : A)
  | Raise (e : exn).
Arguments Ok {A} a.
Arguments Raise {A} e.

#[global] Instance result_ret : MRet result := fun A a => Ok a.
#[global] Instance result_bind : MBind result := fun A B f r =>
  match r with
  | Ok a => f a
  | Raise e => Raise e
  end.

(** [try: body / except Exception as e: handler(e)] *)
Definition try_except {A} (body : result A) (handler : exn → result A) : result A :=
  match body with
  | Ok a => Ok a
  | Raise e => if is_Exception e then handler e else Raise e
  end.

(** [a % b] on non-negative machine integers. *)
Definition mod_ (a b : nat) : result nat :=
  match b with
  | O => Raise ZeroDivisionError
  | S _ => Ok (a mod b)
  end.

End Py.
Import Py.

(** ** [lib/misc/thistothat.py]: the framing codec *)

Module thistothat.

Local Open Scope Z_scope.

(** A MicroPython [str] is held as its UTF-8 bytes, and [bytes] /
    [bytearray] are byte sequences too: both are lists of integers in
    [0, 256).  [str.encode('utf-8')] therefore hands the bytes over as
    they are, and [bytes.decode('utf-8')] hands them back after the
    interpreter has checked that they are well-formed UTF-8. *)
Definition is_byte (b : Z) : Prop := 0 ≤ b < 256.
Definition is_ascii (b : Z) : Prop := 0 ≤ b < 128.

Definition encode_utf8 (s : list Z) : list Z := s.

(** The interpreter's well-formedness check behind [decode]: [need]
    counts the continuation bytes still owed by the last lead byte. *)
Fixpoint utf8_check (need : nat) (p : list Z) : bool :=
  match p with
  | [] => Nat.eqb need 0
  | c :: p' =>
      match need with
      | S n => if Z.land c 0xC0 =? 0x80 then utf8_check n p' else false
      | O =>
          if 0xC0 <=? c then
            if 0xF8 <=? c then false
            else utf8_check
                   (Z.to_nat (Z.land (Z.shiftr 0xE5 (Z.land (Z.shiftr c 3) 6)) 3)) p'
          else if 0x80 <=? c then false
          else utf8_check 0 p'
      end
  end.

Definition decode_utf8 (b : list Z) : result (list Z) :=
  if utf8_check 0 b then Ok b else Raise UnicodeError.

(** [string.replace(' ', '')] *)
Definition replace_space (s : list Z) : list Z :=
  filter (λ c, c ≠ 32) s.

(** The [for i in range(len(string_bytes))] loop of
    [xor_encrypt_decrypt]: [rest] is [string_bytes[i:]], and
    [result_bytes] the bytearray built so far. *)
Fixpoint xor_loop (key_bytes : list Z) (i : nat) (rest result_bytes : list Z)
  : result (list Z) :=
  match rest with
  | [] => Ok result_bytes
  | string_byte :: rest' =>
      j ← mod_ i (length key_bytes);
      match key_bytes !! j with
      | Some key_byte =>
          let xor_result := Z.lxor string_byte key_byte in
          xor_loop key_bytes (S i) rest' (result_bytes ++ [xor_result])
      | None => Raise RuntimeError
      end
  end.

Definition xor_encrypt_decrypt (string key : list Z) : result (list Z) :=
  let string_bytes := encode_utf8 string in
  let key_bytes := encode_utf8 key in
  xor_loop key_bytes 0 string_bytes [].

Definition message_pack (string secret : list Z) : result (list Z) :=
  xor_encrypt_decrypt (replace_space string) secret.

(** [message_unpack] returns the bytearray, or falls off the end of
    its [except] clause and so returns [None]. *)
Definition message_unpack (string secret : list Z) : result (option (list Z)) :=
  try_except
    (s ← decode_utf8 string;
     unpacked_string ← xor_encrypt_decrypt s secret;
     Ok (Some unpacked_string))
    (λ _, Ok None).

(** The loop in closed form: byte [i] of the input against byte
    [i mod len(key)] of the key. *)
Fixpoint xor_with (key : list Z) (i : nat) (rest : list Z) : list Z :=
  match rest with
  | [] => []
  | b :: rest' =>
      Z.lxor b (nth (i mod length key) key 0) :: xor_with key (S i) rest'
  end.

(** What a receiver gets back from a frame packed under the same secret. *)
Definition roundtrip (m k : list Z) : result (option (list Z)) :=
  frame ← message_pack m k;
  message_unpack frame k.

(** [is_json]: [test_data] is what [message_unpack] returned, [None]
    or a bytearray; [loads] is [ujson.loads].  The pair returned holds
    the decoded value or the exception that the message names. *)
Definition is_json {A} (loads : list Z → result A) (test_data : option (list Z))
  : result (option A * option exn) :=
  try_except
    (match test_data with
     | None => Raise AttributeError
     | Some bytes =>
         text ← decode_utf8 bytes;
         test_json ← loads text;
         Ok (Some test_json, None)
     end)
    (λ e, Ok (None, Some e)).

(** [class TimeConverter], over integer epochs. *)
Definition UNIX_OFFSET_SECONDS : Z := 946684800.

Record TimeConverter : Type := mkTimeConverter {
  _micropython_epoch : Z
}.

(** [TimeConverter.__init__]; [mktime] is [utime.mktime] and [time]
    the reading of [utime.time()].  An empty tuple counts as no tuple. *)
Definition __init__ (mktime : list Z → result Z) (time : Z)
    (time_tuple : option (list Z)) (unix_epoch micropython_epoch : option Z)
  : result TimeConverter :=
  match time_tuple with
  | Some (field :: fields) =>
      epoch ← mktime (field :: fields);
      Ok {| _micropython_epoch := epoch |}
  | _ =>
      match unix_epoch with
      | Some unix_epoch =>
          Ok {| _micropython_epoch := unix_epoch - UNIX_OFFSET_SECONDS |}
      | None =>
          match micropython_epoch with
          | Some micropython_epoch =>
              Ok {| _micropython_epoch := micropython_epoch |}
          | None => Ok {| _micropython_epoch := time |}
          end
      end
  end.

(** The properties [micropython_epoch] and [unix_epoch]. *)
Definition micropython_epoch (self : TimeConverter) : Z :=
  _micropython_epoch self.

Definition unix_epoch (self : TimeConverter) : Z :=
  _micropython_epoch self + UNIX_OFFSET_SECONDS.

(** [TimeConverter.from_unix_epoch] and [from_micropython_epoch] *)
Definition from_unix_epoch (mktime : list Z → result Z) (time : Z)
    (unix_epoch_seconds : Z) : result TimeConverter :=
  __init__ mktime time None (Some unix_epoch_seconds) None.

Definition from_micropython_epoch (mktime : list Z → result Z) (time : Z)
    (micropython_epoch_seconds : Z) : result TimeConverter :=
  __init__ mktime time None None (Some micropython_epoch_seconds).

End thistothat.

(** ** [lib/tracking.py]: the tracked-rover store *)

Module tracking.

#[local] Set Warnings "-register-all".

(** A value produced by [ujson]: what arrives in a decoded radio
    message or in the persisted rovers file.  Numbers are kept by
    their value; no arithmetic is done on them here. *)
Inductive pyval : Type :=
  | PNone
  | PBool (b : bool)
  | PNum (q : Qc)
  | PStr (s : string)
  | PList (l : list pyval)
  | PDict (d : gmap string pyval).

(** Dictionary keys: the hashable values above, up to Python's [==]
    ([True == 1], [1 == 1.0]). *)
Inductive pykey : Type :=
  | KNone
  | KNum (q : Qc)
  | KStr (s : string).

#[global] Instance pykey_eq_dec : EqDecision pykey.
Proof. solve_decision. Defined.

#[global] Instance pykey_countable : Countable pykey.
Proof.
  refine (inj_countable'
    (λ k, match k with
          | KNone => inl ()
          | KNum q => inr (inl q)
          | KStr s => inr (inr s)
          end)
    (λ x, match x with
          | inl _ => KNone
          | inr (inl q) => KNum q
          | inr (inr s) => KStr s
          end) _).
  by intros [].
Defined.

(** [hash(v)], as needed to use [v] as a key. *)
Definition hash_key (v : pyval) : result pykey :=
  match v with
  | PNone => Ok KNone
  | PBool b => Ok (KNum (if b then 1%Qc else 0%Qc))
  | PNum q => Ok (KNum q)
  | PStr s => Ok (KStr s)
  | PList _ | PDict _ => Raise TypeError
  end.

(** [v[key]] with a [str] key. *)
Definition getitem (v : pyval) (key : string) : result pyval :=
  match v with
  | PDict d =>
      match d !! key with
      | Some x => Ok x
      | None => Raise KeyError
      end
  | _ => Raise TypeError
  end.

(** [for data in v]: the elements the loop visits. *)
Definition iterate (v : pyval) : result (list pyval) :=
  match v with
  | PList l => Ok l
  | PDict d => Ok (PStr <$> (map_to_list d).*1)
  | PStr s => Ok ((λ c, PStr (String c EmptyString)) <$> String.list_ascii_of_string s)
  | _ => Raise TypeError
  end.

(** Instances of [class Rover] ([__slots__]). *)
Record Rover : Type := mkRover {
  id : pyval;
  gps_data : gmap string pyval;
  last_rssi : pyval;
  last_track : Z;
  last_toa : pyval
}.

(** Lines printed on the serial console. *)
Inductive line : Type :=
  | Loaded_rover (rover_id : pyval)
  | No_existing_rovers_file_found_or_invalid_JSON_data
  | Error_loading_rovers (e : exn)
  | Removed_from_tracked_rovers (rover_id : pyval)
  | Failed_to_remove_from_tracked_rovers (rover_id : pyval).

(** The class attribute [Rover._rovers] together with the console. *)
Record world : Type := mkWorld {
  _rovers : gmap pykey Rover;
  console : list line
}.

Definition print (l : line) (w : world) : world :=
  {| _rovers := _rovers w; console := console w ++ [l] |}.

(** [Rover.__init__]: the loop over [tracked_data] fills [self.id] and
    [self.gps_data]; the instance is then filed under its id.
    [ticks_ms] is the clock reading taken by the constructor. *)
Definition init_loop (tracked_data : gmap string pyval)
  : option pyval * gmap string pyval :=
  map_fold
    (λ key value '(self_id, self_gps_data),
       if decide (key = "id") then (Some value, self_gps_data)
       else (self_id, <[key := value]> self_gps_data))
    (None, ∅) tracked_data.

Definition __init__ (tracked_data : gmap string pyval)
    (last_rssi last_toa : pyval) (ticks_ms : Z) (w : world)
  : result Rover * world :=
  let '(self_id, self_gps_data) := init_loop tracked_data in
  match self_id with
  | None => (Raise AttributeError, w)
  | Some i =>
      let self := {| id := i; gps_data := self_gps_data;
                     last_rssi := last_rssi; last_track := ticks_ms;
                     last_toa := last_toa |} in
      match hash_key i with
      | Raise e => (Raise e, w)
      | Ok k => (Ok self, {| _rovers := <[k := self]> (_rovers w);
                             console := console w |})
      end
  end.

(** [Rover.get_rover] *)
Definition get_rover (rover_id : pyval) (w : world) : result (option Rover) :=
  k ← hash_key rover_id;
  Ok (_rovers w !! k).

(** [Rover.untrack_rover]: there is no [return] statement, so the call
    evaluates to [None]. *)
Definition untrack_rover (rover_id : pyval) (w : world) : result pyval * world :=
  match hash_key rover_id with
  | Raise e => (Raise e, w)
  | Ok k =>
      let result := _rovers w !! k in
      let w := {| _rovers := delete k (_rovers w); console := console w |} in
      match result with
      | Some _ => (Ok PNone, print (Removed_from_tracked_rovers rover_id) w)
      | None => (Ok PNone, print (Failed_to_remove_from_tracked_rovers rover_id) w)
      end
  end.

(** [Rover.update] *)
Definition update (self : Rover) (new_rover_data : gmap string pyval)
    (last_rssi last_toa : pyval) (ticks_ms : Z) : Rover :=
  {| id := id self;
     gps_data :=
       map_fold
         (λ key value self_gps_data,
            if decide (key ≠ "id") then <[key := value]> self_gps_data
            else self_gps_data)
         (gps_data self) new_rover_data;
     last_rssi := last_rssi;
     last_track := ticks_ms;
     last_toa := last_toa |}.

(** What [open(rover_file, 'r')] and [ujson.load(f)] can come to. *)
Inductive rovers_json : Type :=
  | Missing
  | Unreadable
  | Malformed
  | Parsed (rovers_data : pyval).

Definition open_and_load (f : rovers_json) : result pyval :=
  match f with
  | Missing => Raise OSError
  | Unreadable => Raise OSError
  | Malformed => Raise ValueError
  | Parsed rovers_data => Ok rovers_data
  end.

(** The arguments of the [Rover(...)] call in [load_rovers]. *)
Definition load_args (data : pyval)
  : result (gmap string pyval * pyval * pyval) :=
  i ← getitem data "id";
  g ← getitem data "gps_data";
  lat ← getitem g "lat";
  g ← getitem data "gps_data";
  lon ← getitem g "lon";
  g ← getitem data "gps_data";
  ut ← getitem g "ut";
  rssi ← getitem data "last_rssi";
  toa ← getitem data "last_toa";
  Ok (<["id" := i]> (<["lat" := lat]> (<["lon" := lon]> (<["ut" := ut]> ∅))),
      rssi, toa).

(** The body of [for data in rovers_data]; [clock n] is the reading of
    [ticks_ms()] in the [n]-th constructor call. *)
Fixpoint load_loop (rovers_data : list pyval) (n : nat) (clock : nat → Z)
    (w : world) : result () * world :=
  match rovers_data with
  | [] => (Ok (), w)
  | data :: rest =>
      match load_args data with
      | Raise e => (Raise e, w)
      | Ok (tracked_data, rssi, toa) =>
          match __init__ tracked_data rssi toa (clock n) w with
          | (Raise e, w) => (Raise e, w)
          | (Ok new_rover, w) =>
              load_loop rest (S n) clock (print (Loaded_rover (id new_rover)) w)
          end
      end
  end.

(** The two [except] clauses of [load_rovers]. *)
Definition load_except (e : exn) (w : world) : result () * world :=
  match e with
  | OSError | ValueError | UnicodeError =>
      (Ok (), print No_existing_rovers_file_found_or_invalid_JSON_data w)
  | _ =>
      if is_Exception e then (Ok (), print (Error_loading_rovers e) w)
      else (Raise e, w)
  end.

Definition load_rovers (f : rovers_json) (clock : nat → Z) (w : world)
  : result () * world :=
  match open_and_load f with
  | Raise e => load_except e w
  | Ok rovers_data =>
      match iterate rovers_data with
      | Raise e => load_except e w
      | Ok datas =>
          match load_loop datas 0 clock w with
          | (Raise e, w) => load_except e w
          | (Ok (), w) => (Ok (), w)
          end
      end
  end.

(** [Rover.to_dict] *)
Definition to_dict (self : Rover) : pyval :=
  PDict (<["id" := id self]>
        (<["gps_data" := PDict (gps_data self)]>
        (<["last_rssi" := last_rssi self]>
        (<["last_track" := PNum (Q2Qc (inject_Z (last_track self)))]>
        {[ "last_toa" := last_toa self ]})))).

(** [Rover.list_rovers]: the keys of [_rovers], in the order in which
    the dictionary is walked.  Python walks a dictionary in the order
    of insertion, the model in the order of the keys; what is proved
    below reads the list by its contents and by positions within it,
    not by which rover comes first. *)
Definition list_rovers (w : world) : list pykey :=
  (map_to_list (_rovers w)).*1.

(** How writing the rovers file goes: [open(rover_file, 'w')] fails,
    or [ujson.dump] fails after the file has been opened (and so
    emptied), or the list is written. *)
Inductive writing : Type :=
  | Written
  | Open_fails (e : exn)
  | Dump_fails (e : exn).

(** What [save_rovers] prints. *)
Inductive saved_line : Type :=
  | Trackers_saved
  | Error_saving_rovers (e : exn).

(** [save_rovers]: the line it prints and what the file then holds.
    [ujson.load] is taken to read back what [ujson.dump] wrote. *)
Definition save_rovers (o : writing) (w : world) (f : rovers_json)
  : result saved_line * rovers_json :=
  let rovers_list := to_dict <$> (map_to_list (_rovers w)).*2 in
  match o with
  | Written => (Ok Trackers_saved, Parsed (PList rovers_list))
  | Open_fails e =>
      (if is_Exception e then Ok (Error_saving_rovers e) else Raise e, f)
  | Dump_fails e =>
      (if is_Exception e then Ok (Error_saving_rovers e) else Raise e, Malformed)
  end.

(** Every rover of the store is filed under the key of its own id. *)
Definition filed_under_own_id (m : gmap pykey Rover) : Prop :=
  ∀ k r, m !! k = Some r → hash_key (id r) = Ok k.

(** What the rovers file keeps of a rover: its id, the three fields
    of [gps_data] that [load_rovers] reads, and the two link figures. *)
Definition on_file (r r' : Rover) : Prop :=
  id r' = id r
  ∧ (∀ key, gps_data r' !! key
            = if decide (key ∈ ["lat"; "lon"; "ut"]) then gps_data r !! key
              else None)
  ∧ last_rssi r' = last_rssi r
  ∧ last_toa r' = last_toa r.

(** The key under which a rover would be filed. *)
Definition hash_key_of (r : Rover) : option pykey :=
  match hash_key (id r) with
  | Ok k => Some k
  | Raise _ => None
  end.

(** A write that fails, if it fails, with an [Exception]. *)
Definition fails_with_Exception (o : writing) : Prop :=
  match o with
  | Written => True
  | Open_fails e | Dump_fails e => is_Exception e = true
  end.

End tracking.

(** ** [lib/base_device.py]: how the base files a decoded message *)

Module base_device.

Import tracking.

(** The tracking part of [BaseDeviceHandler._lora_rx], for a decoded
    [tracked_data] that is a dictionary: nothing without an id, else
    [update] on the rover already filed under that id, or a new
    [Rover].  The boolean tells whether the rover is new. *)
Definition track (tracked_data : gmap string pyval) (rssi toa : pyval)
    (ticks_ms : Z) (w : world) : result (option bool) * world :=
  match tracked_data !! "id" with
  | None | Some PNone => (Ok None, w)
  | Some rover_id =>
      match get_rover rover_id w with
      | Raise e => (Raise e, w)
      | Ok (Some rover) =>
          match hash_key rover_id with
          | Raise e => (Raise e, w)
          | Ok k =>
              (Ok (Some false),
               {| _rovers := <[k := update rover tracked_data rssi toa ticks_ms]>
                               (_rovers w);
                  console := console w |})
          end
      | Ok None =>
          match __init__ tracked_data rssi toa ticks_ms w with
          | (Raise e, w) => (Raise e, w)
          | (Ok _, w) => (Ok (Some true), w)
          end
      end
  end.

(** What the handler has selected for display: [self.tracked_rover]
    (the rover as it stands when it is selected) and the class
    attribute [Rover.current_rover_index].  The display itself is not
    part of the model. *)
Record selection : Type := mkSelection {
  tracked_rover : option Rover;
  current_rover_index : nat
}.

(** [BaseDeviceHandler._track_next] *)
Definition _track_next (w : world) (s : selection) : selection :=
  let rovers := list_rovers w in
  if (0 <? length rovers)%nat then
    let index := ((current_rover_index s + 1) mod length rovers)%nat in
    {| tracked_rover := rovers !! index ≫= λ rover_id, _rovers w !! rover_id;
       current_rover_index := index |}
  else s.

(** [BaseDeviceHandler._button_bump] *)
Definition _button_bump : world → selection → selection := _track_next.


(** The position of [x] in [l], as [list.index] finds it. *)
Fixpoint index_of (x : pykey) (l : list pykey) : option nat :=
  match l with
  | [] => None
  | y :: l' => if decide (x = y) then Some O else S <$> index_of x l'
  end.

(** The part of [_lora_rx] that selects the rover just heard when
    nothing is selected. *)
Definition select_if_none (rover_id : pykey) (w : world) (s : selection)
  : selection :=
  match tracked_rover s with
  | Some _ => s
  | None =>
      {| tracked_rover := _rovers w !! rover_id;
         current_rover_index :=
           match index_of rover_id (list_rovers w) with
           | Some i => i
           | None => current_rover_index s
           end |}
  end.

End base_device.

(** ** [lib/event.py]: the event bus *)

Module event.

Section EventBus.

(** [App] is the state of the components the callbacks belong to,
    [Args] what an event carries, [Coro] the coroutine objects that
    suspending handlers return.

    A handler call works on everything a callback can reach but the
    registry: the application state and, through [self.bus], the
    task set and the console of the bus itself.  So a handler may
    publish further events while one is being delivered, as
    [Device._reset_config] does when it runs [bus.emit('device.reboot')]
    to its end.  The call returns [None] or a coroutine object, or
    raises.  Handlers here do not subscribe or unsubscribe while an
    event is being delivered. *)
Context {App Args Coro : Type}.

Inductive line : Type :=
  | Bus_emit_for_event_received (event_name : string)
  | Error_in_handler_for (event_name : string) (e : exn).

Record world : Type := mkWorld {
  active_tasks : list Coro;                (* self.active_tasks *)
  console : list line;
  app : App
}.

Definition handler : Type := Args → world → result (option Coro) * world.

Record EventBus : Type := mkEventBus {
  debug_v : bool;                          (* self._device.debug_v *)
  subscribers : gmap string (list handler)
}.

(** [EventBus._log] *)
Definition _log (l : line) (self : EventBus) (w : world) : world :=
  if debug_v self then
    {| active_tasks := active_tasks w; console := console w ++ [l];
       app := app w |}
  else w.

(** [EventBus.subscribe] *)
Definition subscribe (event_name : string) (h : handler) (self : EventBus)
  : EventBus :=
  let handlers := default [] (subscribers self !! event_name) in
  {| debug_v := debug_v self;
     subscribers := <[event_name := handlers ++ [h]]> (subscribers self) |}.

(** [asyncio.create_task(result)] followed by [self.active_tasks.add(task)] *)
Definition add_task (task : Coro) (w : world) : world :=
  {| active_tasks := active_tasks w ++ [task]; console := console w;
     app := app w |}.

(** The [for handler in self.subscribers[event_name]] loop of [emit],
    with its [try] / [except Exception]. *)
Fixpoint emit_loop (event_name : string) (handlers : list handler) (args : Args)
    (self : EventBus) (w : world) : result () * world :=
  match handlers with
  | [] => (Ok (), w)
  | h :: rest =>
      match h args w with
      | (Ok None, w) => emit_loop event_name rest args self w
      | (Ok (Some coroutine), w) =>
          emit_loop event_name rest args self (add_task coroutine w)
      | (Raise e, w) =>
          if is_Exception e then
            emit_loop event_name rest args self
              (_log (Error_in_handler_for event_name e) self w)
          else (Raise e, w)
      end
  end.

(** [EventBus.emit]; the closing [await asyncio.sleep(0)] only hands
    control to the scheduler. *)
Definition emit (event_name : string) (args : Args) (self : EventBus) (w : world)
  : result () * world :=
  let w := _log (Bus_emit_for_event_received event_name) self w in
  match subscribers self !! event_name with
  | Some handlers => emit_loop event_name handlers args self w
  | None => (Ok (), w)
  end.

(** Delivery in the specification's words.  A handler is invoked;
    a suspending unit of work that it yields is tracked, and what it
    raises is logged. *)
Definition invoked (event_name : string) (args : Args) (self : EventBus)
    (w : world) (h : handler) : world :=
  match h args w with
  | (Ok None, w) => w
  | (Ok (Some coroutine), w) => add_task coroutine w
  | (Raise e, w) => _log (Error_in_handler_for event_name e) self w
  end.

(** Each handler registered for the name is invoked in turn, whatever
    the others did. *)
Definition delivered_to_all (event_name : string) (handlers : list handler)
    (args : Args) (self : EventBus) (w : world) : world :=
  fold_left (invoked event_name args self) handlers w.

(** A handler that lets nothing but [Exception]s escape. *)
Definition raises_only_Exception (h : handler) : Prop :=
  ∀ args w e, (h args w).1 = Raise e → is_Exception e = true.

(** [list.remove(x)]: the list without its first item equal to [x],
    if there is one; [is_x] tells which items are equal to [x]. *)
Fixpoint remove_first (is_x : handler → bool) (l : list handler)
  : option (list handler) :=
  match l with
  | [] => None
  | h :: l' => if is_x h then Some l' else (h ::.) <$> remove_first is_x l'
  end.

(** What [unsubscribe] passes to the bus logger. *)
Inductive unsubscribe_line : Type :=
  | Unsubscribed_handler_from (event_name : string)
  | Handler_not_found_for_event (event_name : string)
  | Event_not_found (event_name : string).

(** [EventBus.unsubscribe]; [is_handler] tells which registered
    callbacks are equal to the one that is to go.  The call gives
    [True], [False] or, for an event nobody subscribed to, [None]; the
    line it logs is printed by a verbose device. *)
Definition unsubscribe (event_name : string) (is_handler : handler → bool)
    (self : EventBus) : option bool * EventBus * list unsubscribe_line :=
  let printed l := if debug_v self then [l] else [] in
  match subscribers self !! event_name with
  | Some handlers =>
      match remove_first is_handler handlers with
      | Some rest =>
          (Some true,
           {| debug_v := debug_v self;
              subscribers :=
                match rest with
                | [] => delete event_name (subscribers self)
                | _ => <[event_name := rest]> (subscribers self)
                end |},
           printed (Unsubscribed_handler_from event_name))
      | None =>
          (Some false, self, printed (Handler_not_found_for_event event_name))
      end
  | None => (None, self, printed (Event_not_found event_name))
  end.

(** [EventBus.clean_tasks]; [done] is [task.done()]. *)
Definition clean_tasks (done : Coro → bool) (w : world) : world :=
  {| active_tasks := filter (λ task, done task = false) (active_tasks w);
     console := console w; app := app w |}.

(** The coroutine objects the handlers return when delivery reaches
    them. *)
Fixpoint coroutines (event_name : string) (handlers : list handler)
    (args : Args) (self : EventBus) (w : world) : list Coro :=
  match handlers with
  | [] => []
  | h :: rest =>
      match (h args w).1 with
      | Ok (Some coroutine) =>
          coroutine
          :: coroutines event_name rest args self (invoked event_name args self w h)
      | _ => coroutines event_name rest args self (invoked event_name args self w h)
      end
  end.

(** A handler that takes no task out of the set it finds (it may add
    some, by publishing events of its own), and one that leaves the
    set alone. *)
Definition removes_no_task (h : handler) : Prop :=
  ∀ args w task, task ∈ active_tasks w → task ∈ active_tasks (h args w).2.

Definition leaves_tasks_alone (h : handler) : Prop :=
  ∀ args w, active_tasks (h args w).2 = active_tasks w.

(** No event is registered with an empty list of handlers. *)
Definition no_empty_entry (self : EventBus) : Prop :=
  ∀ event_name, subscribers self !! event_name ≠ Some [].

(** A callback that changes the application state only. *)
Definition on_app (r : result (option Coro)) (f : App → App) (w : world)
  : result (option Coro) * world :=
  (r, {| active_tasks := active_tasks w; console := console w;
         app := f (app w) |}).

End EventBus.

Arguments world : clear implicits.
Arguments handler : clear implicits.
Arguments EventBus : clear implicits.

End event.

(** ** [utime]: the millisecond clock *)

Module utime.

Local Open Scope Z_scope.

(** [ticks_ms()] counts modulo [TICKS_PERIOD]; [ticks_diff] is the
    signed distance between two readings, exact while the readings
    are less than half a period apart. *)
Definition TICKS_PERIOD : Z := 2 ^ 30.

Definition ticks_diff (a b : Z) : Z :=
  Z.land (a - b + TICKS_PERIOD / 2) (TICKS_PERIOD - 1) - TICKS_PERIOD / 2.

End utime.

(** ** [lib/lora.py]: the send path *)

Module lora.

Import utime.
Local Open Scope Z_scope.

(** The fields of [LoRaModule] that [send_message] reads or writes.
    [_lora] tells whether the driver object is there ([None] after a
    failed initialisation). *)
Record LoRaModule : Type := mkLoRaModule {
  _lora : bool;
  _last_send : Z;
  _send_lock : bool;
  _rate_limit : Z;
  device_id : tracking.pyval;        (* self._device.id *)
  device_secret : list Z             (* self._device.secret *)
}.

(** The module together with what the rest of the system sees of it:
    the frames handed to the transceiver and the events put on the bus. *)
Record world : Type := mkWorld {
  self : LoRaModule;
  on_air : list (list Z);
  emitted : list string
}.

(** What the calls made by one [send_message] come to: the clock
    readings, and the outcome of each call into a library, the driver
    or the bus. *)
Record outcomes : Type := mkOutcomes {
  ticks_ms_entry : Z;                            (* throttle test *)
  ujson_dumps : tracking.pyval → result (list Z);
  lora_send : list Z → result ();                (* self._lora.send *)
  emit_lora_tx : result ();                      (* handlers of 'lora.tx' *)
  resumed : result ();                           (* how the await ends *)
  ticks_ms_sent : Z;                             (* self._last_send = ... *)
  _get_toa : nat → result Qc
}.

(** [LoRaModule.__init__], as far as the send path is concerned. *)
Definition __init__ (ticks_ms : Z) (driver_started : bool) (rate_limit : Z)
    (id : tracking.pyval) (secret : list Z) : world :=
  {| self := {| _lora := driver_started; _last_send := ticks_ms;
                _send_lock := false; _rate_limit := rate_limit;
                device_id := id; device_secret := secret |};
     on_air := []; emitted := [] |}.

Definition set_send_lock (b : bool) (w : world) : world :=
  {| self := {| _lora := _lora (self w); _last_send := _last_send (self w);
                _send_lock := b; _rate_limit := _rate_limit (self w);
                device_id := device_id (self w);
                device_secret := device_secret (self w) |};
     on_air := on_air w; emitted := emitted w |}.

Definition set_last_send (t : Z) (w : world) : world :=
  {| self := {| _lora := _lora (self w); _last_send := t;
                _send_lock := _send_lock (self w);
                _rate_limit := _rate_limit (self w);
                device_id := device_id (self w);
                device_secret := device_secret (self w) |};
     on_air := on_air w; emitted := emitted w |}.

Definition transmit (frame : list Z) (w : world) : world :=
  {| self := self w; on_air := on_air w ++ [frame]; emitted := emitted w |}.

Definition emit (event_name : string) (w : world) : world :=
  {| self := self w; on_air := on_air w; emitted := emitted w ++ [event_name] |}.

(** [if isinstance(message, dict): message['id'] = self._device.id] *)
Definition stamp (message : tracking.pyval) (id : tracking.pyval)
  : tracking.pyval :=
  match message with
  | tracking.PDict d => tracking.PDict (<["id" := id]> d)
  | _ => message
  end.

(** How a coroutine call stands when it hands control back: it has
    returned (or raised), or it is suspended in an [await]. *)
Inductive stage (A S : Type) : Type :=
  | Returned (r : result A)
  | Awaiting (s : S).
Arguments Returned {A S} r.
Arguments Awaiting {A S} s.

(** The [try] block of [send_message] up to the point where
    [await self._device.bus.emit('lora.tx')] suspends. *)
Definition try_until_await (o : outcomes) (message : tracking.pyval) (w : world)
  : result (list Z) * world :=
  let message := stamp message (device_id (self w)) in
  match ujson_dumps o message with
  | Raise e => (Raise e, w)
  | Ok text =>
      match thistothat.message_pack text (device_secret (self w)) with
      | Raise e => (Raise e, w)
      | Ok lora_message =>
          match lora_send o lora_message with
          | Raise e => (Raise e, w)
          | Ok () =>
              let w := transmit lora_message w in
              (* the LED pulse is only scheduled here, as a task *)
              let w := emit "lora.tx" w in
              match emit_lora_tx o with
              | Raise e => (Raise e, w)
              | Ok () => (Ok lora_message, w)
              end
          end
      end
  end.

(** The rest of the [try] block, from the resumption on. *)
Definition try_after_await (o : outcomes) (lora_message : list Z) (w : world)
  : result Qc * world :=
  match resumed o with
  | Raise e => (Raise e, w)
  | Ok () =>
      let w := set_last_send (ticks_ms_sent o) w in
      (_get_toa o (length lora_message), w)
  end.

(** Leaving the [try] statement: a value is returned from inside it,
    an [Exception] is caught and the function goes on to its final
    [return None], anything else keeps travelling; [finally] runs
    every time. *)
Definition leave_try (r : result Qc) (w : world) : result (option Qc) * world :=
  let released := set_send_lock false w in
  match r with
  | Ok toa => (Ok (Some toa), released)
  | Raise e =>
      if is_Exception e then (Ok None, released) else (Raise e, released)
  end.

(** [send_message] from its first line to its first suspension. *)
Definition send_message_enter (o : outcomes) (message : tracking.pyval)
    (w : world) : stage (option Qc) (list Z) * world :=
  if ticks_diff (ticks_ms_entry o) (_last_send (self w))
       <? _rate_limit (self w) * 1000
  then (Returned (Ok None), w)
  else if _lora (self w) && negb (_send_lock (self w)) then
    let w := set_send_lock true w in
    match try_until_await o message w with
    | (Raise e, w) => let '(r, w) := leave_try (Raise e) w in (Returned r, w)
    | (Ok lora_message, w) => (Awaiting lora_message, w)
    end
  else (Returned (Ok None), w).

(** [send_message] from its resumption to its return. *)
Definition send_message_resume (o : outcomes) (lora_message : list Z) (w : world)
  : result (option Qc) * world :=
  let '(r, w) := try_after_await o lora_message w in
  leave_try r w.

(** Calls of [send_message] made by other tasks while one call is
    suspended; each runs up to its own first suspension. *)
Fixpoint others_enter (calls : list (outcomes * tracking.pyval)) (w : world)
  : list (stage (option Qc) (list Z)) * world :=
  match calls with
  | [] => ([], w)
  | (o, message) :: rest =>
      let '(st, w) := send_message_enter o message w in
      let '(sts, w) := others_enter rest w in
      (st :: sts, w)
  end.

(** One complete call, with the [others] arriving during its suspension. *)
Definition send_message_with (others : list (outcomes * tracking.pyval))
    (o : outcomes) (message : tracking.pyval) (w : world)
  : result (option Qc) * world :=
  match send_message_enter o message w with
  | (Returned r, w) => (r, w)
  | (Awaiting lora_message, w) =>
      send_message_resume o lora_message (others_enter others w).2
  end.

(** One complete call that nothing interleaves with. *)
Definition send_message : outcomes → tracking.pyval → world
                          → result (option Qc) * world :=
  send_message_with [].

End lora.

(** ** [lib/device.py]: the button classifier *)

Module device.

Import utime.
Local Open Scope Z_scope.

Definition _PRESSED : Z := 0.
Definition _RELEASED : Z := 1.

Definition _BUTTON_BUMP : Z := 250.
Definition _BUTTON_SHORT : Z := 1000.
Definition _BUTTON_LONG : Z := 4000.
Definition _BUTTON_SLEEP : Z := 5000.

(** One reading of [self.button.value()], with the reading of
    [utime.ticks_ms()] that follows it: between two samples of the pin
    [check_button] reads the clock at most once. *)
Record sample : Type := mkSample {
  value : Z;
  ticks_ms : Z
}.

(** Where [check_button] is about to sample the pin. *)
Inductive at_line : Type :=
  | outer_if                   (* [if self.button.value() == _PRESSED:] *)
  | debounce_if                (* the same test, 30 ms later *)
  | while_pressed (start : Z). (* [while self.button.value() == _PRESSED:] *)

(** The locals of the coroutine: [elapsed] is unbound until the
    timing loop has assigned it. *)
Record frame : Type := mkFrame {
  at_ : at_line;
  elapsed : option Z
}.

Inductive status : Type :=
  | Running (f : frame)
  | Finished                   (* the coroutine has returned *)
  | Failed (e : exn).          (* the coroutine has died of [e] *)

(** The statements after the timing loop, once the pin reads released;
    [now] is the clock reading of the second [elapsed = ...]. *)
Definition after_while (start : Z) (elapsed : option Z) (now : Z)
  : list string * status :=
  match elapsed with
  | None => ([], Failed NameError)
  | Some e =>
      if _BUTTON_SLEEP <=? e then ([], Finished)
      else
        let elapsed := ticks_diff now start in
        let next := Running {| at_ := outer_if; elapsed := Some elapsed |} in
        if elapsed <? _BUTTON_BUMP then (["button.bump"%string], next)
        else if (_BUTTON_SHORT <? elapsed) && (elapsed <? _BUTTON_LONG)
             then (["button.long"%string], next)
        else ([], next)
  end.

(** From one sample of the pin to the next: the events published on
    the way, and where the coroutine then stands. *)
Definition step (f : frame) (s : sample) : list string * status :=
  match at_ f with
  | outer_if =>
      if value s =? _PRESSED
      then ([], Running {| at_ := debounce_if; elapsed := elapsed f |})
      else ([], Running f)
  | debounce_if =>
      if value s =? _PRESSED
      then ([], Running {| at_ := while_pressed (ticks_ms s);
                           elapsed := elapsed f |})
      else ([], Running {| at_ := outer_if; elapsed := elapsed f |})
  | while_pressed start =>
      if value s =? _PRESSED then
        let elapsed := ticks_diff (ticks_ms s) start in
        if _BUTTON_SLEEP <=? elapsed
        then (["device.sleep"%string], Finished)
        else ([], Running {| at_ := while_pressed start;
                             elapsed := Some elapsed |})
      else after_while start (elapsed f) (ticks_ms s)
  end.

(** [check_button] run from frame [f] over the samples it is given. *)
Fixpoint run (f : frame) (samples : list sample) : list string * status :=
  match samples with
  | [] => ([], Running f)
  | s :: rest =>
      match step f s with
      | (events, Running f') =>
          let '(later, st) := run f' rest in (events ++ later, st)
      | (events, st) => (events, st)
      end
  end.

(** A fresh [check_button] task. *)
Definition check_button : list sample → list string * status :=
  run {| at_ := outer_if; elapsed := None |}.

(** A sample taken in the timing loop while the button is down and
    the sleep threshold is not reached. *)
Definition held (start : Z) (s : sample) : Prop :=
  value s = _PRESSED ∧ ticks_diff (ticks_ms s) start < _BUTTON_SLEEP.

(** The classification of a released press by its measured length. *)
Definition classify (elapsed : Z) : list string :=
  if elapsed <? _BUTTON_BUMP then ["button.bump"%string]
  else if (_BUTTON_SHORT <? elapsed) && (elapsed <? _BUTTON_LONG)
       then ["button.long"%string]
  else [].

(** The local [elapsed] after the timing loop has gone through [holds]. *)
Definition elapsed_after (start : Z) (elapsed : option Z) (holds : list sample)
  : option Z :=
  match last holds with
  | Some s => Some (ticks_diff (ticks_ms s) start)
  | None => elapsed
  end.

(** The samples of a press first seen at clock [t], confirmed 30 ms
    later, found down in [n] rounds of the timing loop, 30 ms apart,
    and then found released. *)
Definition press (t : Z) (n : nat) : list sample :=
  [ {| value := _PRESSED; ticks_ms := t |};
    {| value := _PRESSED; ticks_ms := t + 30 |} ]
  ++ map (λ i, {| value := _PRESSED; ticks_ms := t + 30 + 30 * Z.of_nat i |})
         (seq 1 n)
  ++ [ {| value := _RELEASED; ticks_ms := t + 30 + 30 * Z.of_nat n |} ].

(** The names [check_button] publishes under. *)
Definition button_events : list string :=
  ["button.bump"; "button.long"; "device.sleep"]%string.

(** The fields of [Device] that its logging touches: [debug_v], set
    by [__init__]; [_debug_v], which exists once [set_debug] has been
    called; and the serial console, one printed line per item. *)
Record Device : Type := mkDevice {
  debug_v : bool;
  _debug_v : option bool;
  serial : list (list string)
}.

(** [Device.log] *)
Definition log (args : list string) (self : Device) : Device :=
  {| debug_v := debug_v self; _debug_v := _debug_v self;
     serial := serial self ++ [args] |}.

(** [Device._log] *)
Definition _log (args : list string) (self : Device) : Device :=
  if debug_v self then log ("Device:"%string :: args) self else self.

(** [Device.set_debug] *)
Definition set_debug (debug : bool) (self : Device) : Device :=
  {| debug_v := debug_v self; _debug_v := Some debug; serial := serial self |}.

End device.

(** ** [lib/config_manager.py]: the stored preferences *)

Module config_manager.

Import tracking.

(** The preferences are a dictionary as [ujson] reads it, dictionaries
    inside dictionaries with nothing shared between them; the
    preferences file is described by what reading it comes to
    ([rovers_json]) and writing it by [writing], as for the rovers
    file.  A string is a sequence of characters, as in Python; the
    characters of the model are the code points below 256, so that
    [len] and [value[:20]] count what Python counts.  What these
    functions print is not part of the model. *)

(** [key.split('.')] *)
Fixpoint split (key : string) : list string :=
  match key with
  | EmptyString => [EmptyString]
  | String c key' =>
      if String.eqb (String c EmptyString) "." then EmptyString :: split key'
      else match split key' with
           | first :: rest => String c first :: rest
           | [] => [String c EmptyString]
           end
  end.

(** The loop of [update_preference] over [keys[:-1]] and its final
    assignment to [current_dict[keys[-1]]]. *)
Fixpoint set_along (path : list string) (last : string) (value : pyval)
    (current_dict : gmap string pyval) : gmap string pyval :=
  match path with
  | [] => <[last := value]> current_dict
  | k :: path' =>
      let inner := match current_dict !! k with
                   | Some (PDict d) => d
                   | _ => ∅
                   end in
      <[k := PDict (set_along path' last value inner)]> current_dict
  end.

Definition update_preference (preferences : gmap string pyval) (key : string)
    (value : pyval) : gmap string pyval :=
  let keys := split key in
  set_along (removelast keys) (List.last keys EmptyString) value preferences.

(** Reading a setting the way the modules do,
    [preferences.get(a, {}).get(b, ...)]: the value at the end of the
    path, if the path leads through dictionaries to one. *)
Fixpoint get_along (keys : list string) (d : gmap string pyval) : option pyval :=
  match keys with
  | [] => None
  | [k] => d !! k
  | k :: keys' =>
      match d !! k with
      | Some (PDict d') => get_along keys' d'
      | _ => None
      end
  end.

(** [len(value)] and [value[:20]] *)
Definition len (value : pyval) : result nat :=
  match value with
  | PStr s => Ok (String.length s)
  | PList l => Ok (length l)
  | PDict d => Ok (size d)
  | _ => Raise TypeError
  end.

Definition first_20 (value : pyval) : result pyval :=
  match value with
  | PStr s => Ok (PStr (String.substring 0 20 s))
  | PList l => Ok (PList (take 20 l))
  | _ => Raise TypeError
  end.

(** [save_preferences]: what the file then holds. *)
Definition save_preferences (o : writing) (data : pyval) (f : rovers_json)
  : result () * rovers_json :=
  match o with
  | Written => (Ok (), Parsed data)
  | Open_fails e => (if is_Exception e then Ok () else Raise e, f)
  | Dump_fails e => (if is_Exception e then Ok () else Raise e, Malformed)
  end.

(** The loop of [update_preferences] over the items of
    [new_preferences_dict], in the order in which they are walked. *)
Fixpoint update_loop (items : list (string * pyval))
    (preferences : gmap string pyval) : result () * gmap string pyval :=
  match items with
  | [] => (Ok (), preferences)
  | (key, value) :: rest =>
      let shortened :=
        if decide (key = "id") then
          n ← len value;
          if (20 <? n)%nat then first_20 value else Ok value
        else Ok value in
      match shortened with
      | Raise e => (Raise e, preferences)
      | Ok value => update_loop rest (update_preference preferences key value)
      end
  end.

Definition update_preferences (o : writing) (preferences : gmap string pyval)
    (items : list (string * pyval)) (f : rovers_json)
  : result () * gmap string pyval * rovers_json :=
  match update_loop items preferences with
  | (Raise e, preferences) => (Raise e, preferences, f)
  | (Ok (), preferences) =>
      let '(r, f) := save_preferences o (PDict preferences) f in
      (r, preferences, f)
  end.

(** [load_preferences] *)
Definition load_preferences (o : writing) (board : string) (f : rovers_json)
  : result (gmap string pyval) * rovers_json :=
  let loaded :=
    match open_and_load f with
    | Ok preferences => Ok preferences
    | Raise ValueError | Raise UnicodeError | Raise OSError => Ok (PDict ∅)
    | Raise e => Raise e
    end in
  match loaded with
  | Raise e => (Raise e, f)
  | Ok (PDict preferences) =>
      let preferences := <["board" := PStr board]> preferences in
      match save_preferences o (PDict preferences) f with
      | (Raise e, f) => (Raise e, f)
      | (Ok (), f) => (Ok preferences, f)
      end
  | Ok _ => (Raise TypeError, f)
  end.

(** Two paths that part ways before either of them ends. *)
Definition part_ways (p q : list string) : Prop :=
  ∃ common x p' y q', p = common ++ x :: p' ∧ q = common ++ y :: q' ∧ x ≠ y.

End config_manager.

(** ** [lib/gps.py]: the rover's fix *)

Module gps.

Import tracking.
Local Open Scope Z_scope.

(** Numbers are kept by their value.  The float arithmetic of
    [gps_tuple_to_decimal] and the random offsets of the mock
    coordinates are not part of the model: their results are inputs. *)

Definition _EPOCH_OFFSET : Z := 946684800.

(** [int(x)] *)
Definition int (x : Qc) : Z := Z.quot (Qnum x) (Zpos (Qden x)).

(** An [int] among numbers. *)
Definition of_int (z : Z) : Qc := Q2Qc (inject_Z z).

(** [GPSModule._get_unix_timestamp]; [time] is the decoder's
    [timestamp] (hours, minutes, seconds) and [date] its [date] (day,
    month, year).  A field that is missing is an [IndexError], caught
    like every [Exception]; [mktime] is [utime.mktime], which is handed
    the hours and minutes as they are and the seconds cut to an
    [int]. *)
Definition _get_unix_timestamp (mktime : list Qc → result Z)
    (time : list Qc) (date : list Z) : result Z :=
  match date !! 2%nat, date !! 1%nat, date !! 0%nat,
        time !! 0%nat, time !! 1%nat, time !! 2%nat with
  | Some year, Some month, Some day, Some hours, Some minutes, Some seconds =>
      let td_tuple := [of_int (year + 2000); of_int month; of_int day;
                       hours; minutes; of_int (int seconds);
                       of_int 0; of_int 0] in
      match mktime td_tuple with
      | Ok epoch => Ok (epoch + _EPOCH_OFFSET)
      | Raise e => if is_Exception e then Ok 0 else Raise e
      end
  | _, _, _, _, _, _ => Ok 0
  end.

(** What the sentence decoder holds when [run] looks at it. *)
Record decoder : Type := mkDecoder {
  fix_time : option Qc;
  latitude : Qc;                (* after [gps_tuple_to_decimal] *)
  longitude : Qc;
  satellites_in_view : Z;
  timestamp : list Qc;
  date : list Z;
  altitude : Qc;
  geoid_height : Qc;
  mock_latitude : Qc;           (* what the mock branch would compute *)
  mock_longitude : Qc
}.

Record GPSModule : Type := mkGPSModule {
  mock : bool;
  _decimal_coords : bool;
  _last_lat : Qc;
  _last_lon : Qc;
  _last_ut : Z;
  data : option (gmap string pyval)
}.

Definition number (z : Z) : pyval := PNum (of_int z).

(** [GPSModule._get_coords_dict] *)
Definition _get_coords_dict (mktime : list Qc → result Z) (g : decoder)
    (self : GPSModule) : result GPSModule :=
  if _decimal_coords self then
    ut ← _get_unix_timestamp mktime (timestamp g) (date g);
    let data := <["lat" := PNum (latitude g)]>
               (<["lon" := PNum (longitude g)]>
               (<["sat" := number (satellites_in_view g)]>
               (<["ut" := number ut]>
               (<["alt" := PNum (altitude g)]>
               {[ "gh" := PNum (geoid_height g) ]})))) in
    if decide (latitude g ≠ 0%Qc ∧ longitude g ≠ 0%Qc) then
      Ok {| mock := mock self; _decimal_coords := true;
            _last_lat := latitude g; _last_lon := longitude g; _last_ut := ut;
            data := Some data |}
    else if mock self then
      Ok {| mock := true; _decimal_coords := true;
            _last_lat := _last_lat self; _last_lon := _last_lon self;
            _last_ut := _last_ut self;
            data := Some (<["lon" := PNum (mock_longitude g)]>
                         (<["lat" := PNum (mock_latitude g)]> data)) |}
    else if decide (_last_lat self ≠ 0%Qc ∧ _last_lon self ≠ 0%Qc) then
      Ok {| mock := false; _decimal_coords := true;
            _last_lat := _last_lat self; _last_lon := _last_lon self;
            _last_ut := _last_ut self;
            data := Some (<["ut" := number (_last_ut self)]>
                         (<["lon" := PNum (_last_lon self)]>
                         (<["lat" := PNum (_last_lat self)]> data))) |}
    else
      Ok {| mock := false; _decimal_coords := true;
            _last_lat := _last_lat self; _last_lon := _last_lon self;
            _last_ut := _last_ut self; data := Some data |}
  else Ok self.

(** Truth value of what [data.get(key)] returns. *)
Definition truthy (v : option pyval) : bool :=
  match v with
  | None | Some PNone => false
  | Some (PBool b) => b
  | Some (PNum q) => bool_decide (q ≠ 0%Qc)
  | Some (PStr s) => bool_decide (s ≠ EmptyString)
  | Some (PList l) => bool_decide (length l ≠ O)
  | Some (PDict d) => bool_decide (size d ≠ O)
  end.

(** [v != x] for what [data.get(key)] returned and a number [x]. *)
Definition differs_from (v : option pyval) (x : Qc) : bool :=
  match v with
  | Some (PNum q) => bool_decide (q ≠ x)
  | Some (PBool b) => bool_decide ((if b then 1%Qc else 0%Qc) ≠ x)
  | _ => true
  end.

(** One round of [GPSModule.run], after [_update]: the module as it
    is left, and the argument of the [gps.fix] event if one is
    published. *)
Definition run_round (mktime : list Qc → result Z) (g : decoder)
    (self : GPSModule) : result (GPSModule * option bool) :=
  if mock self
     || (bool_decide (fix_time g ≠ None) && (0 <? satellites_in_view g)) then
    let prev_coords := (_last_lat self, _last_lon self) in
    self ← _get_coords_dict mktime g self;
    match data self with
    | Some d =>
        if bool_decide (size d ≠ O) && truthy (d !! "lat") && truthy (d !! "lon")
        then
          let current_coords := (d !! "lat", d !! "lon") in
          let coords_changed :=
            differs_from current_coords.1 prev_coords.1
            || differs_from current_coords.2 prev_coords.2 in
          Ok (self, Some coords_changed)
        else Ok (self, None)
    | None => Ok (self, None)
    end
  else Ok (self, None).

(** The last fix is a whole fix or none: both coordinates are zero, or
    neither is. *)
Definition last_fix_whole (self : GPSModule) : Prop :=
  (_last_lat self = 0%Qc ∧ _last_lon self = 0%Qc)
  ∨ (_last_lat self ≠ 0%Qc ∧ _last_lon self ≠ 0%Qc).

End gps.

(** ** [lib/display.py]: the heartbeat indicator *)

Module display.

Local Open Scope Z_scope.

(** The part of a [Display] that [heartbeat] reads and writes. *)
Record Display : Type := mkDisplay {
  _heartbeat_i : Z;
  _heartbeat_dir : Z
}.

Definition _heartbeat_ico : list string := ["Oo."; "oOo"; ".oO"]%string.

(** [l[i]] on a Python list: an index below zero counts from the end,
    an index outside the list is an [IndexError] ([None] here). *)
Definition item_at {A} (l : list A) (i : Z) : option A :=
  if 0 <=? i then l !! Z.to_nat i
  else if - Z.of_nat (length l) <=? i then l !! Z.to_nat (Z.of_nat (length l) + i)
  else None.

(** [Display.heartbeat]: the display as it is left and the text handed
    to [oled.text], if the index found one. *)
Definition heartbeat (self : Display) : Display * option string :=
  let dir :=
    if (_heartbeat_i self + _heartbeat_dir self <? 0)
       || (2 <? _heartbeat_i self + _heartbeat_dir self)
    then _heartbeat_dir self * -1
    else _heartbeat_dir self in
  let i := _heartbeat_i self + dir in
  ({| _heartbeat_i := i; _heartbeat_dir := dir |}, item_at _heartbeat_ico i).

(** The display after [n] turns of the device loop. *)
Definition beats (n : nat) (self : Display) : Display :=
  Nat.iter n (λ self, (heartbeat self).1) self.

End display.

(** ** [lib/ble.py]: the link to the phone *)

Module ble.

Import tracking.
Local Open Scope Z_scope.

Definition _IRQ_CENTRAL_CONNECT : Z := 1.
Definition _IRQ_CENTRAL_DISCONNECT : Z := 2.
Definition _IRQ_GATTS_WRITE : Z := 3.
Definition _IRQ_GATTS_READ_REQUEST : Z := 4.
Definition _IRQ_MTU_EXCHANGED : Z := 21.

Definition _BLE_MAX_CONNECT : nat := 1.
Definition _BLE_COMMAND_REBOOT : Z := 0xF0.
Definition _BLE_COMMAND_RECONFIGURE : Z := 0xE0.

(** What [asyncio.create_task] is handed. *)
Inductive task : Type :=
  | Emit_reset_config                       (* bus.emit('device.reset_config') *)
  | Emit_reboot                             (* bus.emit('device.reboot') *)
  | Process_config_data (buffer : list Z).  (* self._process_config_data(buffer) *)

(** What the module asks of the driver and of the scheduler. *)
Inductive call : Type :=
  | Gattc_exchange_mtu (conn_handle : Z)
  | Gap_advertise_stop          (* gap_advertise(None) *)
  | Gap_advertise_start         (* gap_advertise(100_000, adv_data=self._adv_payload) *)
  | Gatts_write_config          (* gatts_write(self._config_tx_handle, config_data) *)
  | Create_task (t : task).

(** The handles that [gatts_register_services] returned. *)
Record handles : Type := mkHandles {
  _gps_tx_handle : Z;
  _config_tx_handle : Z;
  _config_rx_handle : Z;
  _command_rx_handle : Z
}.

(** A [BLEModule] after [__init__]: [_ble] is false when [__init__]
    has set it to [None]; [_handles] is [None] when the four handles
    were never assigned, because registering the services failed;
    [calls] lists the calls that returned, oldest first. *)
Record BLEModule : Type := mkBLEModule {
  _ble : bool;
  _handles : option handles;
  _connections : gset Z;
  calls : list call
}.

(** How the driver answers during one [_irq]. *)
Record outcomes : Type := mkOutcomes {
  has_gattc_exchange_mtu : bool;    (* hasattr(self._ble, 'gattc_exchange_mtu') *)
  gattc_exchange_mtu : result ();
  gap_advertise_stop : result ();
  gap_advertise_start : result ();
  command : result Z;               (* int.from_bytes(gatts_read(_command_rx_handle)) *)
  config : result (list Z);         (* gatts_read(_config_rx_handle) *)
  write_config : result ()          (* ujson.dumps(preferences), then gatts_write *)
}.

Definition record (c : call) (self : BLEModule) : BLEModule :=
  {| _ble := _ble self; _handles := _handles self;
     _connections := _connections self; calls := calls self ++ [c] |}.

Definition set_connections (connections : gset Z) (self : BLEModule)
  : BLEModule :=
  {| _ble := _ble self; _handles := _handles self;
     _connections := connections; calls := calls self |}.

(** [self._ble.method(...)]: an [AttributeError] when [_ble] is
    [None]. *)
Definition driver {A} (self : BLEModule) (r : result A) : result A :=
  if _ble self then r else Raise AttributeError.

(** [try: self._ble.method(...) / except Exception: self._log(...)],
    for a method called for its effect. *)
Definition driver_call (c : call) (r : result ()) (self : BLEModule)
  : result () * BLEModule :=
  match driver self r with
  | Ok () => (Ok (), record c self)
  | Raise e => (if is_Exception e then Ok () else Raise e, self)
  end.

(** [BLEModule._negotiate_mtu] *)
Definition _negotiate_mtu (o : outcomes) (conn_handle : Z) (self : BLEModule)
  : result () * BLEModule :=
  if _ble self && has_gattc_exchange_mtu o then
    driver_call (Gattc_exchange_mtu conn_handle) (gattc_exchange_mtu o) self
  else (Ok (), self).

(** [BLEModule._advertising] *)
Definition _advertising (o : outcomes) (self : BLEModule)
  : result () * BLEModule :=
  match driver self (gap_advertise_stop o) with
  | Ok () =>
      let self := record Gap_advertise_stop self in
      if (size (_connections self) <? _BLE_MAX_CONNECT)%nat then
        driver_call Gap_advertise_start (gap_advertise_start o) self
      else (Ok (), self)
  | Raise e => (if is_Exception e then Ok () else Raise e, self)
  end.

(** [BLEModule._update_config_characteristic] *)
Definition _update_config_characteristic (o : outcomes) (self : BLEModule)
  : result () * BLEModule :=
  if _ble self then driver_call Gatts_write_config (write_config o) self
  else (Ok (), self).

(** [BLEModule._irq]; [data] is the tuple of the event, its entries
    standing as numbers. *)
Definition _irq (o : outcomes) (event : Z) (data : list Z) (self : BLEModule)
  : result () * BLEModule :=
  if event =? _IRQ_CENTRAL_CONNECT then
    let (accepted, self) :=
      match data with
      | [conn_handle; _; _] =>
          match _negotiate_mtu o conn_handle self with
          | (Ok (), self) =>
              (Ok (), set_connections ({[ conn_handle ]} ∪ _connections self) self)
          | (Raise e, self) => (Raise e, self)
          end
      | _ => (Raise ValueError, self)
      end in
    match try_except accepted (λ _, Ok ()) with
    | Ok () => _advertising o self
    | Raise e => (Raise e, self)
    end
  else if event =? _IRQ_CENTRAL_DISCONNECT then
    match data with
    | [conn_handle; _; _] =>
        _advertising o
          (set_connections (_connections self ∖ {[ conn_handle ]}) self)
    | _ => (Raise ValueError, self)
    end
  else if event =? _IRQ_GATTS_WRITE then
    match data with
    | _ :: attr_handle :: _ =>
        match _handles self with
        | None => (Raise AttributeError, self)
        | Some h =>
            if attr_handle =? _command_rx_handle h then
              match driver self (command o) with
              | Ok code =>
                  if code =? _BLE_COMMAND_RECONFIGURE then
                    (Ok (), record (Create_task Emit_reset_config) self)
                  else if code =? _BLE_COMMAND_REBOOT then
                    (Ok (), record (Create_task Emit_reboot) self)
                  else (Ok (), self)
              | Raise e => (if is_Exception e then Ok () else Raise e, self)
              end
            else if attr_handle =? _config_rx_handle h then
              match driver self (config o) with
              | Ok buffer =>
                  (Ok (), record (Create_task (Process_config_data buffer)) self)
              | Raise e => (if is_Exception e then Ok () else Raise e, self)
              end
            else (Ok (), self)
        end
    | _ => (Ok (), self)
    end
  else if event =? _IRQ_GATTS_READ_REQUEST then
    let attr_handle :=
      match data with
      | [_; attr_handle; _; _] | [_; attr_handle] => Some attr_handle
      | _ => None                       (* the name is never bound *)
      end in
    match attr_handle with
    | None => (Raise NameError, self)
    | Some attr_handle =>
        match _handles self with
        | None => (Raise AttributeError, self)
        | Some h =>
            if attr_handle =? _config_tx_handle h
            then _update_config_characteristic o self
            else (Ok (), self)
        end
    end
  else if event =? _IRQ_MTU_EXCHANGED then
    match data with
    | [_; _] => (Ok (), self)
    | _ => (Raise ValueError, self)
    end
  else (Ok (), self).

(** [BLEModule._process_config_data]: the configuration handed to
    [bus.emit('device.configure', ...)], if any; [loads] is
    [ujson.loads]. *)
Definition _process_config_data (loads : list Z → result pyval)
    (buffer : list Z) : result (option pyval) :=
  try_except
    (r ← thistothat.is_json loads (Some buffer);
     if gps.truthy r.1 then Ok r.1 else Ok None)
    (λ _, Ok None).

(** Whether the radio advertises, going by the calls made. *)
Definition advertising (cs : list call) : bool :=
  foldl (λ on c, match c with
                 | Gap_advertise_stop => false
                 | Gap_advertise_start => true
                 | _ => on
                 end) false cs.

(** A driver that fails, if it fails, with an [Exception]. *)
Definition fails_with_Exception {A} (r : result A) : Prop :=
  ∀ e, r = Raise e → is_Exception e = true.

Definition driver_fails_with_Exception (o : outcomes) : Prop :=
  fails_with_Exception (gattc_exchange_mtu o)
  ∧ fails_with_Exception (gap_advertise_stop o)
  ∧ fails_with_Exception (gap_advertise_start o)
  ∧ fails_with_Exception (command o)
  ∧ fails_with_Exception (config o)
  ∧ fails_with_Exception (write_config o).

End ble.

(** ** Concrete devices and messages used in the examples *)

Module examples.

Import tracking.
Local Open Scope Z_scope.

(** ["01234567"], the board's default secret. *)
Definition secret : list Z := [48; 49; 50; 51; 52; 53; 54; 55].

(** [{"sat": 7}] as [ujson.dumps] writes it. *)
Definition sat_7 : pyval := PDict {[ "sat" := PNum (Q2Qc 7) ]}.
Definition sat_7_text : list Z := [123; 34; 115; 97; 116; 34; 58; 32; 55; 125].
Definition sat_7_frame : list Z :=
  Eval vm_compute in thistothat.xor_with secret 0 (thistothat.replace_space sat_7_text).

(** A rover's radio, constructed at clock 0 with the 5 s send limit. *)
Definition radio : lora.world := lora.__init__ 0 true 5 (PStr "rover") secret.

(** A call entered at clock [entry] in which every library, driver and
    bus call succeeds, and one in which the transceiver fails. *)
Definition all_well (entry sent : Z) : lora.outcomes :=
  {| lora.ticks_ms_entry := entry;
     lora.ujson_dumps := λ _, Ok sat_7_text;
     lora.lora_send := λ _, Ok ();
     lora.emit_lora_tx := Ok ();
     lora.resumed := Ok ();
     lora.ticks_ms_sent := sent;
     lora._get_toa := λ _, Ok (Q2Qc 1) |}.

Definition transceiver_fails (entry : Z) (e : exn) : lora.outcomes :=
  {| lora.ticks_ms_entry := entry;
     lora.ujson_dumps := λ _, Ok sat_7_text;
     lora.lora_send := λ _, Raise e;
     lora.emit_lora_tx := Ok ();
     lora.resumed := Ok ();
     lora.ticks_ms_sent := entry;
     lora._get_toa := λ _, Ok (Q2Qc 1) |}.

(** The radio after one successful send completed at clock [sent], and
    while that send is suspended. *)
Definition radio_after_send (sent : Z) : lora.world :=
  {| lora.self := {| lora._lora := true; lora._last_send := sent;
                     lora._send_lock := false; lora._rate_limit := 5;
                     lora.device_id := PStr "rover";
                     lora.device_secret := secret |};
     lora.on_air := [sat_7_frame];
     lora.emitted := ["lora.tx"%string] |}.

Definition radio_sending : lora.world :=
  {| lora.self := {| lora._lora := true; lora._last_send := 0;
                     lora._send_lock := true; lora._rate_limit := 5;
                     lora.device_id := PStr "rover";
                     lora.device_secret := secret |};
     lora.on_air := [sat_7_frame];
     lora.emitted := ["lora.tx"%string] |}.

(** A radio whose device has an empty secret. *)
Definition radio_without_secret : lora.world :=
  lora.__init__ 0 true 5 (PStr "rover") [].

(** A rover seen with [{lat: 10, lon: 20}], and the store holding it. *)
Definition rover_A : Rover :=
  {| id := PStr "A";
     gps_data := {[ "lat" := PNum (Q2Qc 10); "lon" := PNum (Q2Qc 20) ]};
     last_rssi := PNum (Q2Qc (-80)); last_track := 100;
     last_toa := PNum (Q2Qc 1) |}.

Definition store_A : world :=
  {| _rovers := {[ KStr "A" := rover_A ]}; console := [] |}.

Definition empty_store : world := {| _rovers := ∅; console := [] |}.

(** Two handlers of one event: the first always fails, the second
    records that it ran. *)
Definition failing : event.handler (list nat) () () :=
  λ _ w, (Raise ValueError, w).
Definition recording : event.handler (list nat) () () :=
  λ _, event.on_app (Ok None) (λ app, app ++ [2%nat]).

Definition bus : event.EventBus (list nat) () () :=
  {| event.debug_v := true;
     event.subscribers := {[ "x" := [failing; recording] ]} |}.

(** The world before anything has been published. *)
Definition start : event.world (list nat) () :=
  {| event.active_tasks := []; event.console := []; event.app := [] |}.

(** A rover heard with a position, a time and a satellite count, the
    store holding it, and the record [to_dict] writes for it. *)
Definition rover_B : Rover :=
  {| id := PStr "B";
     gps_data := {[ "lat" := PNum (Q2Qc 10); "lon" := PNum (Q2Qc 20);
                    "ut" := PNum (Q2Qc 0); "sat" := PNum (Q2Qc 7) ]};
     last_rssi := PNum (Q2Qc (-80)); last_track := 300;
     last_toa := PNum (Q2Qc 1) |}.

Definition store_B : world :=
  {| _rovers := {[ KStr "B" := rover_B ]}; console := [] |}.

(** A store of two rovers. *)
Definition store_AB : world :=
  {| _rovers := <[KStr "A" := rover_A]> {[ KStr "B" := rover_B ]};
     console := [] |}.

(** Handlers that return a coroutine object, and that are interrupted. *)
Definition suspending : event.handler (list nat) () () :=
  λ _, event.on_app (Ok (Some ())) (λ app, app ++ [3%nat]).
Definition interrupted : event.handler (list nat) () () :=
  λ _, event.on_app (Raise KeyboardInterrupt) (λ app, app ++ [4%nat]).

(** Telling [failing] from the other handlers by what it does. *)
Definition is_failing (h : event.handler (list nat) () ()) : bool :=
  match h () start with
  | (Raise ValueError, _) => true
  | _ => false
  end.

Definition quiet_bus : event.EventBus (list nat) () () :=
  {| event.debug_v := false;
     event.subscribers := {[ "x" := [recording] ]} |}.

Definition busy_bus : event.EventBus (list nat) () () :=
  {| event.debug_v := false;
     event.subscribers :=
       {[ "y" := [suspending; failing; suspending];
          "z" := [recording; interrupted; recording] ]} |}.

(** The device's own handlers of [device.reboot] and
    [device.reset_config], as far as the bus is concerned.  [_restart]
    is a coroutine function: called, it returns a coroutine object.
    [_reset_config] publishes [device.reboot] itself, to the handler
    that the device's bus has for it, and returns [None] when that
    [emit] has returned. *)
Definition _restart : event.handler (list nat) () () :=
  λ _, event.on_app (Ok (Some ())) (λ app, app ++ [5%nat]).

Definition _reset_config : event.handler (list nat) () () :=
  λ _ w,
    let '(r, w) :=
      event.emit "device.reboot" ()
        {| event.debug_v := true;
           event.subscribers := {[ "device.reboot" := [_restart] ]} |} w in
    (r ≫= λ _, Ok None, w).

Definition device_bus : event.EventBus (list nat) () () :=
  {| event.debug_v := true;
     event.subscribers := {[ "device.reboot" := [_restart];
                             "device.reset_config" := [_reset_config] ]} |}.

(** A [mktime] that counts the seconds of the day only. *)
Definition mktime_of_day (td : list Qc) : result Z :=
  Ok (gps.int (default 0%Qc (td !! 3%nat)) * 3600
      + gps.int (default 0%Qc (td !! 4%nat)) * 60
      + gps.int (default 0%Qc (td !! 5%nat)))%Z.

(** A GPS module at start-up, what its decoder holds at 12:34:56.5 on
    4 November 2026 with seven satellites in view, and the module
    after the round of [run] that reads it. *)
Definition gps_start : gps.GPSModule :=
  {| gps.mock := false; gps._decimal_coords := true;
     gps._last_lat := 0%Qc; gps._last_lon := 0%Qc; gps._last_ut := 0;
     gps.data := None |}.

Definition fix_at_noon : gps.decoder :=
  {| gps.fix_time := Some (Q2Qc 123456);
     gps.latitude := Q2Qc (361569 # 10000);
     gps.longitude := Q2Qc (-959915 # 10000);
     gps.satellites_in_view := 7;
     gps.timestamp := [Q2Qc 12; Q2Qc 34; Q2Qc (113 # 2)];
     gps.date := [4; 11; 26]%Z;
     gps.altitude := Q2Qc 210;
     gps.geoid_height := Q2Qc (-26);
     gps.mock_latitude := Q2Qc (361569 # 10000);
     gps.mock_longitude := Q2Qc (-959915 # 10000) |}.

Definition gps_fixed : gps.GPSModule :=
  {| gps.mock := false; gps._decimal_coords := true;
     gps._last_lat := Q2Qc (361569 # 10000);
     gps._last_lon := Q2Qc (-959915 # 10000);
     gps._last_ut := 946730096;
     gps.data :=
       Some (<["lat" := PNum (Q2Qc (361569 # 10000))]>
            (<["lon" := PNum (Q2Qc (-959915 # 10000))]>
            (<["sat" := gps.number 7]>
            (<["ut" := gps.number 946730096]>
            (<["alt" := PNum (Q2Qc 210)]>
            {[ "gh" := PNum (Q2Qc (-26)) ]}))))) |}.

(** The display as [_initialize_hardware] leaves it. *)
Definition display_start : display.Display :=
  {| display._heartbeat_i := 0; display._heartbeat_dir := 1 |}.

(** A BLE module that advertises with nobody connected, and a driver
    that does what it is asked. *)
Definition ble_handles : ble.handles :=
  {| ble._gps_tx_handle := 16; ble._config_tx_handle := 19;
     ble._config_rx_handle := 21; ble._command_rx_handle := 23 |}.

Definition ble_idle : ble.BLEModule :=
  {| ble._ble := true; ble._handles := Some ble_handles;
     ble._connections := ∅;
     ble.calls := [ble.Gap_advertise_stop; ble.Gap_advertise_start] |}.

Definition willing_driver : ble.outcomes :=
  {| ble.has_gattc_exchange_mtu := true;
     ble.gattc_exchange_mtu := Ok ();
     ble.gap_advertise_stop := Ok ();
     ble.gap_advertise_start := Ok ();
     ble.command := Ok 0xF0%Z;
     ble.config := Ok [123; 125]%Z;
     ble.write_config := Ok () |}.

End examples.

(** * Part II: what the firmware guarantees *)

(** ** The framing codec *)

Section thistothat_facts.

Import thistothat.
Local Open Scope Z_scope.

Lemma lxor_ascii a b : is_ascii a → is_ascii b → is_ascii (Z.lxor a b).
Proof.
  unfold is_ascii. intros [Ha0 Ha] [Hb0 Hb].
  assert (H0 : 0 ≤ Z.lxor a b) by (apply Z.lxor_nonneg; lia).
  split; [done|].
  destruct (Z.eq_dec (Z.lxor a b) 0) as [->|Hne]; [lia|].
  change 128 with (2 ^ 7). apply Z.log2_lt_pow2; [lia|].
  pose proof (Z.log2_lxor a b Ha0 Hb0) as Hl.
  assert (Z.log2 a < 7).
  { destruct (Z.eq_dec a 0) as [->|]; [simpl; lia|]. apply Z.log2_lt_pow2; lia. }
  assert (Z.log2 b < 7).
  { destruct (Z.eq_dec b 0) as [->|]; [simpl; lia|]. apply Z.log2_lt_pow2; lia. }
  lia.
Qed.

Lemma mod_nonzero (a b : nat) : b ≠ O → mod_ a b = Ok (a mod b)%nat.
Proof. by destruct b. Qed.

(** With a key at hand the loop runs to its end and computes [xor_with]. *)
Lemma xor_loop_eq key i rest acc :
  key ≠ [] → xor_loop key i rest acc = Ok (acc ++ xor_with key i rest).
Proof.
  intros Hk.
  assert (Hlen : length key ≠ O) by (by destruct key).
  revert i acc. induction rest as [|b rest IH]; intros i acc.
  - simpl. by rewrite app_nil_r.
  - cbn [xor_loop xor_with]. rewrite mod_nonzero by done.
    cbn [mbind result_bind].
    assert (Hj : (i mod length key < length key)%nat)
      by (by apply Nat.mod_upper_bound).
    destruct (lookup_lt_is_Some_2 key _ Hj) as [kb Hkb].
    rewrite Hkb, IH, <- app_assoc. simpl.
    by rewrite (nth_lookup_Some _ _ 0 _ Hkb).
Qed.

Lemma xor_with_involutive key i rest :
  xor_with key i (xor_with key i rest) = rest.
Proof.
  revert i. induction rest as [|b rest IH]; intros i; simpl; [done|].
  rewrite IH. f_equal.
  by rewrite Z.lxor_assoc, Z.lxor_nilpotent, Z.lxor_0_r.
Qed.

Lemma xor_with_ascii key i rest :
  Forall is_ascii key → Forall is_ascii rest →
  Forall is_ascii (xor_with key i rest).
Proof.
  intros Hk Hr. revert i. induction Hr as [|b rest Hb Hr IH]; intros i; simpl.
  - constructor.
  - constructor; [|apply IH]. apply lxor_ascii; [done|].
    destruct (nth_in_or_default (i mod length key) key 0) as [Hin| ->].
    + rewrite Forall_forall in Hk. apply Hk. by apply list_elem_of_In.
    + unfold is_ascii. lia.
Qed.

Lemma utf8_check_ascii p : Forall is_ascii p → utf8_check 0 p = true.
Proof.
  induction 1 as [|c p [Hc0 Hc] _ IH]; simpl; [done|].
  destruct (Z.leb_spec 0xC0 c); [lia|].
  destruct (Z.leb_spec 0x80 c); [lia|]. done.
Qed.

Lemma replace_space_ascii m :
  Forall is_ascii m → Forall is_ascii (replace_space m).
Proof.
  rewrite !Forall_forall. intros H c Hc. apply H.
  unfold replace_space in Hc. by apply list_elem_of_filter in Hc as [_ ?].
Qed.

Lemma replace_space_id m : 32 ∉ m → replace_space m = m.
Proof.
  unfold replace_space. induction m as [|c m IH]; intros H; [done|].
  rewrite filter_cons. rewrite not_elem_of_cons in H. destruct H as [H1 H2].
  rewrite decide_True by congruence. by rewrite IH.
Qed.

(** Where the round trip holds.  For a non-empty secret and a payload
    that are both ASCII, unpacking a packed payload under the same
    secret gives back the payload with its space characters removed,
    hence the payload itself when it has no space. *)
Theorem message_roundtrip_ascii (m k : list Z) :
  k ≠ [] → Forall is_ascii k → Forall is_ascii m →
  roundtrip m k = Ok (Some (replace_space m))
  ∧ (32 ∉ m → roundtrip m k = Ok (Some m)).
Proof.
  intros Hk Hka Hma.
  assert (H : roundtrip m k = Ok (Some (replace_space m))).
  { unfold roundtrip, message_pack, xor_encrypt_decrypt, encode_utf8.
    rewrite xor_loop_eq by done. cbn [mbind result_bind app].
    unfold message_unpack, decode_utf8.
    rewrite utf8_check_ascii
      by (apply xor_with_ascii; [done|by apply replace_space_ascii]).
    cbn [mbind result_bind]. unfold xor_encrypt_decrypt, encode_utf8.
    rewrite xor_loop_eq by done. cbn [mbind result_bind app try_except].
    by rewrite xor_with_involutive. }
  split; [done|]. intros Hs. by rewrite H, replace_space_id.
Qed.

(** The message [{"sat": 7}] under the default secret. *)
Lemma message_roundtrip_ascii_witness :
  roundtrip examples.sat_7_text examples.secret
  = Ok (Some [123; 34; 115; 97; 116; 34; 58; 55; 125]).
Proof.
  refine (proj1 (message_roundtrip_ascii examples.sat_7_text examples.secret
                   _ _ _)).
  - discriminate.
  - repeat constructor; unfold is_ascii; lia.
  - repeat constructor; unfold is_ascii; lia.
Defined.

(** The round trip for every payload.  Under a non-empty secret the
    frame is the payload, its spaces removed, XOR-ed with the secret;
    [message_unpack] gives the payload back when this frame happens
    to be UTF-8 and [None] when it does not. *)
Lemma roundtrip_by_frame (m k : list Z) :
  k ≠ [] →
  message_pack m k = Ok (xor_with k 0 (replace_space m))
  ∧ roundtrip m k
    = Ok (if utf8_check 0 (xor_with k 0 (replace_space m))
          then Some (replace_space m) else None).
Proof.
  intros Hk.
  assert (Hp : message_pack m k = Ok (xor_with k 0 (replace_space m))).
  { unfold message_pack, xor_encrypt_decrypt, encode_utf8.
    by rewrite xor_loop_eq. }
  split; [done|]. unfold roundtrip. rewrite Hp. cbn [mbind result_bind].
  unfold message_unpack, decode_utf8.
  destruct (utf8_check 0 (xor_with k 0 (replace_space m))); [|done].
  cbn [mbind result_bind]. unfold xor_encrypt_decrypt, encode_utf8.
  rewrite xor_loop_eq by done. cbn [mbind result_bind app try_except].
  by rewrite xor_with_involutive.
Qed.

(** C1 at the input on which the code departs from it.  The payload
    "é" (bytes C3 A9: well-formed text with no whitespace in it)
    packed under the secret "0" is the frame F3 99.  [message_unpack]
    decodes the frame as UTF-8 before it XORs it; this frame does not
    decode, so [message_unpack] returns [None], where XOR-ing the
    frame with the secret gives the payload back. *)
Theorem message_roundtrip_non_utf8_frame :
  [48] ≠ []
  ∧ utf8_check 0 [195; 169] = true
  ∧ (∀ c, c ∈ [9; 10; 13; 32] → c ∉ [195; 169])
  ∧ message_pack [195; 169] [48] = Ok [243; 153]
  ∧ decode_utf8 [243; 153] = Raise UnicodeError
  ∧ message_unpack [243; 153] [48] = Ok None
  ∧ roundtrip [195; 169] [48] = Ok None
  ∧ xor_with [48] 0 [243; 153] = [195; 169].
Proof.
  split; [discriminate|]. split; [reflexivity|]. split.
  - intros c Hc Hin. apply list_elem_of_In in Hc, Hin. simpl in Hc, Hin. lia.
  - repeat split.
Qed.

(** [message_pack] under an empty secret: the loop divides by the
    length of the key as soon as there is a byte to encode. *)
Lemma message_pack_empty_secret m :
  message_pack m []
  = if decide (replace_space m = []) then Ok [] else Raise ZeroDivisionError.
Proof.
  unfold message_pack, xor_encrypt_decrypt, encode_utf8.
  by destruct (replace_space m).
Qed.

(** C6, as it is stated, fails: packing "A" under the empty secret
    returns no value at all. *)
Lemma message_pack_raises_on_empty_secret :
  ¬ ∃ v, message_pack [65] [] = Ok v.
Proof. intros [v H]. discriminate H. Qed.

End thistothat_facts.

(** ** The tracked-rover store *)

Section tracking_facts.

Import tracking.
Local Open Scope Z_scope.

(** What [update] leaves under each key of [gps_data]. *)
Lemma update_gps_data_lookup self new_rover_data rssi toa now key :
  gps_data (update self new_rover_data rssi toa now) !! key
  = if decide (key = "id") then gps_data self !! key
    else match new_rover_data !! key with
         | Some value => Some value
         | None => gps_data self !! key
         end.
Proof.
  unfold update. cbn [gps_data]. revert key.
  apply (map_fold_weak_ind
    (λ r (m : gmap string pyval), ∀ key,
       r !! key = if decide (key = "id") then gps_data self !! key
                  else match m !! key with
                       | Some value => Some value
                       | None => gps_data self !! key
                       end)).
  - intros key. rewrite lookup_empty. by case_decide.
  - intros i x m r Hi IH key. specialize (IH key).
    destruct (decide (i ≠ "id")) as [Hne|Heq].
    + destruct (decide (key = i)) as [->|Hki].
      * rewrite !lookup_insert_eq. by rewrite decide_False.
      * by rewrite !lookup_insert_ne.
    + apply dec_stable in Heq. subst i. rewrite IH.
      case_decide; [done|]. by rewrite lookup_insert_ne.
Qed.

(** C5.  [Rover.update] overwrites the fields that the new message
    carries, keeps every field that it does not carry at its previous
    value, and refreshes [last_track]. *)
Theorem update_is_non_destructive
    (self : Rover) (new_rover_data : gmap string pyval)
    (rssi toa : pyval) (now : Z) :
  (∀ key value, key ≠ "id" → new_rover_data !! key = Some value →
     gps_data (update self new_rover_data rssi toa now) !! key = Some value)
  ∧ (∀ key, new_rover_data !! key = None →
       gps_data (update self new_rover_data rssi toa now) !! key
       = gps_data self !! key)
  ∧ last_track (update self new_rover_data rssi toa now) = now
  ∧ id (update self new_rover_data rssi toa now) = id self.
Proof.
  split; [|split; [|done]].
  - intros key value Hk Hv. rewrite update_gps_data_lookup, Hv. by case_decide.
  - intros key Hv. rewrite update_gps_data_lookup, Hv. by case_decide.
Qed.

(** The rover seen with [{lat: 10, lon: 20}] hears [{id: "A", sat: 7}]. *)
Lemma update_is_non_destructive_witness :
  let self' := update examples.rover_A
                 (<["id" := PStr "A"]> {[ "sat" := PNum (Q2Qc 7) ]})
                 (PNum (Q2Qc (-75))) (PNum (Q2Qc 1)) 200 in
  gps_data self' !! "sat" = Some (PNum (Q2Qc 7))
  ∧ gps_data self' !! "lat" = Some (PNum (Q2Qc 10))
  ∧ gps_data self' !! "lon" = Some (PNum (Q2Qc 20))
  ∧ last_track self' = 200.
Proof.
  pose proof (update_is_non_destructive examples.rover_A
                (<["id" := PStr "A"]> {[ "sat" := PNum (Q2Qc 7) ]})
                (PNum (Q2Qc (-75))) (PNum (Q2Qc 1)) 200) as (Hnew & Hold & Ht & _).
  cbv zeta. split; [|split; [|split]].
  - apply Hnew; [discriminate | reflexivity].
  - rewrite Hold; reflexivity.
  - rewrite Hold; reflexivity.
  - exact Ht.
Defined.

(** The same through the base's receive handler, from an empty store. *)
Example track_lat_lon_then_sat :
  let first := <["id" := PStr "A"]>
                 (<["lat" := PNum (Q2Qc 10)]> {[ "lon" := PNum (Q2Qc 20) ]}) in
  let second := <["id" := PStr "A"]> {[ "sat" := PNum (Q2Qc 7) ]} in
  let '(r1, w1) := base_device.track first (PNum (Q2Qc (-80))) (PNum (Q2Qc 1))
                     100 examples.empty_store in
  let '(r2, w2) := base_device.track second (PNum (Q2Qc (-75))) (PNum (Q2Qc 1))
                     200 w1 in
  r1 = Ok (Some true) ∧ r2 = Ok (Some false)
  ∧ ((λ r, (gps_data r !! "lat", gps_data r !! "lon", gps_data r !! "sat",
            last_track r)) <$> _rovers w2 !! KStr "A")
    = Some (Some (PNum (Q2Qc 10)), Some (PNum (Q2Qc 20)),
            Some (PNum (Q2Qc 7)), 200).
Proof. vm_compute. repeat split. Qed.

Lemma load_args_Exception data e :
  load_args data = Raise e → is_Exception e = true.
Proof.
  unfold load_args, getitem. intros H.
  repeat (match type of H with
          | context [match ?x with _ => _ end] => destruct x; cbn in H
          end); by inversion H.
Qed.

Lemma __init___Exception td rssi toa t w e w' :
  __init__ td rssi toa t w = (Raise e, w') → is_Exception e = true.
Proof.
  unfold __init__, hash_key. destruct (init_loop td) as [[i|] g]; intros H.
  - destruct i; by inversion H.
  - by inversion H.
Qed.

Lemma load_loop_Exception datas n clock w e w' :
  load_loop datas n clock w = (Raise e, w') → is_Exception e = true.
Proof.
  revert n w. induction datas as [|data rest IH]; intros n w; simpl; [done|].
  destruct (load_args data) as [[[td rssi] toa]|e0] eqn:Ha.
  - destruct (__init__ _ _ _ _ _) as [[r|e1] w1] eqn:Hi.
    + apply IH.
    + intros [= <- <-]. by eapply __init___Exception.
  - intros [= <- <-]. by eapply load_args_Exception.
Qed.

Lemma load_except_Exception e w :
  is_Exception e = true → ∃ w', load_except e w = (Ok (), w').
Proof. intros H. destruct e; simpl; eauto; done. Qed.

(** C7.  [load_rovers] returns normally whatever the rovers file
    holds; when the file is missing, unreadable or not JSON it prints
    one line and adds no rover, so a store that was empty stays empty. *)
Theorem load_rovers_tolerant (f : rovers_json) (clock : nat → Z) (w : world) :
  (∃ w', load_rovers f clock w = (Ok (), w'))
  ∧ (f = Missing ∨ f = Unreadable ∨ f = Malformed →
     load_rovers f clock w
     = (Ok (), print No_existing_rovers_file_found_or_invalid_JSON_data w)
     ∧ _rovers (load_rovers f clock w).2 = _rovers w
     ∧ (_rovers w = ∅ → _rovers (load_rovers f clock w).2 = ∅)).
Proof.
  split.
  - unfold load_rovers. destruct f; simpl; eauto.
    destruct (iterate rovers_data) as [datas|e] eqn:Hi.
    + destruct (load_loop _ _ _ _) as [[[]|e] w1] eqn:Hl; [eauto|].
      apply load_except_Exception. by eapply load_loop_Exception.
    + apply load_except_Exception. by destruct rovers_data; inversion Hi.
  - intros [-> | [-> | ->]]; by simpl.
Qed.

(** A file that is not JSON, loaded at start-up. *)
Lemma load_rovers_tolerant_witness :
  load_rovers Malformed (λ _, 0) examples.empty_store
  = (Ok (), print No_existing_rovers_file_found_or_invalid_JSON_data
              examples.empty_store)
  ∧ _rovers (load_rovers Malformed (λ _, 0) examples.empty_store).2 = ∅.
Proof.
  destruct (proj2 (load_rovers_tolerant Malformed (λ _, 0) examples.empty_store)
              (or_intror (or_intror eq_refl))) as (H & _ & Hempty).
  split; [exact H | apply Hempty; reflexivity].
Defined.

(** A well-formed file is loaded rover by rover. *)
Example load_rovers_one_record :
  let record := PDict (<["id" := PStr "A"]>
                      (<["gps_data" := PDict (gps_data examples.rover_A
                                               ∪ {[ "ut" := PNum (Q2Qc 0) ]})]>
                      (<["last_rssi" := PNum (Q2Qc (-80))]>
                      {[ "last_toa" := PNum (Q2Qc 1) ]}))) in
  let '(r, w) := load_rovers (Parsed (PList [record])) (λ _, 0)
                   examples.empty_store in
  r = Ok () ∧ id <$> _rovers w !! KStr "A" = Some (PStr "A")
  ∧ console w = [Loaded_rover (PStr "A")].
Proof. vm_compute. repeat split. Qed.

(** C9, as the code has it.  [untrack_rover] evaluates to [None]
    whether or not the id is tracked; it removes the rover filed under
    the id if there is one and leaves the store as it is otherwise,
    and tells the two cases apart only by the line it prints. *)
Theorem untrack_rover_returns_None (rover_id : pyval) (k : pykey) (w : world) :
  hash_key rover_id = Ok k →
  (untrack_rover rover_id w).1 = Ok PNone
  ∧ _rovers (untrack_rover rover_id w).2 = delete k (_rovers w)
  ∧ (is_Some (_rovers w !! k) →
     console (untrack_rover rover_id w).2
     = console w ++ [Removed_from_tracked_rovers rover_id])
  ∧ (_rovers w !! k = None →
     _rovers (untrack_rover rover_id w).2 = _rovers w
     ∧ console (untrack_rover rover_id w).2
       = console w ++ [Failed_to_remove_from_tracked_rovers rover_id]).
Proof.
  intros Hk. unfold untrack_rover. rewrite Hk.
  destruct (_rovers w !! k) as [r|] eqn:Hr; simpl.
  - split; [done|]. split; [done|]. split; [done|]. by intros [=].
  - split; [done|]. split; [done|]. split; [by intros [? [=]]|].
    intros _. split; [|done]. by apply delete_id.
Qed.

(** Untracking the one rover of a store. *)
Lemma untrack_rover_returns_None_witness :
  (untrack_rover (PStr "A") examples.store_A).1 = Ok PNone
  ∧ _rovers (untrack_rover (PStr "A") examples.store_A).2
    = delete (KStr "A") (_rovers examples.store_A)
  ∧ console (untrack_rover (PStr "A") examples.store_A).2
    = [Removed_from_tracked_rovers (PStr "A")].
Proof.
  destruct (untrack_rover_returns_None (PStr "A") (KStr "A") examples.store_A
              eq_refl) as (Hr & Hs & Hc & _).
  split; [exact Hr|]. split; [exact Hs|].
  apply Hc. exists examples.rover_A. reflexivity.
Defined.

(** C9, as it is stated, fails: untracking a rover that is tracked
    does not evaluate to [True], and untracking one that is not does
    not evaluate to [False]. *)
Lemma untrack_rover_returns_no_boolean :
  _rovers examples.store_A !! KStr "A" = Some examples.rover_A
  ∧ (untrack_rover (PStr "A") examples.store_A).1 ≠ Ok (PBool true)
  ∧ _rovers examples.store_A !! KStr "B" = None
  ∧ (untrack_rover (PStr "B") examples.store_A).1 ≠ Ok (PBool false).
Proof.
  split; [reflexivity|]. split; [vm_compute; discriminate|].
  split; [reflexivity|]. vm_compute; discriminate.
Qed.

End tracking_facts.

(** ** The event bus *)

Section event_facts.

Import event.
Context {App Args Coro : Type}.
Implicit Types (h : handler App Args Coro) (self : EventBus App Args Coro)
  (w : world App Coro).

Lemma _log_fields l self w :
  active_tasks (_log l self w) = active_tasks w
  ∧ console (_log l self w) = console w ++ (if debug_v self then [l] else [])
  ∧ app (_log l self w) = app w.
Proof.
  unfold _log. destruct (debug_v self); simpl; by rewrite ?app_nil_r.
Qed.

Lemma delivered_to_all_app event_name (pre post : list (handler App Args Coro))
    args self w :
  delivered_to_all event_name (pre ++ post) args self w
  = delivered_to_all event_name post args self
      (delivered_to_all event_name pre args self w).
Proof. unfold delivered_to_all. by rewrite fold_left_app. Qed.

(** As long as the handlers raise nothing but [Exception]s the loop
    goes on: a handler that fails costs one call of the bus logger
    and nothing else. *)
Lemma emit_loop_app event_name (pre rest : list (handler App Args Coro))
    args self w :
  Forall raises_only_Exception pre →
  emit_loop event_name (pre ++ rest) args self w
  = emit_loop event_name rest args self
      (delivered_to_all event_name pre args self w).
Proof.
  intros H. revert w. induction H as [|h pre Hh _ IH]; intros w; [done|].
  cbn [Datatypes.app emit_loop delivered_to_all fold_left]. unfold invoked.
  specialize (Hh args w).
  destruct (h args w) as [[[coroutine|]|e] w1]; cbn [fst] in Hh.
  - apply IH.
  - apply IH.
  - rewrite (Hh e eq_refl). apply IH.
Qed.

Lemma emit_loop_isolates event_name (handlers : list (handler App Args Coro))
    args self w :
  Forall raises_only_Exception handlers →
  emit_loop event_name handlers args self w
  = (Ok (), delivered_to_all event_name handlers args self w).
Proof.
  intros H. rewrite <- (app_nil_r handlers) at 1.
  by rewrite emit_loop_app.
Qed.

(** The loop stops at what is not an [Exception]. *)
Lemma emit_loop_interrupted event_name (pre post : list (handler App Args Coro))
    h args self w e :
  Forall raises_only_Exception pre →
  (h args (delivered_to_all event_name pre args self w)).1 = Raise e →
  is_Exception e = false →
  emit_loop event_name (pre ++ h :: post) args self w
  = (Raise e, (h args (delivered_to_all event_name pre args self w)).2).
Proof.
  intros Hpre Hh He. rewrite emit_loop_app by done. cbn [emit_loop].
  destruct (h args (delivered_to_all event_name pre args self w)) as [r w1].
  cbn in Hh. subst r. by rewrite He.
Qed.

(** C4, as the code has it.  [emit] catches what is an [Exception].
    When every handler registered for the event raises nothing else,
    [emit] returns normally and the world is left as if each handler
    had been invoked in turn.  When a handler raises an [Exception],
    it is passed to the bus logger, which adds a line to the console
    if the device is verbose and does nothing otherwise, and the
    handlers registered after it are invoked from there.  When a
    handler raises something that is not an [Exception], [emit] raises
    it to the publisher at once: the world is as that handler left it,
    and the handlers registered after it are not invoked. *)
Theorem emit_isolates_handlers (event_name : string) (args : Args)
    (self : EventBus App Args Coro) (w : world App Coro)
    (handlers : list (handler App Args Coro)) :
  subscribers self !! event_name = Some handlers →
  (Forall raises_only_Exception handlers →
   emit event_name args self w
   = (Ok (),
      delivered_to_all event_name handlers args self
        (_log (Bus_emit_for_event_received event_name) self w)))
  ∧ (∀ pre h post e,
       handlers = pre ++ h :: post →
       Forall raises_only_Exception pre →
       (h args (delivered_to_all event_name pre args self
                  (_log (Bus_emit_for_event_received event_name) self w))).1
       = Raise e →
       if is_Exception e then
         console
           (_log (Error_in_handler_for event_name e) self
              (h args (delivered_to_all event_name pre args self
                         (_log (Bus_emit_for_event_received event_name)
                            self w))).2)
         = console
             (h args (delivered_to_all event_name pre args self
                        (_log (Bus_emit_for_event_received event_name)
                           self w))).2
           ++ (if debug_v self then [Error_in_handler_for event_name e]
               else [])
         ∧ (Forall raises_only_Exception post →
            emit event_name args self w
            = (Ok (),
               delivered_to_all event_name post args self
                 (_log (Error_in_handler_for event_name e) self
                    (h args (delivered_to_all event_name pre args self
                               (_log (Bus_emit_for_event_received event_name)
                                  self w))).2)))
       else
         emit event_name args self w
         = (Raise e,
            (h args (delivered_to_all event_name pre args self
                       (_log (Bus_emit_for_event_received event_name)
                          self w))).2)).
Proof.
  intros Hs. unfold emit. rewrite Hs. split.
  - apply emit_loop_isolates.
  - intros pre h post e -> Hpre Hh.
    set (w0 := _log (Bus_emit_for_event_received event_name) self w) in *.
    destruct (is_Exception e) eqn:He.
    + split; [by destruct (_log_fields (Error_in_handler_for event_name e) self
                             (h args (delivered_to_all event_name pre args
                                        self w0)).2) as (_ & -> & _)|].
      intros Hpost. rewrite emit_loop_app by done. cbn [emit_loop].
      destruct (h args (delivered_to_all event_name pre args self w0))
        as [r w1]. cbn in Hh. subst r. rewrite He.
      by apply emit_loop_isolates.
    + by apply emit_loop_interrupted.
Qed.

End event_facts.

(** A handler of "x" that always fails, registered before one that
    records its call: the failure is logged, the second handler runs,
    and [emit] returns. *)
Lemma emit_isolates_handlers_witness :
  event.emit "x" () examples.bus examples.start
  = (Ok (),
     {| event.active_tasks := [];
        event.console := [ event.Bus_emit_for_event_received "x";
                           event.Error_in_handler_for "x" ValueError ];
        event.app := [2%nat] |}).
Proof.
  refine (proj2 (proj2 (emit_isolates_handlers "x" () examples.bus
                          examples.start
                          [examples.failing; examples.recording] eq_refl)
                   [] examples.failing [examples.recording] ValueError
                   eq_refl (Forall_nil_2 _) eq_refl) _).
  repeat constructor; intros args w e H; cbn in H; by inversion H.
Defined.

(** C4, as it is stated, fails.  On a quiet device a handler that is
    interrupted between two recording ones makes [emit] raise to the
    publisher, and the second recording handler is not invoked; and a
    handler that fails with [ValueError] between two suspending ones
    leaves no line on the console. *)
Lemma emit_raises_what_is_no_Exception :
  event.subscribers examples.busy_bus !! "z"%string
  = Some [examples.recording; examples.interrupted; examples.recording]
  ∧ event.emit "z" () examples.busy_bus examples.start
    = (Raise KeyboardInterrupt,
       {| event.active_tasks := []; event.console := [];
          event.app := [2%nat; 4%nat] |})
  ∧ event.subscribers examples.busy_bus !! "y"%string
    = Some [examples.suspending; examples.failing; examples.suspending]
  ∧ event.emit "y" () examples.busy_bus examples.start
    = (Ok (),
       {| event.active_tasks := [(); ()]; event.console := [];
          event.app := [3%nat; 3%nat] |}).
Proof. repeat split. Qed.

(** ** The clock *)

Section utime_facts.

Import utime.
Local Open Scope Z_scope.

(** While less than half a period has gone by, [ticks_diff] is the
    time gone by, also across the wrap of the counter. *)
Lemma ticks_diff_elapsed (earlier gone_by : Z) :
  0 ≤ gone_by < TICKS_PERIOD / 2 →
  ticks_diff ((earlier + gone_by) mod TICKS_PERIOD) earlier = gone_by.
Proof.
  unfold ticks_diff, TICKS_PERIOD. intros H.
  change (2 ^ 30 - 1) with (Z.ones 30). rewrite Z.land_ones by lia.
  change (2 ^ 30 / 2) with (2 ^ 29) in *.
  rewrite (Z.mod_eq (earlier + gone_by) (2 ^ 30)) by lia.
  replace (earlier + gone_by - 2 ^ 30 * ((earlier + gone_by) / 2 ^ 30)
           - earlier + 2 ^ 29)
    with (gone_by + 2 ^ 29 + - ((earlier + gone_by) / 2 ^ 30) * 2 ^ 30) by lia.
  rewrite Z_mod_plus_full, Z.mod_small by lia. lia.
Qed.

End utime_facts.

(** ** The send path *)

Section lora_facts.

Import utime lora.
Local Open Scope Z_scope.

Lemma enter_throttled o message w :
  ticks_diff (ticks_ms_entry o) (_last_send (self w)) < _rate_limit (self w) * 1000 →
  send_message_enter o message w = (Returned (Ok None), w).
Proof.
  intros H. unfold send_message_enter.
  by rewrite (proj2 (Z.ltb_lt _ _) H).
Qed.

Lemma enter_locked o message w :
  _send_lock (self w) = true →
  send_message_enter o message w = (Returned (Ok None), w).
Proof.
  intros H. unfold send_message_enter. rewrite H, andb_false_r.
  by destruct (_ <? _).
Qed.

Lemma others_enter_locked calls w :
  _send_lock (self w) = true →
  others_enter calls w = (replicate (length calls) (Returned (Ok None)), w).
Proof.
  intros H. induction calls as [|[o m] calls IH]; simpl; [done|].
  by rewrite enter_locked, IH.
Qed.

Lemma try_until_await_self o message w r w' :
  try_until_await o message w = (r, w') → self w' = self w.
Proof.
  unfold try_until_await. intros H.
  repeat (match type of H with
          | context [match ?x with _ => _ end] => destruct x
          end); by inversion H.
Qed.

Lemma try_until_await_on_air o message w r w' :
  try_until_await o message w = (r, w') →
  match r with
  | Ok frame => on_air w' = on_air w ++ [frame] ∧ emitted w' = emitted w ++ ["lora.tx"%string]
  | Raise _ => True
  end.
Proof.
  unfold try_until_await. intros H.
  repeat (match type of H with
          | context [match ?x with _ => _ end] => destruct x
          end); by inversion H.
Qed.

Lemma leave_try_unlocked r w r' w' :
  leave_try r w = (r', w') → _send_lock (self w') = false.
Proof.
  unfold leave_try. intros H. destruct r as [toa|e]; [|destruct (is_Exception e)];
    by inversion H.
Qed.

Lemma enter_awaiting o message w f w1 :
  send_message_enter o message w = (Awaiting f, w1) →
  _send_lock (self w1) = true ∧ _last_send (self w1) = _last_send (self w)
  ∧ on_air w1 = on_air w ++ [f].
Proof.
  unfold send_message_enter. intros H.
  destruct (_ <? _); [done|].
  destruct (_ && _); [|done].
  destruct (try_until_await _ _ _) as [[frame|e] w2] eqn:Ht.
  - inversion H; subst. pose proof (try_until_await_self _ _ _ _ _ Ht) as Hs.
    pose proof (try_until_await_on_air _ _ _ _ _ Ht) as [Ha _].
    rewrite Hs. by rewrite Ha.
  - by destruct (leave_try _ _).
Qed.

Lemma enter_returned o message w r w1 :
  _send_lock (self w) = false →
  send_message_enter o message w = (Returned r, w1) →
  _send_lock (self w1) = false ∧ _last_send (self w1) = _last_send (self w).
Proof.
  unfold send_message_enter. intros Hl H.
  destruct (_ <? _); [by inversion H; subst|].
  destruct (_ && _); [|by inversion H; subst].
  destruct (try_until_await _ _ _) as [[frame|e] w2] eqn:Ht; [done|].
  pose proof (try_until_await_self _ _ _ _ _ Ht) as Hs.
  destruct (leave_try _ _) as [r' w3] eqn:Hv. inversion H; subst.
  split; [by eapply leave_try_unlocked|].
  unfold leave_try in Hv. destruct (is_Exception e); inversion Hv; subst; simpl;
    by rewrite Hs.
Qed.

Lemma resume_unlocked o f w r w' :
  send_message_resume o f w = (r, w') → _send_lock (self w') = false.
Proof.
  unfold send_message_resume. destruct (try_after_await _ _ _) as [r0 w0].
  apply leave_try_unlocked.
Qed.

Lemma send_message_with_unlocked others o message w r w' :
  _send_lock (self w) = false →
  send_message_with others o message w = (r, w') →
  _send_lock (self w') = false.
Proof.
  intros Hl. unfold send_message_with.
  destruct (send_message_enter _ _ _) as [[r0|f] w1] eqn:He; intros H.
  - inversion H; subst. by eapply enter_returned.
  - by eapply resume_unlocked.
Qed.

Lemma send_message_with_effect others o message w r w' :
  send_message_with others o message w = (r, w') →
  (_last_send (self w') = _last_send (self w) ∧ ∀ toa, r ≠ Ok (Some toa))
  ∨ (_last_send (self w') = ticks_ms_sent o
     ∧ ∃ frame, on_air w' = on_air w ++ [frame]
                ∧ emitted w' = emitted w ++ ["lora.tx"%string]
                ∧ lora_send o frame = Ok ()).
Proof.
  unfold send_message_with.
  destruct (send_message_enter _ _ _) as [[r0|f] w1] eqn:He; intros H.
  - left. inversion H; subst. revert He. unfold send_message_enter.
    destruct (_ <? _); [by intros [= <- <-]|].
    destruct (_ && _); [|by intros [= <- <-]].
    destruct (try_until_await _ _ _) as [[frame|e] w2] eqn:Ht; [done|].
    pose proof (try_until_await_self _ _ _ _ _ Ht) as Hs.
    unfold leave_try. destruct (is_Exception e); intros [= <- <-]; simpl;
      by rewrite Hs.
  - revert He. unfold send_message_enter.
    destruct (_ <? _); [done|]. destruct (_ && _); [|done].
    destruct (try_until_await _ _ _) as [[frame|e] w2] eqn:Ht;
      [|by destruct (leave_try _ _)].
    intros [= <- <-].
    pose proof (try_until_await_self _ _ _ _ _ Ht) as Hs.
    assert (Hsend : lora_send o frame = Ok ()
                    ∧ on_air w2 = on_air w ++ [frame]
                    ∧ emitted w2 = emitted w ++ ["lora.tx"%string]).
    { revert Ht. unfold try_until_await.
      repeat (match goal with
              | |- context [match ?x with _ => _ end] => destruct x eqn:?
              end); try done.
      by intros [= <- <-]. }
    destruct Hsend as (Hsend & Ha & Hem).
    rewrite others_enter_locked in H by (by rewrite Hs).
    revert H. simpl. unfold send_message_resume, try_after_await.
    destruct (resumed o) as [[]|e].
    + unfold leave_try. intros H. right.
      destruct (_get_toa _ _) as [toa|e]; [|destruct (is_Exception e)];
        inversion H; subst; simpl; eauto 10.
    + unfold leave_try. intros H. left.
      destruct (is_Exception e); inversion H; subst; simpl; by rewrite Hs.
Qed.

(** C2.  A call less than [_rate_limit] seconds (by the clock) after
    [_last_send] returns [None] and changes nothing; a call at or
    after that, with the driver there, the lock free and every call
    it makes succeeding, hands one frame to the transceiver, sets
    [_last_send] and returns the time on air; [_last_send] changes
    only in a call that handed a frame to the transceiver; and after a
    call that returned a time on air, a call less than [_rate_limit]
    seconds after its [_last_send] returns [None] and changes nothing. *)
Theorem send_rate_limit (o : outcomes) (message : tracking.pyval) (w : world) :
  (∀ others,
     ticks_diff (ticks_ms_entry o) (_last_send (self w))
       < _rate_limit (self w) * 1000 →
     send_message_with others o message w = (Ok None, w))
  ∧ (∀ others text frame toa,
       _rate_limit (self w) * 1000
         ≤ ticks_diff (ticks_ms_entry o) (_last_send (self w)) →
       _lora (self w) = true → _send_lock (self w) = false →
       ujson_dumps o (stamp message (device_id (self w))) = Ok text →
       thistothat.message_pack text (device_secret (self w)) = Ok frame →
       lora_send o frame = Ok () → emit_lora_tx o = Ok () →
       resumed o = Ok () → _get_toa o (length frame) = Ok toa →
       send_message_with others o message w
       = (Ok (Some toa),
          {| self := {| _lora := true; _last_send := ticks_ms_sent o;
                        _send_lock := false;
                        _rate_limit := _rate_limit (self w);
                        device_id := device_id (self w);
                        device_secret := device_secret (self w) |};
             on_air := on_air w ++ [frame];
             emitted := emitted w ++ ["lora.tx"%string] |}))
  ∧ (∀ others r w',
       send_message_with others o message w = (r, w') →
       _last_send (self w') ≠ _last_send (self w) →
       _last_send (self w') = ticks_ms_sent o
       ∧ ∃ frame, lora_send o frame = Ok () ∧ on_air w' = on_air w ++ [frame])
  ∧ (∀ others toa w' others2 o2 message2,
       send_message_with others o message w = (Ok (Some toa), w') →
       ticks_diff (ticks_ms_entry o2) (ticks_ms_sent o)
         < _rate_limit (self w') * 1000 →
       send_message_with others2 o2 message2 w' = (Ok None, w')).
Proof.
  split; [|split; [|split]].
  - intros others H. unfold send_message_with. by rewrite enter_throttled.
  - intros others text frame toa Ht Hl Hk Hd Hp Hs He Hr Htoa.
    unfold send_message_with, send_message_enter.
    rewrite (proj2 (Z.ltb_ge _ _) Ht), Hl, Hk. simpl.
    unfold try_until_await. simpl. rewrite Hd, Hp, Hs, He.
    rewrite others_enter_locked by done. simpl.
    unfold send_message_resume, try_after_await. rewrite Hr. simpl.
    rewrite Htoa. unfold leave_try, set_send_lock, set_last_send, emit, transmit.
    simpl. by rewrite Hl.
  - intros others r w' H Hne.
    destruct (send_message_with_effect _ _ _ _ _ _ H) as [[Hsame _]|[Hnew Hf]];
      [done|].
    split; [done|]. destruct Hf as (frame & ? & ? & ?). eauto.
  - intros others toa w' others2 o2 message2 H Hd.
    destruct (send_message_with_effect _ _ _ _ _ _ H) as [[_ Hno]|[Hnew Hf]];
      [by destruct (Hno toa)|].
    unfold send_message_with. rewrite enter_throttled; [done|]. by rewrite Hnew.
Qed.

(** A first send at 6.0 s, a second at 8.0 s, a third at 11.01 s. *)
Lemma send_rate_limit_witness :
  send_message_with [] (examples.all_well 6000 6010) examples.sat_7
    examples.radio
  = (Ok (Some (Q2Qc 1)), examples.radio_after_send 6010)
  ∧ send_message_with [] (examples.all_well 8000 8010) examples.sat_7
      (examples.radio_after_send 6010)
    = (Ok None, examples.radio_after_send 6010)
  ∧ (send_message_with [] (examples.all_well 11010 11020) examples.sat_7
       (examples.radio_after_send 6010)).1
    = Ok (Some (Q2Qc 1)).
Proof.
  pose proof (send_rate_limit (examples.all_well 6000 6010) examples.sat_7
                examples.radio) as (_ & Hgo & _ & Hnext).
  pose proof (Hgo [] examples.sat_7_text examples.sat_7_frame (Q2Qc 1)
                ltac:(by vm_compute) eq_refl eq_refl eq_refl eq_refl eq_refl
                eq_refl eq_refl eq_refl) as H1.
  pose proof (send_rate_limit (examples.all_well 11010 11020) examples.sat_7
                (examples.radio_after_send 6010)) as (_ & Hgo' & _).
  split; [exact H1|]. split.
  - exact (Hnext [] (Q2Qc 1) (examples.radio_after_send 6010) []
             (examples.all_well 8000 8010) examples.sat_7 H1 eq_refl).
  - rewrite (Hgo' [] examples.sat_7_text examples.sat_7_frame (Q2Qc 1)
               ltac:(by vm_compute) eq_refl eq_refl eq_refl eq_refl eq_refl
               eq_refl eq_refl eq_refl).
    reflexivity.
Defined.

(** C3.  A call suspended in its [await] holds the lock; any call
    that arrives while the lock is held returns [None] at once and
    changes nothing; whatever happens when the suspended call is
    resumed, the lock is free when it ends; and a call that finds the
    lock free leaves it free, whichever way it ends, by a value or by
    an exception of any class, raised by the transceiver or later. *)
Theorem send_lock_exclusion_and_release
    (o : outcomes) (message : tracking.pyval) (w : world) :
  (∀ lora_message w1,
     send_message_enter o message w = (Awaiting lora_message, w1) →
     _send_lock (self w1) = true
     ∧ (∀ o2 message2,
          send_message_enter o2 message2 w1 = (Returned (Ok None), w1))
     ∧ (∀ o' r w2,
          send_message_resume o' lora_message w1 = (r, w2) →
          _send_lock (self w2) = false))
  ∧ (_send_lock (self w) = true →
     ∀ others, send_message_with others o message w = (Ok None, w))
  ∧ (_send_lock (self w) = false →
     ∀ others r w',
       send_message_with others o message w = (r, w') →
       _send_lock (self w') = false).
Proof.
  split; [|split].
  - intros f w1 He. destruct (enter_awaiting _ _ _ _ _ He) as (Hl & _ & _).
    split; [done|]. split.
    + intros o2 message2. by apply enter_locked.
    + intros o' r w2. apply resume_unlocked.
  - intros Hl others. unfold send_message_with. by rewrite enter_locked.
  - intros Hl others r w'. by apply send_message_with_unlocked.
Qed.

(** A send suspended after its frame went out; a second sender at
    7.0 s; a send in which the transceiver raises [OSError], and one
    that is cancelled. *)
Lemma send_lock_exclusion_and_release_witness :
  send_message_enter (examples.all_well 6000 6010) examples.sat_7 examples.radio
  = (Awaiting examples.sat_7_frame, examples.radio_sending)
  ∧ _send_lock (self examples.radio_sending) = true
  ∧ send_message_enter (examples.all_well 7000 7010) examples.sat_7
      examples.radio_sending
    = (Returned (Ok None), examples.radio_sending)
  ∧ _send_lock
      (self (send_message_resume (examples.all_well 6000 6010)
               examples.sat_7_frame examples.radio_sending).2) = false
  ∧ _send_lock
      (self (send_message_with [] (examples.transceiver_fails 6000 OSError)
               examples.sat_7 examples.radio).2) = false
  ∧ _send_lock
      (self (send_message_with []
               (examples.transceiver_fails 6000 CancelledError)
               examples.sat_7 examples.radio).2) = false.
Proof.
  pose proof (send_lock_exclusion_and_release (examples.all_well 6000 6010)
                examples.sat_7 examples.radio) as (Hheld & _ & _).
  destruct (Hheld examples.sat_7_frame examples.radio_sending eq_refl)
    as (Hlock & Hother & Hfree).
  split; [reflexivity|]. split; [exact Hlock|]. split; [apply Hother|].
  split; [|split].
  - eapply Hfree. apply surjective_pairing.
  - pose proof (send_lock_exclusion_and_release
                  (examples.transceiver_fails 6000 OSError)
                  examples.sat_7 examples.radio) as (_ & _ & Hrel).
    eapply (Hrel eq_refl []). apply surjective_pairing.
  - pose proof (send_lock_exclusion_and_release
                  (examples.transceiver_fails 6000 CancelledError)
                  examples.sat_7 examples.radio) as (_ & _ & Hrel).
    eapply (Hrel eq_refl []). apply surjective_pairing.
Defined.

(** What the two failing sends come to. *)
Example send_message_when_transceiver_fails :
  send_message (examples.transceiver_fails 6000 OSError) examples.sat_7
    examples.radio
  = (Ok None, examples.radio)
  ∧ send_message (examples.transceiver_fails 6000 CancelledError)
      examples.sat_7 examples.radio
    = (Raise CancelledError, examples.radio).
Proof. split; reflexivity. Qed.

(** C10.  [__init__] sets [_last_send] to its own clock reading, so a
    call less than [_rate_limit] seconds after the construction returns
    [None] and changes nothing, although nothing has been sent yet. *)
Theorem first_send_throttled_from_construction
    (ticks_ms : Z) (driver_started : bool) (rate_limit : Z)
    (id : tracking.pyval) (secret : list Z)
    (others : list (outcomes * tracking.pyval))
    (o : outcomes) (message : tracking.pyval) :
  ticks_diff (ticks_ms_entry o) ticks_ms < rate_limit * 1000 →
  on_air (__init__ ticks_ms driver_started rate_limit id secret) = []
  ∧ send_message_with others o message
      (__init__ ticks_ms driver_started rate_limit id secret)
    = (Ok None, __init__ ticks_ms driver_started rate_limit id secret).
Proof.
  intros H. split; [done|].
  unfold send_message_with. by rewrite enter_throttled.
Qed.

(** A first send 3 s after the construction, under the 5 s limit. *)
Lemma first_send_throttled_from_construction_witness :
  on_air examples.radio = []
  ∧ send_message_with [] (examples.all_well 3000 3010) examples.sat_7
      examples.radio
    = (Ok None, examples.radio).
Proof.
  exact (first_send_throttled_from_construction 0 true 5
           (tracking.PStr "rover") examples.secret []
           (examples.all_well 3000 3010) examples.sat_7 eq_refl).
Defined.

(** A device without a secret: the failure of [message_pack] ends in
    the [except] clause of [send_message]. *)
Lemma send_message_empty_secret others o message w text :
  _rate_limit (self w) * 1000
    ≤ ticks_diff (ticks_ms_entry o) (_last_send (self w)) →
  _lora (self w) = true → _send_lock (self w) = false →
  device_secret (self w) = [] →
  ujson_dumps o (stamp message (device_id (self w))) = Ok text →
  thistothat.replace_space text ≠ [] →
  send_message_with others o message w = (Ok None, w).
Proof.
  intros Ht Hl Hk Hs Hd Hne.
  unfold send_message_with, send_message_enter.
  rewrite (proj2 (Z.ltb_ge _ _) Ht), Hl, Hk. simpl.
  unfold try_until_await. simpl. rewrite Hd, Hs.
  unfold thistothat.message_pack, thistothat.xor_encrypt_decrypt,
    thistothat.encode_utf8.
  destruct (thistothat.replace_space text) as [|c rest]; [done|]. simpl.
  destruct w as [[] ? ?]; simpl in *; by subst.
Qed.

(** C6, as the code has it.  [message_pack] does not catch: under an
    empty secret it raises [ZeroDivisionError] whenever the payload
    has a character other than a space, and returns the empty frame
    otherwise.  The exception is caught in [send_message], which then
    returns [None] with nothing transmitted and the lock free. *)
Theorem empty_secret_raises_in_pack_caught_in_send (m : list Z) :
  thistothat.message_pack m []
  = (if decide (thistothat.replace_space m = []) then Ok []
     else Raise ZeroDivisionError)
  ∧ (∀ others o message w,
       _rate_limit (self w) * 1000
         ≤ ticks_diff (ticks_ms_entry o) (_last_send (self w)) →
       _lora (self w) = true → _send_lock (self w) = false →
       device_secret (self w) = [] →
       ujson_dumps o (stamp message (device_id (self w))) = Ok m →
       thistothat.replace_space m ≠ [] →
       send_message_with others o message w = (Ok None, w)).
Proof.
  split; [apply message_pack_empty_secret|].
  intros others o message w. apply send_message_empty_secret.
Qed.

(** [{"sat": 7}] on a device without a secret. *)
Lemma empty_secret_raises_in_pack_caught_in_send_witness :
  thistothat.message_pack examples.sat_7_text [] = Raise ZeroDivisionError
  ∧ send_message_with [] (examples.all_well 6000 6010) examples.sat_7
      examples.radio_without_secret
    = (Ok None, examples.radio_without_secret).
Proof.
  destruct (empty_secret_raises_in_pack_caught_in_send examples.sat_7_text)
    as (Hpack & Hsend).
  split; [exact Hpack|].
  apply Hsend; try reflexivity; [by vm_compute | discriminate].
Defined.

End lora_facts.

(** ** The button classifier *)

Section device_facts.

Import utime device.
Local Open Scope Z_scope.

(** The timing loop while the button stays down. *)
Lemma run_held start el holds rest :
  Forall (held start) holds →
  run {| at_ := while_pressed start; elapsed := el |} (holds ++ rest)
  = run {| at_ := while_pressed start;
           elapsed := elapsed_after start el holds |} rest.
Proof.
  intros H. revert el. induction H as [|s holds [Hv Hd] _ IH]; intros el; [done|].
  cbn [app run]. unfold step. cbn [at_]. rewrite Hv. cbn [Z.eqb _PRESSED].
  rewrite (proj2 (Z.leb_gt _ _) Hd). rewrite IH. simpl.
  unfold elapsed_after. rewrite last_cons.
  destruct (last holds); by destruct (run _ rest).
Qed.

Lemma elapsed_after_held start el holds :
  Forall (held start) holds → holds ≠ [] →
  ∃ e, elapsed_after start el holds = Some e ∧ e < _BUTTON_SLEEP.
Proof.
  intros H Hne. unfold elapsed_after.
  destruct (last holds) as [s|] eqn:Hl.
  - exists (ticks_diff (ticks_ms s) start). split; [done|].
    rewrite Forall_forall in H. apply last_Some_elem_of in Hl.
    by apply H in Hl as [_ ?].
  - by apply last_None in Hl.
Qed.

(** A press is timed from the clock reading of the debounce sample. *)
Lemma press_detected el detect confirm rest :
  value detect = _PRESSED → value confirm = _PRESSED →
  run {| at_ := outer_if; elapsed := el |} (detect :: confirm :: rest)
  = run {| at_ := while_pressed (ticks_ms confirm); elapsed := el |} rest.
Proof.
  intros Hd Hc. cbn [run]. unfold step. cbn [at_ elapsed].
  rewrite Hd, Hc. cbn [Z.eqb _PRESSED]. simpl. by destruct (run _ rest).
Qed.

(** A press that the timing loop has seen down at least once (or that
    follows an earlier press) is classified, when it is found released,
    by the time measured then: [button.bump] below 250 ms,
    [button.long] between 1000 and 4000 ms, nothing otherwise. *)
Lemma press_released_classified start el holds release rest e :
  Forall (held start) holds →
  value release ≠ _PRESSED →
  elapsed_after start el holds = Some e → e < _BUTTON_SLEEP →
  run {| at_ := while_pressed start; elapsed := el |}
      (holds ++ release :: rest)
  = let '(later, st) :=
      run {| at_ := outer_if;
             elapsed := Some (ticks_diff (ticks_ms release) start) |} rest in
    (classify (ticks_diff (ticks_ms release) start) ++ later, st).
Proof.
  intros Hh Hr He Hlt. rewrite run_held by done. rewrite He.
  cbn [run]. unfold step. cbn [at_ elapsed].
  rewrite (proj2 (Z.eqb_neq _ _) Hr). unfold after_while.
  rewrite (proj2 (Z.leb_gt _ _) Hlt). unfold classify.
  destruct (_ <? _BUTTON_BUMP); [done|]. by destruct (_ && _).
Qed.

(** A press still down when the measured time reaches 5000 ms
    publishes [device.sleep] and ends the task: nothing is published
    for it, or for anything else, afterwards. *)
Lemma press_held_to_sleep start el holds s rest :
  Forall (held start) holds →
  value s = _PRESSED →
  _BUTTON_SLEEP ≤ ticks_diff (ticks_ms s) start →
  run {| at_ := while_pressed start; elapsed := el |} (holds ++ s :: rest)
  = (["device.sleep"%string], Finished).
Proof.
  intros Hh Hv Hd. rewrite run_held by done.
  cbn [run]. unfold step. cbn [at_]. rewrite Hv. cbn [Z.eqb _PRESSED].
  by rewrite (proj2 (Z.leb_le _ _) Hd).
Qed.

(** Presses of about 100 ms, 2000 ms and 5000 ms on a fresh task. *)
Example press_100ms :
  (check_button (press 1000 3)).1 = ["button.bump"%string].
Proof. reflexivity. Qed.

Example press_2000ms :
  (check_button (press 1000 66)).1 = ["button.long"%string].
Proof. vm_compute. reflexivity. Qed.

Example press_5000ms :
  check_button (press 1000 167) = (["device.sleep"%string], Finished).
Proof. vm_compute. reflexivity. Qed.

(** C8 at the input on which the code departs from it.  The first
    press after start-up is seen down by the outer test and by the
    debounce test and released by the test of the timing loop, so the
    loop body never runs: [elapsed] is read unbound, the task dies of
    [NameError] and publishes nothing, where a press released 0 ms
    into its timing is to publish [button.bump]. *)
Theorem check_button_immediate_release :
  check_button [ {| value := _PRESSED; ticks_ms := 1000 |};
                 {| value := _PRESSED; ticks_ms := 1030 |};
                 {| value := _RELEASED; ticks_ms := 1030 |} ]
  = ([], Failed NameError)
  ∧ classify (ticks_diff 1030 1030) = ["button.bump"%string].
Proof. split; reflexivity. Qed.

(** The same release on a later press is classified as a bump. *)
Example later_immediate_release :
  (check_button (press 1000 3 ++ press 2000 0)).1
  = ["button.bump"%string; "button.bump"%string].
Proof. reflexivity. Qed.

End device_facts.

(** ** More on the tracked-rover store *)

Section tracking_store_facts.

Import tracking.
Local Open Scope Z_scope.

(** The constructor's loop takes the id out of the message and keeps
    the rest. *)
Lemma init_loop_eq (tracked_data : gmap string pyval) :
  init_loop tracked_data = (tracked_data !! "id", delete "id" tracked_data).
Proof.
  unfold init_loop.
  apply (map_fold_weak_ind
    (λ (r : option pyval * gmap string pyval) (m : gmap string pyval),
       r = (m !! "id", delete "id" m))).
  - by rewrite lookup_empty, delete_empty.
  - intros i x m r Hi ->. case_decide as Hid.
    + subst i. by rewrite lookup_insert_eq, delete_insert_eq.
    + by rewrite lookup_insert_ne, delete_insert_ne.
Qed.

(** [Rover.__init__]: a message with a hashable id files a rover that
    holds every field of the message but the id, and [get_rover]
    finds it; a message without id, or with an id that cannot be a
    key, raises and leaves the store as it was. *)
Theorem init_files_rover_under_its_id
    (tracked_data : gmap string pyval) (rssi toa : pyval) (now : Z) (w : world) :
  match tracked_data !! "id" with
  | None => __init__ tracked_data rssi toa now w = (Raise AttributeError, w)
  | Some i =>
      match hash_key i with
      | Raise e => __init__ tracked_data rssi toa now w = (Raise e, w)
      | Ok k =>
          ∃ self w',
            __init__ tracked_data rssi toa now w = (Ok self, w')
            ∧ id self = i
            ∧ gps_data self = delete "id" tracked_data
            ∧ last_track self = now
            ∧ get_rover i w' = Ok (Some self)
            ∧ (∀ k', k' ≠ k → _rovers w' !! k' = _rovers w !! k')
      end
  end.
Proof.
  unfold __init__. rewrite init_loop_eq.
  destruct (tracked_data !! "id") as [i|]; [|done].
  destruct (hash_key i) as [k|e] eqn:Hk; [|done].
  eexists _, _. split; [done|]. cbn. repeat split.
  - unfold get_rover. rewrite Hk. cbn. by rewrite lookup_insert_eq.
  - intros k' Hne. by rewrite lookup_insert_ne.
Qed.

(** What [update] leaves in [gps_data], as one map. *)
Lemma update_gps_data self new_rover_data rssi toa now :
  gps_data (update self new_rover_data rssi toa now)
  = delete "id" new_rover_data ∪ gps_data self.
Proof.
  apply map_eq. intros key. rewrite update_gps_data_lookup, lookup_union.
  case_decide as Hk.
  - subst key. by rewrite lookup_delete_eq, (left_id None _).
  - rewrite lookup_delete_ne by done.
    destruct (new_rover_data !! key), (gps_data self !! key); done.
Qed.

(** Hearing the same message twice changes nothing but [last_track]
    (and the link figures): after a first [update], and likewise after
    the [__init__] that filed the rover, an [update] with the same
    message leaves [gps_data] as it is. *)
Theorem update_with_same_message_keeps_gps_data
    (self : Rover) (message : gmap string pyval)
    (rssi toa rssi' toa' : pyval) (t t' : Z) (w : world) :
  gps_data (update (update self message rssi toa t) message rssi' toa' t')
  = gps_data (update self message rssi toa t)
  ∧ (∀ new w',
       __init__ message rssi toa t w = (Ok new, w') →
       gps_data (update new message rssi' toa' t') = gps_data new).
Proof.
  split.
  - rewrite !update_gps_data. apply map_eq. intros key.
    rewrite !lookup_union.
    destruct (delete "id" message !! key), (gps_data self !! key); done.
  - intros new w'. unfold __init__. rewrite init_loop_eq.
    destruct (message !! "id") as [i|]; [|done].
    destruct (hash_key i); [|done]. intros [= <- _].
    rewrite update_gps_data. cbn. by rewrite (idemp_L (∪)).
Qed.

(** A rover heard twice with [{id: "A", sat: 7}]. *)
Lemma update_with_same_message_keeps_gps_data_witness :
  ∃ new w',
    __init__ (<["id" := PStr "A"]> {[ "sat" := PNum (Q2Qc 7) ]})
      (PNum (Q2Qc (-80))) (PNum (Q2Qc 1)) 100 examples.empty_store
    = (Ok new, w')
    ∧ gps_data (update new (<["id" := PStr "A"]> {[ "sat" := PNum (Q2Qc 7) ]})
                  (PNum (Q2Qc (-75))) (PNum (Q2Qc 2)) 200)
      = gps_data new.
Proof.
  eexists _, _. split; [reflexivity|].
  refine (proj2 (update_with_same_message_keeps_gps_data examples.rover_A
                   _ _ _ _ _ _ _ examples.empty_store) _ _ _).
  reflexivity.
Defined.

(** [untrack_rover] then [get_rover]: the rover is gone, the others
    are where they were, and untracking once more changes nothing. *)
Theorem untracked_rover_is_gone (rover_id : pyval) (k : pykey) (w : world) :
  hash_key rover_id = Ok k →
  get_rover rover_id (untrack_rover rover_id w).2 = Ok None
  ∧ (k ∉ list_rovers ((untrack_rover rover_id w).2))
  ∧ (∀ other k', hash_key other = Ok k' → k' ≠ k →
       get_rover other (untrack_rover rover_id w).2 = get_rover other w)
  ∧ _rovers (untrack_rover rover_id (untrack_rover rover_id w).2).2
    = _rovers (untrack_rover rover_id w).2.
Proof.
  intros Hk.
  assert (Hs : ∀ w, _rovers (untrack_rover rover_id w).2 = delete k (_rovers w)).
  { intros w0. unfold untrack_rover. rewrite Hk.
    by destruct (_rovers w0 !! k). }
  split; [|split; [|split]].
  - unfold get_rover. rewrite Hk. cbn. by rewrite Hs, lookup_delete_eq.
  - unfold list_rovers. rewrite Hs. intros Hin.
    apply list_elem_of_fmap in Hin as ([k0 r] & -> & Hin).
    apply elem_of_map_to_list in Hin. cbn in Hin.
    by rewrite lookup_delete_eq in Hin.
  - intros other k' Hk' Hne. unfold get_rover. rewrite Hk'. cbn.
    by rewrite Hs, lookup_delete_ne.
  - rewrite !Hs. apply delete_id, lookup_delete_eq.
Qed.

(** Untracking the one rover of a store. *)
Lemma untracked_rover_is_gone_witness :
  get_rover (PStr "A") examples.store_A = Ok (Some examples.rover_A)
  ∧ get_rover (PStr "A") (untrack_rover (PStr "A") examples.store_A).2
    = Ok None.
Proof.
  split; [reflexivity|].
  exact (proj1 (untracked_rover_is_gone (PStr "A") (KStr "A")
                  examples.store_A eq_refl)).
Defined.

Lemma __init___filed td rssi toa t w :
  filed_under_own_id (_rovers w) →
  filed_under_own_id (_rovers (__init__ td rssi toa t w).2).
Proof.
  intros Hw. unfold __init__. destruct (init_loop td) as [[i|] g]; [|done].
  destruct (hash_key i) as [k|e] eqn:Hk; [|done]. cbn.
  intros k' r. destruct (decide (k' = k)) as [->|Hne].
  - rewrite lookup_insert_eq. by intros [= <-].
  - rewrite lookup_insert_ne by done. apply Hw.
Qed.

Lemma load_loop_filed datas n clock w :
  filed_under_own_id (_rovers w) →
  filed_under_own_id (_rovers (load_loop datas n clock w).2).
Proof.
  revert n w. induction datas as [|data rest IH]; intros n w Hw; [done|].
  cbn [load_loop]. destruct (load_args data) as [[[td rssi] toa]|e]; [|done].
  pose proof (__init___filed td rssi toa (clock n) w Hw) as Hi.
  destruct (__init__ _ _ _ _ _) as [[new|e] w1]; [|done].
  by apply IH.
Qed.

Lemma load_except_rovers e w : _rovers (load_except e w).2 = _rovers w.
Proof. unfold load_except. destruct e; done. Qed.

(** An invariant of the store: whatever [__init__], [update] through
    the receive handler, [untrack_rover] and [load_rovers] do, every
    rover stays filed under the key of its own id. *)
Theorem rovers_stay_filed_under_own_id (w : world) :
  filed_under_own_id (_rovers w) →
  (∀ td rssi toa t,
     filed_under_own_id (_rovers (__init__ td rssi toa t w).2))
  ∧ (∀ rover_id, filed_under_own_id (_rovers (untrack_rover rover_id w).2))
  ∧ (∀ f clock, filed_under_own_id (_rovers (load_rovers f clock w).2))
  ∧ (∀ td rssi toa t,
       filed_under_own_id (_rovers (base_device.track td rssi toa t w).2)).
Proof.
  intros Hw. split; [|split; [|split]].
  - intros. by apply __init___filed.
  - intros rover_id. unfold untrack_rover.
    destruct (hash_key rover_id) as [k|e]; [|done].
    assert (Hd : filed_under_own_id (delete k (_rovers w))).
    { intros k' r Hr. apply lookup_delete_Some in Hr as [_ Hr]. by apply Hw. }
    by destruct (_rovers w !! k).
  - intros f clock. unfold load_rovers.
    destruct (open_and_load f) as [rovers_data|e];
      [|by rewrite load_except_rovers].
    destruct (iterate rovers_data) as [datas|e];
      [|by rewrite load_except_rovers].
    pose proof (load_loop_filed datas 0 clock w Hw) as Hl.
    destruct (load_loop _ _ _ _) as [[[]|e] w1]; [done|].
    by rewrite load_except_rovers.
  - intros td rssi toa t. unfold base_device.track.
    destruct (td !! "id") as [rover_id|]; [|done].
    assert (filed_under_own_id
              (_rovers (match get_rover rover_id w with
                        | Ok (Some rover) =>
                            match hash_key rover_id with
                            | Ok k =>
                                (Ok (Some false),
                                 {| _rovers := <[k := update rover td rssi toa t]>
                                                 (_rovers w);
                                    console := console w |})
                            | Raise e => (Raise e, w)
                            end
                        | Ok None =>
                            match __init__ td rssi toa t w with
                            | (Ok _, w) => (Ok (Some true), w)
                            | (Raise e, w) => (Raise e, w)
                            end
                        | Raise e => (Raise e, w)
                        end).2)) as H.
    { unfold get_rover. destruct (hash_key rover_id) as [k|e] eqn:Hk; [|done].
      cbn. destruct (_rovers w !! k) as [rover|] eqn:Hr.
      - cbn. intros k' r. destruct (decide (k' = k)) as [->|Hne].
        + rewrite lookup_insert_eq. intros [= <-]. cbn. by apply Hw.
        + rewrite lookup_insert_ne by done. apply Hw.
      - pose proof (__init___filed td rssi toa t w Hw) as Hi.
        by destruct (__init__ _ _ _ _ _) as [[new|e] w1]. }
    by destruct rover_id.
Qed.

(** The store holding rover A, at start-up and after a message. *)
Lemma rovers_stay_filed_under_own_id_witness :
  filed_under_own_id (_rovers examples.store_A)
  ∧ filed_under_own_id
      (_rovers (base_device.track
                  (<["id" := PStr "B"]> {[ "sat" := PNum (Q2Qc 7) ]})
                  (PNum (Q2Qc (-75))) (PNum (Q2Qc 1)) 200
                  examples.store_A).2).
Proof.
  assert (H : filed_under_own_id (_rovers examples.store_A)).
  { intros k r Hr. unfold examples.store_A in Hr. cbn [_rovers] in Hr.
    apply lookup_singleton_Some in Hr as [<- <-]. reflexivity. }
  split; [exact H|].
  apply (rovers_stay_filed_under_own_id examples.store_A H).
Defined.

(** How [load_rovers] reads one record written by [to_dict]. *)
Lemma load_args_to_dict r lat lon ut :
  gps_data r !! "lat" = Some lat → gps_data r !! "lon" = Some lon →
  gps_data r !! "ut" = Some ut →
  load_args (to_dict r)
  = Ok (<["id" := id r]> (<["lat" := lat]> (<["lon" := lon]> (<["ut" := ut]> ∅))),
        last_rssi r, last_toa r).
Proof.
  intros Hlat Hlon Hut.
  assert (Hd : ∀ key,
            getitem (to_dict r) key
            = if decide (key = "id") then Ok (id r)
              else if decide (key = "gps_data") then Ok (PDict (gps_data r))
              else if decide (key = "last_rssi") then Ok (last_rssi r)
              else if decide (key = "last_track")
                   then Ok (PNum (Q2Qc (inject_Z (last_track r))))
              else if decide (key = "last_toa") then Ok (last_toa r)
              else Raise KeyError).
  { intros key. unfold getitem, to_dict.
    repeat (case_decide; [subst key; by simplify_map_eq|]).
    by simplify_map_eq. }
  unfold load_args. rewrite !Hd. cbn [decide]. simpl.
  by rewrite Hlat, Hlon, Hut.
Qed.

Lemma load_loop_app a b n clock w :
  load_loop (a ++ b) n clock w
  = match load_loop a n clock w with
    | (Ok (), w1) => load_loop b (n + length a) clock w1
    | (Raise e, w1) => (Raise e, w1)
    end.
Proof.
  revert n w. induction a as [|data a IH]; intros n w.
  - cbn. by rewrite Nat.add_0_r.
  - cbn [app load_loop length].
    destruct (load_args data) as [[[td rssi] toa]|e]; [|done].
    destruct (__init__ _ _ _ _ _) as [[new|e] w1]; [|done].
    rewrite IH. by rewrite Nat.add_succ_r.
Qed.

Lemma load_args_raises data e :
  load_args data = Raise e → e = KeyError ∨ e = TypeError.
Proof.
  unfold load_args, getitem. intros H.
  repeat (match type of H with
          | context [match ?x with _ => _ end] => destruct x; cbn in H
          end); inversion H; auto.
Qed.

(** A record that lacks a field stops the load where it stands: the
    records before it have been filed, the records after it are not
    looked at, and [load_rovers] still returns normally. *)
Theorem load_stops_at_incomplete_record
    (good : list pyval) (bad : pyval) (rest : list pyval)
    (clock : nat → Z) (w w1 : world) (e : exn) :
  load_loop good 0 clock w = (Ok (), w1) →
  load_args bad = Raise e →
  load_rovers (Parsed (PList (good ++ bad :: rest))) clock w
  = (Ok (), print (Error_loading_rovers e) w1)
  ∧ load_rovers (Parsed (PList good)) clock w = (Ok (), w1).
Proof.
  intros Hgood Hbad. unfold load_rovers. cbn [open_and_load iterate].
  rewrite load_loop_app, Hgood. cbn [load_loop]. rewrite Hbad. split; [|done].
  by destruct (load_args_raises _ _ Hbad) as [-> | ->].
Qed.

(** A file of three records whose second has no [gps_data]: rover B is
    loaded, the third record is never read. *)
Lemma load_stops_at_incomplete_record_witness :
  load_rovers
    (Parsed (PList ([to_dict examples.rover_B]
                    ++ PDict {[ "id" := PStr "C" ]}
                    :: [to_dict examples.rover_A])))
    (λ _, 500) {| _rovers := ∅; console := [] |}
  = (Ok (),
     print (Error_loading_rovers KeyError)
       (load_loop [to_dict examples.rover_B] 0 (λ _, 500)
          {| _rovers := ∅; console := [] |}).2).
Proof.
  refine (proj1 (load_stops_at_incomplete_record
                   [to_dict examples.rover_B] (PDict {[ "id" := PStr "C" ]})
                   [to_dict examples.rover_A] (λ _, 500)
                   {| _rovers := ∅; console := [] |} _ KeyError _ _)).
  - vm_compute. reflexivity.
  - vm_compute. reflexivity.
Defined.

(** The sets of records written for a store keep one rover per key. *)
Lemma load_loop_saved rs n clock w :
  Forall (λ r, is_Some (hash_key_of r)
               ∧ is_Some (gps_data r !! "lat")
               ∧ is_Some (gps_data r !! "lon")
               ∧ is_Some (gps_data r !! "ut")) rs →
  ∃ w',
    load_loop (to_dict <$> rs) n clock w = (Ok (), w')
    ∧ ∀ k,
        (_rovers w' !! k = _rovers w !! k
         ∧ ∀ r, r ∈ rs → hash_key (id r) ≠ Ok k)
        ∨ (∃ r r', r ∈ rs ∧ hash_key (id r) = Ok k
                   ∧ _rovers w' !! k = Some r' ∧ on_file r r').
Proof.
  intros H. revert n w.
  induction H as [|r rs (Hk & [lat Hlat] & [lon Hlon] & [ut Hut]) _ IH];
    intros n w.
  - exists w. split; [done|]. intros k. left. split; [done|].
    intros r Hr. by apply elem_of_nil in Hr.
  - cbn [fmap list_fmap load_loop].
    rewrite (load_args_to_dict r lat lon ut) by done.
    unfold hash_key_of in Hk. destruct Hk as [k0 Hk0].
    destruct (hash_key (id r)) as [k0'|] eqn:Hk; [|done].
    injection Hk0 as ->.
    unfold __init__. rewrite init_loop_eq, lookup_insert_eq, Hk.
    rewrite delete_insert_eq, delete_id by done.
    set (r' := {| id := id r;
                  gps_data := <["lat" := lat]> (<["lon" := lon]> (<["ut" := ut]> ∅));
                  last_rssi := last_rssi r; last_track := clock n;
                  last_toa := last_toa r |}).
    assert (Hfile : on_file r r').
    { split; [done|]. split; [|done]. intros key. cbn.
      destruct (decide (key = "lat")) as [->|?];
        [by rewrite lookup_insert_eq, Hlat|].
      destruct (decide (key = "lon")) as [->|?];
        [by rewrite lookup_insert_ne, lookup_insert_eq, Hlon|].
      destruct (decide (key = "ut")) as [->|?];
        [by rewrite !lookup_insert_ne, lookup_insert_eq, Hut by done|].
      rewrite !lookup_insert_ne, lookup_empty by done.
      rewrite decide_False; [done|].
      rewrite !elem_of_cons, elem_of_nil. intros [|[|[|[]]]]; done. }
    destruct (IH (S n) (print (Loaded_rover (id r'))
                          {| _rovers := <[k0 := r']> (_rovers w);
                             console := console w |}))
      as (w' & Hload & Hall).
    exists w'. split; [exact Hload|].
    intros k. destruct (Hall k) as [[Hsame Hnone]|(r0 & r0' & Hin & ? & ? & ?)].
    + destruct (decide (k = k0)) as [->|Hne].
      * right. exists r, r'. cbn in Hsame. rewrite lookup_insert_eq in Hsame.
        split; [apply list_elem_of_here|]. split; [done|]. by split.
      * left. cbn in Hsame. rewrite lookup_insert_ne in Hsame by done.
        split; [done|]. intros r1 Hr1.
        apply elem_of_cons in Hr1 as [->|Hr1]; [|by apply Hnone].
        rewrite Hk. congruence.
    + right. exists r0, r0'. split; [by apply list_elem_of_further|]. auto.
Qed.

(** Save, then load into an empty store.  When every rover is filed
    under its own id and has been heard with a position and a time
    ([lat], [lon], [ut]), the store comes back with the same ids, each
    rover with its id, these three fields and its link figures;
    whatever else [gps_data] held ([sat], [alt], [gh]) is lost, and
    [last_track] is the time of loading. *)
Theorem saved_rovers_load_back (w : world) (clock : nat → Z) (f : rovers_json) :
  filed_under_own_id (_rovers w) →
  (∀ k r, _rovers w !! k = Some r →
     is_Some (gps_data r !! "lat") ∧ is_Some (gps_data r !! "lon")
     ∧ is_Some (gps_data r !! "ut")) →
  ∃ w',
    load_rovers (save_rovers Written w f).2 clock
      {| _rovers := ∅; console := [] |} = (Ok (), w')
    ∧ ∀ k,
        match _rovers w !! k with
        | Some r => ∃ r', _rovers w' !! k = Some r' ∧ on_file r r'
        | None => _rovers w' !! k = None
        end.
Proof.
  intros Hfiled Hfix. unfold save_rovers, load_rovers.
  cbn [snd open_and_load iterate].
  assert (Hin : ∀ r, r ∈ (map_to_list (_rovers w)).*2 →
                     ∃ k, _rovers w !! k = Some r).
  { intros r Hr. apply list_elem_of_fmap in Hr as ([k r0] & -> & Hr).
    apply elem_of_map_to_list in Hr. by exists k. }
  destruct (load_loop_saved ((map_to_list (_rovers w)).*2) 0 clock
              {| _rovers := ∅; console := [] |}) as (w' & -> & Hall).
  { apply Forall_forall. intros r Hr. destruct (Hin r Hr) as [k Hk].
    split; [|by eapply Hfix]. unfold hash_key_of.
    rewrite (Hfiled k r Hk). by eexists. }
  exists w'. split; [done|]. intros k.
  destruct (Hall k) as [[Hsame Hnone]|(r0 & r' & Hr0 & Hk0 & Hr' & Hfile)].
  - cbn in Hsame. rewrite lookup_empty in Hsame.
    destruct (_rovers w !! k) as [r|] eqn:Hr; [|done].
    destruct (Hnone r); [|by apply Hfiled].
    apply list_elem_of_fmap. exists (k, r). split; [done|].
    by apply elem_of_map_to_list.
  - destruct (Hin r0 Hr0) as [k' Hk'].
    pose proof (Hfiled k' r0 Hk') as Hk''. rewrite Hk0 in Hk''.
    injection Hk'' as <-. rewrite Hk'. by exists r'.
Qed.

(** The store holding rover B, which has a position, a time and a
    satellite count. *)
Lemma saved_rovers_load_back_witness :
  ∃ w',
    load_rovers (save_rovers Written examples.store_B Missing).2 (λ _, 900)
      {| _rovers := ∅; console := [] |} = (Ok (), w')
    ∧ ∀ k,
        match _rovers examples.store_B !! k with
        | Some r => ∃ r', _rovers w' !! k = Some r' ∧ on_file r r'
        | None => _rovers w' !! k = None
        end.
Proof.
  apply (saved_rovers_load_back examples.store_B (λ _, 900) Missing).
  - intros k r Hr. unfold examples.store_B in Hr. cbn [_rovers] in Hr.
    apply lookup_singleton_Some in Hr as [<- <-]. reflexivity.
  - intros k r Hr. unfold examples.store_B in Hr. cbn [_rovers] in Hr.
    apply lookup_singleton_Some in Hr as [<- <-].
    split; [|split]; by eexists.
Defined.

End tracking_store_facts.

(** ** The base: filing what is heard, and the selection *)

Section base_device_facts.

Import tracking base_device.
Local Open Scope Z_scope.

(** [track] tells a new rover from a known one and touches no other:
    nothing happens without an id; a known id has its rover updated
    and gives [False]; an unknown one is filed and gives [True]. *)
Theorem track_reports_new_rovers
    (tracked_data : gmap string pyval) (rssi toa : pyval) (now : Z) (w : world) :
  match tracked_data !! "id" with
  | None | Some PNone => track tracked_data rssi toa now w = (Ok None, w)
  | Some rover_id =>
      match hash_key rover_id with
      | Raise e => track tracked_data rssi toa now w = (Raise e, w)
      | Ok k =>
          (track tracked_data rssi toa now w).1
          = Ok (Some (bool_decide (_rovers w !! k = None)))
          ∧ (_rovers (track tracked_data rssi toa now w).2 !! k
             = Some (match _rovers w !! k with
                     | Some rover => update rover tracked_data rssi toa now
                     | None =>
                         {| id := rover_id;
                            gps_data := delete "id" tracked_data;
                            last_rssi := rssi; last_track := now;
                            last_toa := toa |}
                     end))
          ∧ (∀ k', k' ≠ k →
               _rovers (track tracked_data rssi toa now w).2 !! k'
               = _rovers w !! k')
      end
  end.
Proof.
  unfold track. destruct (tracked_data !! "id") as [rover_id|] eqn:Hid; [|done].
  destruct rover_id; try done;
    (cbn [hash_key] in *; unfold get_rover; cbn [hash_key mbind result_bind];
     match goal with
     | |- context [_rovers w !! ?k] =>
         destruct (_rovers w !! k) as [rover|] eqn:Hr
     end;
     [ cbn; rewrite lookup_insert_eq; split; [done|]; split; [done|];
       intros k' Hne; by rewrite lookup_insert_ne
     | unfold __init__; rewrite init_loop_eq, Hid; cbn;
       rewrite lookup_insert_eq; split; [done|]; split; [done|];
       intros k' Hne; by rewrite lookup_insert_ne ]).
Qed.

Lemma track_next_valid (w : world) (s : selection) :
  (list_rovers w = [] → _track_next w s = s)
  ∧ (list_rovers w ≠ [] →
     ∃ rover_id rover,
       (current_rover_index (_track_next w s) < length (list_rovers w))%nat
       ∧ list_rovers w !! current_rover_index (_track_next w s) = Some rover_id
       ∧ _rovers w !! rover_id = Some rover
       ∧ tracked_rover (_track_next w s) = Some rover).
Proof.
  unfold _track_next. split.
  - by intros ->.
  - intros Hne.
    assert (Hlen : (0 < length (list_rovers w))%nat)
      by (destruct (list_rovers w); [done | cbn; lia]).
    rewrite (proj2 (Nat.ltb_lt _ _) Hlen). cbn.
    set (index := ((current_rover_index s + 1) mod length (list_rovers w))%nat).
    assert (Hi : (index < length (list_rovers w))%nat)
      by (apply Nat.mod_upper_bound; lia).
    destruct (lookup_lt_is_Some_2 _ _ Hi) as [rover_id Hid].
    assert (Hr : is_Some (_rovers w !! rover_id)).
    { apply list_elem_of_lookup_2 in Hid. unfold list_rovers in Hid.
      apply list_elem_of_fmap in Hid as ([k r] & -> & Hin).
      apply elem_of_map_to_list in Hin. by exists r. }
    destruct Hr as [rover Hr]. exists rover_id, rover.
    rewrite Hid. cbn. by rewrite Hr.
Qed.

(** After [_track_next] on a store that is not empty the selection is
    valid wherever the index stood before: the index is within
    [list_rovers] and the selected rover is the one filed under the
    id at that index.  On an empty store nothing moves. *)
Theorem track_next_selects_a_tracked_rover (w : world) (s : selection) :
  (list_rovers w = [] → _track_next w s = s)
  ∧ (list_rovers w ≠ [] →
     ∃ rover_id rover,
       (current_rover_index (_track_next w s) < length (list_rovers w))%nat
       ∧ list_rovers w !! current_rover_index (_track_next w s) = Some rover_id
       ∧ _rovers w !! rover_id = Some rover
       ∧ tracked_rover (_track_next w s) = Some rover).
Proof. apply track_next_valid. Qed.

(** Selecting the next rover of the two-rover store. *)
Lemma track_next_selects_a_tracked_rover_witness :
  ∃ rover_id rover,
    _rovers examples.store_AB !! rover_id = Some rover
    ∧ tracked_rover
        (_track_next examples.store_AB
           {| tracked_rover := None; current_rover_index := 5 |})
      = Some rover.
Proof.
  destruct (proj2 (track_next_selects_a_tracked_rover examples.store_AB
                     {| tracked_rover := None; current_rover_index := 5 |}))
    as (rover_id & rover & _ & _ & Hr & Ht).
  - vm_compute. discriminate.
  - by exists rover_id, rover.
Defined.

Lemma track_next_index w s :
  list_rovers w ≠ [] →
  current_rover_index (_track_next w s)
  = ((current_rover_index s + 1) mod length (list_rovers w))%nat.
Proof.
  intros Hne. unfold _track_next.
  destruct (list_rovers w) as [|k l]; [done|]. done.
Qed.

Lemma track_next_iter_index w s n :
  list_rovers w ≠ [] →
  current_rover_index (Nat.iter (S n) (_track_next w) s)
  = ((current_rover_index s + S n) mod length (list_rovers w))%nat.
Proof.
  intros Hne.
  assert (Hlen : length (list_rovers w) ≠ O) by (by destruct (list_rovers w)).
  induction n as [|n IH].
  - change (Nat.iter 1 (_track_next w) s) with (_track_next w s).
    by rewrite track_next_index.
  - change (Nat.iter (S (S n)) (_track_next w) s)
      with (_track_next w (Nat.iter (S n) (_track_next w) s)).
    rewrite track_next_index, IH by done.
    rewrite Nat.Div0.add_mod_idemp_l. f_equal. lia.
Qed.

Lemma track_next_iter_tracked w s n :
  list_rovers w ≠ [] →
  tracked_rover (Nat.iter (S n) (_track_next w) s)
  = list_rovers w
      !! ((current_rover_index s + S n) mod length (list_rovers w))%nat
    ≫= λ rover_id, _rovers w !! rover_id.
Proof.
  intros Hne. rewrite <- track_next_iter_index by done.
  change (Nat.iter (S n) (_track_next w) s)
    with (_track_next w (Nat.iter n (_track_next w) s)).
  rewrite track_next_index by done. unfold _track_next.
  destruct (list_rovers w) as [|k l]; [done|]. done.
Qed.

(** The indices reached by [n] steps round a ring of [n]. *)
Lemma ring_walk_Permutation (i n : nat) :
  (λ k, (i + k) mod n)%nat <$> seq 1 n ≡ₚ seq 0 n.
Proof.
  destruct (decide (n = O)) as [->|Hn]; [done|].
  apply submseteq_length_Permutation.
  - apply NoDup_submseteq.
    + apply NoDup_fmap_2_strong; [|apply NoDup_seq].
      intros a b Ha Hb Heq.
      apply elem_of_seq in Ha, Hb.
      pose proof (Nat.div_mod_eq (i + a) n) as Da.
      pose proof (Nat.div_mod_eq (i + b) n) as Db.
      cbv beta in Heq. rewrite Heq in Da.
      generalize dependent ((i + a) / n)%nat.
      generalize dependent ((i + b) / n)%nat.
      generalize dependent ((i + b) mod n)%nat.
      intros r _ qb Db qa Da.
      assert (qa = qb) by nia. subst. lia.
    + intros x Hx. apply list_elem_of_fmap in Hx as (k & -> & _).
      apply elem_of_seq. split; [lia|]. cbn.
      by apply Nat.mod_upper_bound.
  - by rewrite length_fmap, !length_seq.
Qed.

(** Bumping the button as many times as there are tracked rovers
    selects every one of them exactly once and brings the index back
    to where it stood. *)
Theorem bumps_cycle_through_all_rovers (w : world) (s : selection) :
  list_rovers w ≠ [] →
  (λ k, tracked_rover (Nat.iter k (_button_bump w) s))
    <$> seq 1 (length (list_rovers w))
  ≡ₚ (λ rover_id, _rovers w !! rover_id) <$> list_rovers w
  ∧ current_rover_index (Nat.iter (length (list_rovers w)) (_button_bump w) s)
    = (current_rover_index s mod length (list_rovers w))%nat.
Proof.
  intros Hne. unfold _button_bump.
  assert (Hlen : length (list_rovers w) ≠ O) by (by destruct (list_rovers w)).
  split.
  - transitivity
      ((λ i, list_rovers w !! i ≫= λ rover_id, _rovers w !! rover_id)
         <$> ((λ k, (current_rover_index s + k) mod length (list_rovers w))%nat
                <$> seq 1 (length (list_rovers w)))).
    + rewrite <- list_fmap_compose. apply reflexive_eq.
      apply list_fmap_ext. intros j k Hk. cbn.
      apply lookup_seq in Hk as [-> _]. cbn [Nat.add].
      by rewrite track_next_iter_tracked.
    + rewrite ring_walk_Permutation.
      apply reflexive_eq.
      apply list_eq. intros j. rewrite !list_lookup_fmap.
      destruct (decide (j < length (list_rovers w))%nat) as [Hj|Hj].
      * rewrite lookup_seq_lt by done. cbn.
        destruct (lookup_lt_is_Some_2 _ _ Hj) as [k ->]. done.
      * rewrite lookup_seq_ge by lia.
        by rewrite lookup_ge_None_2 by lia.
  - destruct (length (list_rovers w)) as [|n] eqn:Hn; [done|].
    rewrite track_next_iter_index, Hn by done.
    rewrite <- Nat.Div0.add_mod_idemp_r, Nat.Div0.mod_same, Nat.add_0_r. done.
Qed.

(** Two bumps on the two-rover store. *)
Lemma bumps_cycle_through_all_rovers_witness :
  [ tracked_rover (Nat.iter 1 (_button_bump examples.store_AB)
                     {| tracked_rover := None; current_rover_index := 0 |});
    tracked_rover (Nat.iter 2 (_button_bump examples.store_AB)
                     {| tracked_rover := None; current_rover_index := 0 |}) ]
  ≡ₚ (λ rover_id, _rovers examples.store_AB !! rover_id)
       <$> list_rovers examples.store_AB.
Proof.
  refine (proj1 (bumps_cycle_through_all_rovers examples.store_AB
                   {| tracked_rover := None; current_rover_index := 0 |} _)).
  vm_compute. discriminate.
Defined.



Lemma index_of_lookup (x : pykey) (l : list pykey) :
  x ∈ l → ∃ i, index_of x l = Some i ∧ l !! i = Some x.
Proof.
  induction l as [|y l IH]; intros Hin; [by apply elem_of_nil in Hin|].
  cbn. case_decide as Hxy.
  - subst. by exists O.
  - apply elem_of_cons in Hin as [?|Hin]; [done|].
    destruct (IH Hin) as (i & -> & Hi). by exists (S i).
Qed.

(** The first rover heard is selected: with nothing selected, the
    receive handler selects the rover filed under the id just heard
    and sets the index to the place of that id in [list_rovers]; a
    selection already made is left alone. *)
Theorem first_rover_heard_is_selected
    (rover_id : pykey) (w : world) (s : selection) :
  (is_Some (tracked_rover s) → select_if_none rover_id w s = s)
  ∧ (tracked_rover s = None → is_Some (_rovers w !! rover_id) →
     tracked_rover (select_if_none rover_id w s) = _rovers w !! rover_id
     ∧ list_rovers w !! current_rover_index (select_if_none rover_id w s)
       = Some rover_id).
Proof.
  unfold select_if_none. split.
  - by intros [r ->].
  - intros -> [r Hr]. split; [done|]. cbn.
    destruct (index_of_lookup rover_id (list_rovers w)) as (i & -> & Hi); [|done].
    unfold list_rovers. apply list_elem_of_fmap. exists (rover_id, r).
    split; [done|]. by apply elem_of_map_to_list.
Qed.

(** Rover B heard first by a base that tracks A and B. *)
Lemma first_rover_heard_is_selected_witness :
  tracked_rover
    (select_if_none (KStr "B") examples.store_AB
       {| tracked_rover := None; current_rover_index := 0 |})
  = Some examples.rover_B
  ∧ list_rovers examples.store_AB
      !! current_rover_index
           (select_if_none (KStr "B") examples.store_AB
              {| tracked_rover := None; current_rover_index := 0 |})
    = Some (KStr "B").
Proof.
  exact (proj2 (first_rover_heard_is_selected (KStr "B") examples.store_AB
                  {| tracked_rover := None; current_rover_index := 0 |})
           eq_refl (ex_intro _ examples.rover_B eq_refl)).
Defined.

End base_device_facts.

(** ** More on the event bus *)

Section event_registry_facts.

Import event.
Context {App Args Coro : Type}.
Implicit Types (h : handler App Args Coro) (self : EventBus App Args Coro)
  (w : world App Coro).

Lemma invoked_tasks event_name args self w h task :
  removes_no_task h →
  task ∈ active_tasks w → task ∈ active_tasks (invoked event_name args self w h).
Proof.
  intros Hh Hin. unfold invoked. specialize (Hh args w task Hin).
  destruct (h args w) as [[[coroutine|]|e] w1]; cbn [snd] in Hh.
  - cbn. apply elem_of_app. by left.
  - done.
  - by destruct (_log_fields (Error_in_handler_for event_name e) self w1)
      as (-> & _).
Qed.

Lemma delivered_to_all_tasks event_name (handlers : list (handler App Args Coro))
    args self w task :
  Forall removes_no_task handlers →
  task ∈ active_tasks w →
  task ∈ active_tasks (delivered_to_all event_name handlers args self w).
Proof.
  intros H. revert w. induction H as [|h rest Hh _ IH]; intros w Hin; [done|].
  cbn [delivered_to_all fold_left]. apply IH. by apply invoked_tasks.
Qed.

Lemma delivered_to_all_coroutines event_name
    (handlers : list (handler App Args Coro)) args self w coroutine :
  Forall removes_no_task handlers →
  coroutine ∈ coroutines event_name handlers args self w →
  coroutine ∈ active_tasks (delivered_to_all event_name handlers args self w).
Proof.
  intros H. revert w. induction H as [|h rest Hh Hrest IH]; intros w Hin.
  - by apply elem_of_nil in Hin.
  - cbn [delivered_to_all fold_left coroutines] in *.
    assert (Hnew : ∀ c, (h args w).1 = Ok (Some c) →
                        c ∈ active_tasks (invoked event_name args self w h)).
    { intros c Hc. unfold invoked. destruct (h args w) as [r w1].
      cbn in Hc. subst r. cbn. apply elem_of_app. right. by left. }
    destruct (h args w).1 as [[c|]|e] eqn:Hr.
    + apply elem_of_cons in Hin as [->|Hin]; [|by apply IH].
      apply (delivered_to_all_tasks event_name rest); [done|by apply Hnew].
    + by apply IH.
    + by apply IH.
Qed.

Lemma delivered_to_all_tasks_alone event_name
    (handlers : list (handler App Args Coro)) args self w :
  Forall leaves_tasks_alone handlers →
  active_tasks (delivered_to_all event_name handlers args self w)
  = active_tasks w ++ coroutines event_name handlers args self w.
Proof.
  intros H. revert w. induction H as [|h rest Hh _ IH]; intros w.
  - cbn. by rewrite app_nil_r.
  - cbn [delivered_to_all fold_left coroutines].
    fold (delivered_to_all event_name rest args self
            (invoked event_name args self w h)).
    rewrite IH. specialize (Hh args w). unfold invoked at 1.
    destruct (h args w) as [[[c|]|e] w1]; cbn [fst snd] in *.
    + cbn. by rewrite Hh, <- app_assoc.
    + by rewrite Hh.
    + destruct (_log_fields (Error_in_handler_for event_name e) self w1)
        as (-> & _). by rewrite Hh.
Qed.

(** Fire and forget.  When the handlers of an event raise nothing but
    [Exception]s and take no task out of [active_tasks] themselves,
    every task that was there and every coroutine object that a
    handler returned is in [active_tasks] when [emit] returns; with
    handlers that leave the set alone these are all there is.
    [clean_tasks] afterwards keeps exactly the tasks that are not
    done. *)
Theorem emit_tracks_returned_coroutines (event_name : string) (args : Args)
    (self : EventBus App Args Coro) (w : world App Coro)
    (handlers : list (handler App Args Coro)) (done : Coro → bool) :
  subscribers self !! event_name = Some handlers →
  Forall raises_only_Exception handlers →
  Forall removes_no_task handlers →
  (∀ task, task ∈ active_tasks w →
           task ∈ active_tasks (emit event_name args self w).2)
  ∧ (∀ coroutine,
       coroutine ∈ coroutines event_name handlers args self
                     (_log (Bus_emit_for_event_received event_name) self w) →
       coroutine ∈ active_tasks (emit event_name args self w).2)
  ∧ (Forall leaves_tasks_alone handlers →
     active_tasks (emit event_name args self w).2
     = active_tasks w
       ++ coroutines event_name handlers args self
            (_log (Bus_emit_for_event_received event_name) self w))
  ∧ (∀ task,
       task ∈ active_tasks (clean_tasks done (emit event_name args self w).2)
       ↔ task ∈ active_tasks (emit event_name args self w).2
         ∧ done task = false).
Proof.
  intros Hs Hh Hkeep. unfold emit. rewrite Hs, emit_loop_isolates by done.
  cbn [snd].
  destruct (_log_fields (Bus_emit_for_event_received event_name) self w)
    as (Ht & _).
  split; [|split; [|split]].
  - intros task Hin. apply delivered_to_all_tasks; [done|]. by rewrite Ht.
  - intros coroutine. by apply delivered_to_all_coroutines.
  - intros Halone. by rewrite delivered_to_all_tasks_alone, Ht.
  - intros task. unfold clean_tasks. cbn [active_tasks].
    by rewrite list_elem_of_filter, (comm and).
Qed.

(** What [emit] does not catch: when a handler raises something that
    is not an [Exception] ([KeyboardInterrupt], [SystemExit], a
    cancellation), [emit] raises it to the publisher; the world is as
    that handler left it, and the handlers registered after that one
    are not called. *)
Theorem emit_stops_at_non_Exception (event_name : string) (args : Args)
    (self : EventBus App Args Coro) (w : world App Coro)
    (pre post : list (handler App Args Coro)) (h : handler App Args Coro)
    (e : exn) :
  subscribers self !! event_name = Some (pre ++ h :: post) →
  Forall raises_only_Exception pre →
  (h args (delivered_to_all event_name pre args self
             (_log (Bus_emit_for_event_received event_name) self w))).1
  = Raise e →
  is_Exception e = false →
  emit event_name args self w
  = (Raise e,
     (h args (delivered_to_all event_name pre args self
                (_log (Bus_emit_for_event_received event_name) self w))).2).
Proof.
  intros Hs Hpre Hh He. unfold emit. rewrite Hs.
  by apply emit_loop_interrupted.
Qed.

Lemma invoked_debug_v event_name args self self' w h :
  debug_v self' = debug_v self →
  invoked event_name args self' w h = invoked event_name args self w h.
Proof. intros Hd. unfold invoked, _log. by rewrite Hd. Qed.

Lemma delivered_to_all_debug_v event_name
    (handlers : list (handler App Args Coro)) args self self' w :
  debug_v self' = debug_v self →
  delivered_to_all event_name handlers args self' w
  = delivered_to_all event_name handlers args self w.
Proof.
  intros Hd. revert w. induction handlers as [|h rest IH]; intros w; [done|].
  cbn [delivered_to_all fold_left]. rewrite (invoked_debug_v _ _ self) by done.
  apply IH.
Qed.

Lemma invoked_app event_name args self w h :
  app (invoked event_name args self w h) = app (h args w).2.
Proof.
  unfold invoked. destruct (h args w) as [[[c|]|e] w1]; [done..|].
  by destruct (_log_fields (Error_in_handler_for event_name e) self w1)
    as (_ & _ & ->).
Qed.

(** [subscribe] puts the handler last: on the next [emit] it is
    invoked after the handlers that were there, on the world they
    left, and events of other names are delivered as before. *)
Theorem subscribed_handler_is_called_last (event_name : string)
    (h : handler App Args Coro) (args : Args)
    (self : EventBus App Args Coro) (w : world App Coro) :
  Forall raises_only_Exception
    (default [] (subscribers self !! event_name) ++ [h]) →
  emit event_name args (subscribe event_name h self) w
  = (Ok (),
     invoked event_name args self
       (delivered_to_all event_name
          (default [] (subscribers self !! event_name)) args self
          (_log (Bus_emit_for_event_received event_name) self w)) h)
  ∧ app (emit event_name args (subscribe event_name h self) w).2
    = app (h args (delivered_to_all event_name
                     (default [] (subscribers self !! event_name)) args self
                     (_log (Bus_emit_for_event_received event_name) self w))).2
  ∧ (∀ other, other ≠ event_name →
       subscribers (subscribe event_name h self) !! other
       = subscribers self !! other).
Proof.
  intros Hh.
  assert (He : emit event_name args (subscribe event_name h self) w
               = (Ok (),
                  invoked event_name args self
                    (delivered_to_all event_name
                       (default [] (subscribers self !! event_name)) args self
                       (_log (Bus_emit_for_event_received event_name) self w))
                    h)).
  { unfold emit. cbn [subscribe subscribers]. rewrite lookup_insert_eq.
    rewrite emit_loop_isolates by done.
    rewrite (delivered_to_all_debug_v _ _ _ self) by done.
    by rewrite delivered_to_all_app. }
  split; [done|]. split.
  - rewrite He. cbn [snd]. apply invoked_app.
  - intros other Hne. cbn. by rewrite lookup_insert_ne.
Qed.

Lemma remove_first_None is_x (l : list (handler App Args Coro)) :
  Forall (λ h, is_x h = false) l → remove_first is_x l = None.
Proof.
  induction 1 as [|h l Hh _ IH]; [done|]. cbn. by rewrite Hh, IH.
Qed.

Lemma remove_first_Some is_x (pre post : list (handler App Args Coro)) h :
  Forall (λ h, is_x h = false) pre → is_x h = true →
  remove_first is_x (pre ++ h :: post) = Some (pre ++ post).
Proof.
  intros Hpre Hh. induction Hpre as [|h0 pre Hh0 _ IH]; cbn.
  - by rewrite Hh.
  - by rewrite Hh0, IH.
Qed.

(** [unsubscribe] has three answers.  For an event nobody subscribed
    to it gives [None]; when the callback is not among the handlers
    of the event it gives [False]; both leave the bus as it is.
    Otherwise it gives [True] and takes out the first registration of
    the callback, and the entry of the event with it when that was
    the last handler. *)
Theorem unsubscribe_answers (event_name : string)
    (is_handler : handler App Args Coro → bool)
    (self : EventBus App Args Coro) :
  (subscribers self !! event_name = None →
   (unsubscribe event_name is_handler self).1 = (None, self))
  ∧ (∀ handlers,
       subscribers self !! event_name = Some handlers →
       Forall (λ h, is_handler h = false) handlers →
       (unsubscribe event_name is_handler self).1 = (Some false, self))
  ∧ (∀ pre h post,
       subscribers self !! event_name = Some (pre ++ h :: post) →
       Forall (λ h, is_handler h = false) pre → is_handler h = true →
       (unsubscribe event_name is_handler self).1.1 = Some true
       ∧ subscribers (unsubscribe event_name is_handler self).1.2 !! event_name
         = (if decide (pre ++ post = []) then None else Some (pre ++ post))
       ∧ (∀ other, other ≠ event_name →
            subscribers (unsubscribe event_name is_handler self).1.2 !! other
            = subscribers self !! other)).
Proof.
  unfold unsubscribe. split; [|split].
  - by intros ->.
  - intros handlers -> Hh. by rewrite remove_first_None.
  - intros pre h post -> Hpre Hh. rewrite remove_first_Some by done.
    cbn. split; [done|]. destruct (pre ++ post) as [|h1 rest] eqn:Hr.
    + rewrite decide_True by done. split; [by rewrite lookup_delete_eq|].
      intros other Hne. by rewrite lookup_delete_ne.
    + rewrite decide_False by done. split; [by rewrite lookup_insert_eq|].
      intros other Hne. by rewrite lookup_insert_ne.
Qed.

(** Subscribing a callback that is not yet registered for the event
    and unsubscribing it again gives the registry back as it was, and
    neither call leaves an event with an empty list of handlers. *)
Theorem subscribe_then_unsubscribe (event_name : string)
    (h : handler App Args Coro) (is_handler : handler App Args Coro → bool)
    (self : EventBus App Args Coro) :
  no_empty_entry self →
  is_handler h = true →
  Forall (λ h, is_handler h = false)
    (default [] (subscribers self !! event_name)) →
  no_empty_entry (subscribe event_name h self)
  ∧ (unsubscribe event_name is_handler (subscribe event_name h self)).1.1
    = Some true
  ∧ subscribers
      (unsubscribe event_name is_handler (subscribe event_name h self)).1.2
    = subscribers self
  ∧ no_empty_entry
      (unsubscribe event_name is_handler (subscribe event_name h self)).1.2.
Proof.
  intros Hne Hh Hold.
  assert (Hsub : no_empty_entry (subscribe event_name h self)).
  { intros name. cbn. destruct (decide (name = event_name)) as [->|?].
    - rewrite lookup_insert_eq. intros [= H]. by destruct (default _ _).
    - rewrite lookup_insert_ne by done. apply Hne. }
  assert (Hu : (unsubscribe event_name is_handler
                  (subscribe event_name h self)).1.1 = Some true
               ∧ subscribers
                   (unsubscribe event_name is_handler
                      (subscribe event_name h self)).1.2
                 = subscribers self).
  { unfold unsubscribe. cbn [subscribe subscribers]. rewrite lookup_insert_eq.
    rewrite (remove_first_Some is_handler _ [] h) by done.
    rewrite app_nil_r. cbn [fst snd subscribers]. split; [done|].
    destruct (subscribers self !! event_name) as [old|] eqn:Ho; cbn [default].
    - destruct old as [|h0 old]; [by destruct (Hne event_name)|].
      rewrite insert_insert_eq. by apply insert_id.
    - rewrite delete_insert_eq. by apply delete_id. }
  destruct Hu as [Hr Hs]. split; [done|]. split; [done|]. split; [done|].
  intros name. rewrite Hs. apply Hne.
Qed.

End event_registry_facts.

Ltac only_Exception :=
  repeat constructor; intros args w e H; cbn in H; by inversion H.

(** [device.reset_config] on the device's bus.  The handler returns
    no coroutine object, but it publishes [device.reboot] itself: the
    task of the restart is in the set when [emit] returns, next to
    the task that was there. *)
Example reset_config_adds_the_restart_task :
  event.emit "device.reset_config" () examples.device_bus
    {| event.active_tasks := [()]; event.console := []; event.app := [] |}
  = (Ok (),
     {| event.active_tasks := [(); ()];
        event.console :=
          [ event.Bus_emit_for_event_received "device.reset_config";
            event.Bus_emit_for_event_received "device.reboot" ];
        event.app := [5%nat] |}).
Proof. reflexivity. Qed.

Lemma emit_tracks_returned_coroutines_witness :
  () ∈ event.active_tasks
         (event.emit "device.reset_config" () examples.device_bus
            {| event.active_tasks := [()]; event.console := [];
               event.app := [] |}).2.
Proof.
  refine (proj1 (emit_tracks_returned_coroutines "device.reset_config" ()
                   examples.device_bus
                   {| event.active_tasks := [()]; event.console := [];
                      event.app := [] |}
                   [examples._reset_config] (λ _, false) eq_refl _ _) () _).
  - only_Exception.
  - repeat constructor. intros args w task Hin. cbn.
    apply elem_of_app. by left.
  - by left.
Defined.

(** A handler interrupted between two recording ones. *)
Lemma emit_stops_at_non_Exception_witness :
  event.emit "z" () examples.busy_bus examples.start
  = (Raise KeyboardInterrupt,
     {| event.active_tasks := []; event.console := [];
        event.app := [2%nat; 4%nat] |}).
Proof.
  refine (emit_stops_at_non_Exception "z" () examples.busy_bus examples.start
            [examples.recording] [examples.recording] examples.interrupted
            KeyboardInterrupt _ _ _ _).
  - reflexivity.
  - only_Exception.
  - reflexivity.
  - reflexivity.
Defined.

(** A third handler subscribed to "x" runs after the two that were there. *)
Lemma subscribed_handler_is_called_last_witness :
  event.app
    (event.emit "x" () (event.subscribe "x" examples.suspending examples.bus)
       examples.start).2
  = [2%nat; 3%nat].
Proof.
  refine (proj1 (proj2 (subscribed_handler_is_called_last "x"
                          examples.suspending () examples.bus examples.start
                          _))).
  only_Exception.
Defined.

(** Unsubscribing the failing handler of "x", and one of an event
    nobody subscribed to. *)
Lemma unsubscribe_answers_witness :
  (event.unsubscribe "x" examples.is_failing examples.bus).1.1 = Some true
  ∧ event.subscribers
      (event.unsubscribe "x" examples.is_failing examples.bus).1.2 !! "x"
    = Some [examples.recording]
  ∧ (event.unsubscribe "nobody" examples.is_failing examples.bus).1
    = (None, examples.bus).
Proof.
  destruct (unsubscribe_answers "x" examples.is_failing examples.bus)
    as (_ & _ & Hyes).
  destruct (Hyes [] examples.failing [examples.recording] eq_refl
              (Forall_nil_2 _) eq_refl) as (Hr & Hs & _).
  split; [exact Hr|]. split; [exact Hs|].
  exact (proj1 (unsubscribe_answers "nobody" examples.is_failing examples.bus)
           eq_refl).
Defined.

(** The failing handler subscribed to "x" on the quiet bus, and taken
    off again. *)
Lemma subscribe_then_unsubscribe_witness :
  event.subscribers
    (event.unsubscribe "x" examples.is_failing
       (event.subscribe "x" examples.failing examples.quiet_bus)).1.2
  = event.subscribers examples.quiet_bus.
Proof.
  refine (proj1 (proj2 (proj2 (subscribe_then_unsubscribe "x" examples.failing
                                 examples.is_failing examples.quiet_bus
                                 _ _ _)))).
  - intros name H. unfold examples.quiet_bus in H. cbn in H.
    apply lookup_singleton_Some in H as [_ [=]].
  - reflexivity.
  - repeat constructor.
Defined.

(** ** More on the send path *)

Section lora_send_facts.

Import utime lora.
Local Open Scope Z_scope.

Lemma leave_try_on_air r w : on_air (leave_try r w).2 = on_air w.
Proof. unfold leave_try. destruct r as [toa|e]; [|destruct (is_Exception e)]; done. Qed.

Lemma send_message_resume_on_air o f w :
  on_air (send_message_resume o f w).2 = on_air w.
Proof.
  unfold send_message_resume, try_after_await.
  destruct (resumed o) as [[]|e]; by rewrite leave_try_on_air.
Qed.

Ltac left_try :=
  match goal with
  | |- context [leave_try ?r ?w] =>
      let Hoa := fresh in
      pose proof (leave_try_on_air r w) as Hoa;
      destruct (leave_try r w); cbn in *; congruence
  end.

Lemma frame_on_air_cause others o message w :
  on_air (send_message_with others o message w).2 ≠ on_air w →
  _rate_limit (self w) * 1000
    ≤ ticks_diff (ticks_ms_entry o) (_last_send (self w))
  ∧ _lora (self w) = true
  ∧ _send_lock (self w) = false
  ∧ ∃ text frame,
      ujson_dumps o (stamp message (device_id (self w))) = Ok text
      ∧ thistothat.message_pack text (device_secret (self w)) = Ok frame
      ∧ lora_send o frame = Ok ()
      ∧ on_air (send_message_with others o message w).2 = on_air w ++ [frame].
Proof.
  unfold send_message_with, send_message_enter.
  destruct (Z.ltb_spec (ticks_diff (ticks_ms_entry o) (_last_send (self w)))
              (_rate_limit (self w) * 1000)) as [Hlt|Hge]; [done|].
  destruct (_lora (self w)) eqn:Hl; [|done].
  destruct (_send_lock (self w)) eqn:Hk; [done|]. cbn [andb negb].
  unfold try_until_await. cbn [self set_send_lock device_id device_secret].
  destruct (ujson_dumps o _) as [text|e] eqn:Hd; [|intros H; left_try].
  destruct (thistothat.message_pack text _) as [frame|e] eqn:Hp;
    [|intros H; left_try].
  destruct (lora_send o frame) as [[]|e] eqn:Hs; [|intros H; left_try].
  intros _. split; [done|]. split; [done|]. split; [done|].
  exists text, frame. split; [done|]. split; [done|]. split; [done|].
  destruct (emit_lora_tx o) as [[]|e].
  - rewrite others_enter_locked by done. cbn [snd].
    by rewrite send_message_resume_on_air.
  - left_try.
Qed.

(** Nothing goes on air by accident.  When a call has changed what is
    on air, it was entered at least [_rate_limit] seconds (by the
    clock) after [_last_send], with the driver there and the lock
    free, and what it added is one frame: the message stamped with
    the device id, serialised and packed under the device secret. *)
Theorem frame_on_air_only_when_allowed
    (others : list (outcomes * tracking.pyval)) (o : outcomes)
    (message : tracking.pyval) (w : world) :
  on_air (send_message_with others o message w).2 ≠ on_air w →
  _rate_limit (self w) * 1000
    ≤ ticks_diff (ticks_ms_entry o) (_last_send (self w))
  ∧ _lora (self w) = true
  ∧ _send_lock (self w) = false
  ∧ ∃ text frame,
      ujson_dumps o (stamp message (device_id (self w))) = Ok text
      ∧ thistothat.message_pack text (device_secret (self w)) = Ok frame
      ∧ lora_send o frame = Ok ()
      ∧ on_air (send_message_with others o message w).2 = on_air w ++ [frame].
Proof. apply frame_on_air_cause. Qed.

(** A send that goes through. *)
Lemma frame_on_air_only_when_allowed_witness :
  5 * 1000 ≤ ticks_diff 6000 0
  ∧ on_air (send_message_with [] (examples.all_well 6000 6010) examples.sat_7
              examples.radio).2
    = [examples.sat_7_frame].
Proof.
  destruct (frame_on_air_only_when_allowed [] (examples.all_well 6000 6010)
              examples.sat_7 examples.radio) as (Ht & _ & _ & H).
  - vm_compute. discriminate.
  - split; [exact Ht|].
    destruct H as (text & frame & Hd & Hp & _ & ->).
    injection Hd as <-. cbv in Hp. injection Hp as <-. reflexivity.
Defined.

(** A send that fails before the transceiver has taken the frame,
    in [ujson.dumps], in [message_pack] or in the transceiver's own
    [send], leaves the module exactly as it was: nothing on air, no
    event, [_last_send] untouched, the lock free again.  The caller
    gets [None], or the exception itself when it is not an
    [Exception]. *)
Theorem failed_send_changes_nothing
    (others : list (outcomes * tracking.pyval)) (o : outcomes)
    (message : tracking.pyval) (w : world) (e : exn) :
  _send_lock (self w) = false →
  ujson_dumps o (stamp message (device_id (self w))) = Raise e
  ∨ (∃ text,
       ujson_dumps o (stamp message (device_id (self w))) = Ok text
       ∧ (thistothat.message_pack text (device_secret (self w)) = Raise e
          ∨ ∃ frame,
              thistothat.message_pack text (device_secret (self w)) = Ok frame
              ∧ lora_send o frame = Raise e)) →
  send_message_with others o message w = (Ok None, w)
  ∨ (is_Exception e = false
     ∧ send_message_with others o message w = (Raise e, w)).
Proof.
  intros Hk Hfail. unfold send_message_with, send_message_enter.
  destruct (_ <? _); [by left|].
  destruct (_lora (self w)) eqn:Hl; [|by left]. rewrite Hk. cbn [andb negb].
  assert (Hw : set_send_lock false (set_send_lock true w) = w).
  { destruct w as [[] ? ?]. cbn in Hk. by subst. }
  assert (Ht : try_until_await o message (set_send_lock true w)
               = (Raise e, set_send_lock true w)).
  { unfold try_until_await. cbn [self set_send_lock device_id device_secret].
    destruct Hfail as [->|(text & -> & [->|(frame & -> & ->)])]; done. }
  rewrite Ht. unfold leave_try. rewrite Hw.
  destruct (is_Exception e); [by left | by right].
Qed.

(** The transceiver refuses the frame. *)
Lemma failed_send_changes_nothing_witness :
  send_message_with [] (examples.transceiver_fails 6000 OSError) examples.sat_7
    examples.radio
  = (Ok None, examples.radio).
Proof.
  destruct (failed_send_changes_nothing []
              (examples.transceiver_fails 6000 OSError) examples.sat_7
              examples.radio OSError eq_refl) as [H|[H _]].
  - right. exists examples.sat_7_text. split; [reflexivity|]. right.
    exists examples.sat_7_frame. split; reflexivity.
  - exact H.
  - discriminate H.
Defined.

(** From a packed ASCII text back to the text without its spaces. *)
Lemma message_unpack_packed_ascii text secret frame :
  secret ≠ [] →
  Forall thistothat.is_ascii secret → Forall thistothat.is_ascii text →
  thistothat.message_pack text secret = Ok frame →
  thistothat.message_unpack frame secret
  = Ok (Some (thistothat.replace_space text)).
Proof.
  intros Hs Hsa Hta.
  unfold thistothat.message_pack, thistothat.xor_encrypt_decrypt,
    thistothat.encode_utf8.
  rewrite xor_loop_eq by done. intros [= <-]. cbn [app].
  unfold thistothat.message_unpack, thistothat.decode_utf8.
  rewrite utf8_check_ascii
    by (apply xor_with_ascii; [done|by apply replace_space_ascii]).
  cbn [mbind result_bind].
  unfold thistothat.xor_encrypt_decrypt, thistothat.encode_utf8.
  rewrite xor_loop_eq by done. cbn [mbind result_bind app try_except].
  by rewrite xor_with_involutive.
Qed.

(** Rover to base.  When a send returns a time on air and the secret
    and the serialised message are ASCII, the frame it put on air,
    unpacked by a receiver that has the same secret, is the
    serialised message without its spaces. *)
Theorem sent_frame_unpacks_at_the_receiver
    (others : list (outcomes * tracking.pyval)) (o : outcomes)
    (message : tracking.pyval) (w w' : world) (toa : Qc) (text : list Z) :
  send_message_with others o message w = (Ok (Some toa), w') →
  ujson_dumps o (stamp message (device_id (self w))) = Ok text →
  Forall thistothat.is_ascii (device_secret (self w)) →
  Forall thistothat.is_ascii text →
  ∃ frame,
    on_air w' = on_air w ++ [frame]
    ∧ thistothat.message_unpack frame (device_secret (self w))
      = Ok (Some (thistothat.replace_space text)).
Proof.
  intros Hsend Hd Hsa Hta.
  destruct (frame_on_air_cause others o message w) as (Ht & Hl & Hk & H).
  { rewrite Hsend. cbn.
    destruct (send_message_with_effect _ _ _ _ _ _ Hsend)
      as [[_ Hno]|[_ (frame & -> & _)]]; [by destruct (Hno toa)|].
    intros Heq. apply (f_equal length) in Heq.
    rewrite length_app in Heq. cbn in Heq. lia. }
  destruct H as (text' & frame & Hd' & Hp & _ & Ha).
  rewrite Hd in Hd'. injection Hd' as <-.
  exists frame. rewrite Hsend in Ha. split; [exact Ha|].
  destruct (decide (device_secret (self w) = [])) as [Hs|Hs].
  - (* without a secret only the empty frame of an all-space text is packed *)
    rewrite Hs in *. rewrite message_pack_empty_secret in Hp.
    case_decide as He; [|done]. injection Hp as <-. by rewrite He.
  - by apply message_unpack_packed_ascii.
Qed.

(** The frame of [{"sat": 7}], as the base unpacks it. *)
Lemma sent_frame_unpacks_at_the_receiver_witness :
  thistothat.message_unpack examples.sat_7_frame examples.secret
  = Ok (Some [123; 34; 115; 97; 116; 34; 58; 55; 125]).
Proof.
  destruct (sent_frame_unpacks_at_the_receiver [] (examples.all_well 6000 6010)
              examples.sat_7 examples.radio (examples.radio_after_send 6010)
              (Q2Qc 1) examples.sat_7_text) as (frame & Ha & Hu).
  - reflexivity.
  - reflexivity.
  - repeat constructor; unfold thistothat.is_ascii; lia.
  - repeat constructor; unfold thistothat.is_ascii; lia.
  - cbn in Ha. injection Ha as <-. exact Hu.
Defined.

End lora_send_facts.

(** ** More on the button classifier *)

Section device_button_facts.

Import utime device.
Local Open Scope Z_scope.

(** Debounce.  While the button reads released nothing is published;
    and a press that is no longer there at the second look, 30 ms
    later, is dropped without a trace. *)
Theorem unconfirmed_press_publishes_nothing
    (el : option Z) (idle : list sample) (detect confirm : sample)
    (rest : list sample) :
  Forall (λ s, value s ≠ _PRESSED) idle →
  value detect = _PRESSED → value confirm ≠ _PRESSED →
  run {| at_ := outer_if; elapsed := el |} idle
  = ([], Running {| at_ := outer_if; elapsed := el |})
  ∧ run {| at_ := outer_if; elapsed := el |} (idle ++ detect :: confirm :: rest)
    = run {| at_ := outer_if; elapsed := el |} rest.
Proof.
  intros Hidle Hd Hc.
  assert (Hrun : ∀ rest',
            run {| at_ := outer_if; elapsed := el |} (idle ++ rest')
            = run {| at_ := outer_if; elapsed := el |} rest').
  { intros rest'. induction Hidle as [|s idle Hs _ IH]; [done|].
    cbn [app run]. unfold step. cbn [at_].
    rewrite (proj2 (Z.eqb_neq _ _) Hs), IH. by destruct (run _ rest'). }
  split.
  - by rewrite <- (app_nil_r idle), Hrun.
  - rewrite Hrun. cbn [run]. unfold step. cbn [at_ elapsed].
    rewrite Hd, (proj2 (Z.eqb_neq _ _) Hc). cbn. by destruct (run _ rest).
Qed.

(** A bounce between two released samples, on a fresh task. *)
Lemma unconfirmed_press_publishes_nothing_witness :
  check_button [ {| value := 1; ticks_ms := 0 |};
                 {| value := 0; ticks_ms := 100 |};
                 {| value := 1; ticks_ms := 130 |};
                 {| value := 1; ticks_ms := 230 |} ]
  = ([], Running {| at_ := outer_if; elapsed := None |}).
Proof.
  refine (eq_trans
            (proj2 (unconfirmed_press_publishes_nothing None
                      [ {| value := 1; ticks_ms := 0 |} ]
                      {| value := 0; ticks_ms := 100 |}
                      {| value := 1; ticks_ms := 130 |}
                      [ {| value := 1; ticks_ms := 230 |} ] _ _ _)) _).
  - repeat constructor. discriminate.
  - reflexivity.
  - discriminate.
  - reflexivity.
Defined.

(** A confirmed press that the timing loop has seen down at least
    once is classified, when it is found released, by the time
    measured then from the confirming sample: one [button.bump] under
    250 ms, one [button.long] strictly between 1000 and 4000 ms, and
    nothing in the two dead zones, from 250 to 1000 ms and from
    4000 ms on. *)
Theorem press_classified_by_thresholds
    (el : option Z) (detect confirm : sample) (holds : list sample)
    (release : sample) :
  value detect = _PRESSED → value confirm = _PRESSED →
  Forall (held (ticks_ms confirm)) holds → holds ≠ [] →
  value release ≠ _PRESSED →
  run {| at_ := outer_if; elapsed := el |}
      (detect :: confirm :: holds ++ [release])
  = (classify (ticks_diff (ticks_ms release) (ticks_ms confirm)),
     Running {| at_ := outer_if;
                elapsed := Some (ticks_diff (ticks_ms release)
                                   (ticks_ms confirm)) |})
  ∧ (ticks_diff (ticks_ms release) (ticks_ms confirm) < 250 →
     classify (ticks_diff (ticks_ms release) (ticks_ms confirm))
     = ["button.bump"%string])
  ∧ (1000 < ticks_diff (ticks_ms release) (ticks_ms confirm) < 4000 →
     classify (ticks_diff (ticks_ms release) (ticks_ms confirm))
     = ["button.long"%string])
  ∧ (250 ≤ ticks_diff (ticks_ms release) (ticks_ms confirm) ≤ 1000
     ∨ 4000 ≤ ticks_diff (ticks_ms release) (ticks_ms confirm) →
     classify (ticks_diff (ticks_ms release) (ticks_ms confirm)) = []).
Proof.
  intros Hd Hc Hh Hne Hr. split.
  - rewrite press_detected by done.
    destruct (elapsed_after_held (ticks_ms confirm) el holds Hh Hne)
      as (e & He & Hlt).
    rewrite (press_released_classified _ _ _ _ _ e) by done.
    cbn. by rewrite app_nil_r.
  - unfold classify, _BUTTON_BUMP, _BUTTON_SHORT, _BUTTON_LONG.
    generalize (ticks_diff (ticks_ms release) (ticks_ms confirm)). intros d.
    repeat split; intros H;
      destruct (Z.ltb_spec d 250), (Z.ltb_spec 1000 d), (Z.ltb_spec d 4000);
      cbn; first [done | lia].
Qed.

(** A press of two seconds. *)
Lemma press_classified_by_thresholds_witness :
  check_button (press 1000 66)
  = (["button.long"%string],
     Running {| at_ := outer_if; elapsed := Some 1980 |}).
Proof.
  pose proof (press_classified_by_thresholds None
                {| value := _PRESSED; ticks_ms := 1000 |}
                {| value := _PRESSED; ticks_ms := 1030 |}
                (map (λ i, {| value := _PRESSED;
                              ticks_ms := 1000 + 30 + 30 * Z.of_nat i |})
                   (seq 1 66))
                {| value := _RELEASED; ticks_ms := 1000 + 30 + 30 * 66 |}
                eq_refl eq_refl) as H.
  destruct H as (Hrun & _ & Hlong & _).
  - repeat (apply Forall_cons; split; [split; reflexivity|]).
    apply Forall_nil_2.
  - discriminate.
  - discriminate.
  - etransitivity; [exact Hrun|].
    rewrite Hlong by (vm_compute; split; reflexivity). reflexivity.
Defined.

(** Holding the button until the measured time reaches 5000 ms
    publishes [device.sleep], once, and ends the task: whatever the
    pin does afterwards, nothing more is published. *)
Theorem press_held_to_sleep_ends_task
    (el : option Z) (detect confirm : sample) (holds : list sample)
    (s : sample) (rest : list sample) :
  value detect = _PRESSED → value confirm = _PRESSED →
  Forall (held (ticks_ms confirm)) holds →
  value s = _PRESSED →
  _BUTTON_SLEEP ≤ ticks_diff (ticks_ms s) (ticks_ms confirm) →
  run {| at_ := outer_if; elapsed := el |}
      (detect :: confirm :: holds ++ s :: rest)
  = (["device.sleep"%string], Finished).
Proof.
  intros Hd Hc Hh Hs Hlong. rewrite press_detected by done.
  by apply press_held_to_sleep.
Qed.

(** A press that is still down 5010 ms later, and released at last. *)
Lemma press_held_to_sleep_ends_task_witness :
  check_button [ {| value := 0; ticks_ms := 1000 |};
                 {| value := 0; ticks_ms := 1030 |};
                 {| value := 0; ticks_ms := 3000 |};
                 {| value := 0; ticks_ms := 6040 |};
                 {| value := 1; ticks_ms := 6070 |} ]
  = (["device.sleep"%string], Finished).
Proof.
  refine (press_held_to_sleep_ends_task None
            {| value := 0; ticks_ms := 1000 |}
            {| value := 0; ticks_ms := 1030 |}
            [ {| value := 0; ticks_ms := 3000 |} ]
            {| value := 0; ticks_ms := 6040 |}
            [ {| value := 1; ticks_ms := 6070 |} ] eq_refl eq_refl _ eq_refl _).
  - repeat constructor.
  - vm_compute. discriminate.
Defined.

Lemma step_events f s :
  (step f s).1 = []
  ∨ ((step f s).1 = ["button.bump"%string] ∧ ∃ f', (step f s).2 = Running f')
  ∨ ((step f s).1 = ["button.long"%string] ∧ ∃ f', (step f s).2 = Running f')
  ∨ ((step f s).1 = ["device.sleep"%string] ∧ (step f s).2 = Finished).
Proof.
  unfold step, after_while. destruct (at_ f) as [| |start].
  - destruct (_ =? _); by left.
  - destruct (_ =? _); by left.
  - destruct (_ =? _).
    + destruct (_ <=? _); [|by left]. right. right. by right.
    + destruct (elapsed f) as [e|]; [|by left].
      destruct (_ <=? _); [by left|].
      destruct (_ <? _); [right; left; eauto|].
      destruct (_ && _); [right; right; left; eauto|by left].
Qed.

(** Whatever the pin and the clock do, [check_button] publishes
    nothing but [button.bump], [button.long] and [device.sleep], and
    [device.sleep] at most once, as the last thing the task does. *)
Theorem check_button_publishes_known_events (f : frame) (samples : list sample) :
  Forall (λ e, e ∈ button_events) (run f samples).1
  ∧ ("device.sleep"%string ∈ (run f samples).1 →
     (run f samples).2 = Finished
     ∧ ∃ before,
         (run f samples).1 = before ++ ["device.sleep"%string]
         ∧ "device.sleep"%string ∉ before).
Proof.
  revert f. induction samples as [|s samples IH]; intros f.
  - cbn. split; [constructor|]. intros H. by apply elem_of_nil in H.
  - cbn [run].
    pose proof (step_events f s) as H.
    destruct (step f s) as [events st]. cbn [fst snd] in H.
    destruct H as [->|[[-> [f' ->]]|[[-> [f' ->]]|[-> ->]]]].
    + destruct st as [f'| |e].
      * destruct (IH f') as [Hall Hsleep].
        destruct (run f' samples) as [later st']. cbn in *. by split.
      * cbn. split; [constructor|]. intros H. by apply elem_of_nil in H.
      * cbn. split; [constructor|]. intros H. by apply elem_of_nil in H.
    + destruct (IH f') as [Hall Hsleep].
      destruct (run f' samples) as [later st']. cbn in *. split.
      * constructor; [|done]. unfold button_events. repeat constructor.
      * intros H. apply elem_of_cons in H as [?|H]; [done|].
        destruct (Hsleep H) as (-> & before & -> & Hb). split; [done|].
        exists ("button.bump"%string :: before). split; [done|].
        apply not_elem_of_cons. by split.
    + destruct (IH f') as [Hall Hsleep].
      destruct (run f' samples) as [later st']. cbn in *. split.
      * constructor; [|done]. unfold button_events. repeat constructor.
      * intros H. apply elem_of_cons in H as [?|H]; [done|].
        destruct (Hsleep H) as (-> & before & -> & Hb). split; [done|].
        exists ("button.long"%string :: before). split; [done|].
        apply not_elem_of_cons. by split.
    + cbn. split.
      * unfold button_events. repeat constructor.
      * intros _. split; [done|]. exists []. split; [done|].
        apply not_elem_of_nil.
Qed.

End device_button_facts.

(** ** The device's own logging *)

Section device_log_facts.

Import device.

(** [set_debug] does not reach [_log]: it sets [_debug_v], while
    [_log] looks at [debug_v], so what the device prints is the same
    whatever [set_debug] was called with. *)
Theorem set_debug_does_not_change_logging
    (debug : bool) (args : list string) (self : Device) :
  debug_v (set_debug debug self) = debug_v self
  ∧ serial (_log args (set_debug debug self)) = serial (_log args self)
  ∧ (debug_v self = false →
     serial (_log args (set_debug true self)) = serial self).
Proof.
  unfold _log, set_debug, log. cbn. split; [done|].
  split; [by destruct (debug_v self)|]. by intros ->.
Qed.

(** A quiet device asked to be verbose. *)
Lemma set_debug_does_not_change_logging_witness :
  serial (_log ["Restarting"%string]
            (set_debug true
               {| debug_v := false; _debug_v := None; serial := [] |}))
  = [].
Proof.
  exact (proj2 (proj2 (set_debug_does_not_change_logging true
                         ["Restarting"%string]
                         {| debug_v := false; _debug_v := None;
                            serial := [] |})) eq_refl).
Defined.

End device_log_facts.

(** ** The stored preferences *)

Section config_manager_facts.

Import tracking config_manager.

Lemma split_not_nil key : split key ≠ [].
Proof.
  destruct key as [|c key]; [done|]. cbn [split].
  destruct (String.eqb (String c EmptyString) "."); [done|].
  by destruct (split key).
Qed.

Lemma get_along_cons k keys d :
  keys ≠ [] →
  get_along (k :: keys) d
  = match d !! k with
    | Some (PDict d') => get_along keys d'
    | _ => None
    end.
Proof. by destruct keys. Qed.

Lemma get_along_set_along path last value d :
  get_along (path ++ [last]) (set_along path last value d) = Some value.
Proof.
  revert d. induction path as [|k path IH]; intros d.
  - cbn. by rewrite lookup_insert_eq.
  - cbn [app set_along]. rewrite get_along_cons by (by destruct path).
    rewrite lookup_insert_eq. apply IH.
Qed.

Lemma get_along_empty keys : get_along keys ∅ = None.
Proof. destruct keys as [|k [|k' keys]]; cbn; by rewrite ?lookup_empty. Qed.

Lemma set_along_part_ways_at_end common x y q' value d :
  x ≠ y →
  get_along (common ++ y :: q') (set_along common x value d)
  = get_along (common ++ y :: q') d.
Proof.
  intros Hxy. revert d. induction common as [|k common IH]; intros d.
  - cbn. destruct q'; by rewrite lookup_insert_ne.
  - cbn [app set_along]. rewrite !get_along_cons by (by destruct common).
    rewrite lookup_insert_eq, IH.
    destruct (d !! k) as [[]|]; by rewrite ?get_along_empty.
Qed.

Lemma set_along_part_ways_before_end common x r last y q' value d :
  x ≠ y →
  get_along (common ++ y :: q') (set_along (common ++ x :: r) last value d)
  = get_along (common ++ y :: q') d.
Proof.
  intros Hxy. revert d. induction common as [|k common IH]; intros d.
  - cbn. destruct q'; by rewrite lookup_insert_ne.
  - cbn [app set_along]. rewrite !get_along_cons by (by destruct common).
    rewrite lookup_insert_eq, IH.
    destruct (d !! k) as [[]|]; by rewrite ?get_along_empty.
Qed.

Lemma update_preference_eq preferences key value path last :
  split key = path ++ [last] →
  update_preference preferences key value
  = set_along path last value preferences.
Proof.
  intros Hs. unfold update_preference.
  by rewrite Hs, removelast_last, last_last.
Qed.

(** A setting written under a dotted key is what the modules read
    back along that path, whatever was stored before: a value in the
    way that is not a dictionary is replaced by one.  Settings along
    paths that part ways with the key are read as before. *)
Theorem update_preference_then_get
    (preferences : gmap string pyval) (key : string) (value : pyval) :
  get_along (split key) (update_preference preferences key value) = Some value
  ∧ (∀ q, part_ways (split key) q →
       get_along q (update_preference preferences key value)
       = get_along q preferences).
Proof.
  destruct (exists_last (split_not_nil key)) as (path & last & Hs).
  rewrite (update_preference_eq _ _ _ _ _ Hs), Hs. split.
  - apply get_along_set_along.
  - intros q (common & x & p' & y & q' & Hp & -> & Hxy).
    destruct p' as [|z p'] using rev_ind.
    + apply app_inj_tail in Hp as [-> ->].
      by apply set_along_part_ways_at_end.
    + clear IHp'.
      change (common ++ x :: p' ++ [z]) with (common ++ (x :: p') ++ [z]) in Hp.
      rewrite app_assoc in Hp. apply app_inj_tail in Hp as [-> ->].
      by apply set_along_part_ways_before_end.
Qed.

(** The send limit written under ["lora.rate_limit"], in preferences
    that hold a number where the dictionary ["lora"] was expected. *)
Lemma update_preference_then_get_witness :
  get_along ["lora"; "rate_limit"]%string
    (update_preference (<["lora" := PNum (Q2Qc 1)]> {[ "id" := PStr "rover" ]})
       "lora.rate_limit" (PNum (Q2Qc 9)))
  = Some (PNum (Q2Qc 9))
  ∧ get_along ["id"]%string
      (update_preference (<["lora" := PNum (Q2Qc 1)]> {[ "id" := PStr "rover" ]})
         "lora.rate_limit" (PNum (Q2Qc 9)))
    = Some (PStr "rover").
Proof.
  destruct (update_preference_then_get
              (<["lora" := PNum (Q2Qc 1)]> {[ "id" := PStr "rover" ]})
              "lora.rate_limit" (PNum (Q2Qc 9))) as [Hget Hother].
  split; [exact Hget|].
  rewrite (Hother ["id"%string]); [reflexivity|].
  exists [], "lora"%string, ["rate_limit"%string], "id"%string, [].
  repeat split. discriminate.
Defined.

(** What [load_preferences] comes to when writing the file fails, if
    it fails, with an [Exception].  A file that is missing,
    unreadable or not JSON gives the defaults, the board alone; a
    file holding an object gives that object with the board set; a
    file holding JSON that is not an object (a list, a number, ...)
    raises [TypeError] and is left as it is, so that the next start
    fails the same way.  Once the file has been written, loading
    again gives the same preferences and the same file. *)
Theorem load_preferences_outcomes (o : writing) (board : string) (f : rovers_json) :
  fails_with_Exception o →
  match f with
  | Parsed (PDict preferences) =>
      (load_preferences o board f).1
      = Ok (<["board" := PStr board]> preferences)
  | Parsed _ => load_preferences o board f = (Raise TypeError, f)
  | _ => (load_preferences o board f).1 = Ok {[ "board" := PStr board ]}
  end
  ∧ (∀ preferences f',
       load_preferences Written board f = (Ok preferences, f') →
       f' = Parsed (PDict preferences)
       ∧ load_preferences Written board f' = (Ok preferences, f')).
Proof.
  intros Ho.
  assert (Hsave : ∀ data g, ∃ g', save_preferences o data g = (Ok (), g')).
  { intros data g. destruct o; cbn in *; rewrite ?Ho; by eexists. }
  split.
  - unfold load_preferences.
    destruct f as [| | |[| | | | |preferences]]; cbn [open_and_load]; try done;
      match goal with
      | |- context [save_preferences o ?data ?g] =>
          destruct (Hsave data g) as [g' ->]
      end; done.
  - intros preferences f'. unfold load_preferences.
    destruct f as [| | |[| | | | |preferences0]];
      cbn [open_and_load save_preferences]; try done;
      intros [= <- <-]; (split; [done|]);
      cbn [open_and_load save_preferences]; by rewrite insert_insert_eq.
Qed.

(** A first start without a preferences file, and a start on a file
    that holds a list. *)
Lemma load_preferences_outcomes_witness :
  load_preferences Written "heltecwifilora32v3" Missing
  = (Ok {[ "board" := PStr "heltecwifilora32v3" ]},
     Parsed (PDict {[ "board" := PStr "heltecwifilora32v3" ]}))
  ∧ load_preferences Written "heltecwifilora32v3"
      (Parsed (PDict {[ "board" := PStr "heltecwifilora32v3" ]}))
    = (Ok {[ "board" := PStr "heltecwifilora32v3" ]},
       Parsed (PDict {[ "board" := PStr "heltecwifilora32v3" ]}))
  ∧ load_preferences Written "heltecwifilora32v3" (Parsed (PList []))
    = (Raise TypeError, Parsed (PList [])).
Proof.
  destruct (load_preferences_outcomes Written "heltecwifilora32v3" Missing I)
    as [_ Hagain].
  destruct (Hagain {[ "board" := PStr "heltecwifilora32v3" ]}
              (Parsed (PDict {[ "board" := PStr "heltecwifilora32v3" ]}))
              eq_refl) as [_ H].
  split; [reflexivity|]. split; [exact H|].
  exact (proj1 (load_preferences_outcomes Written "heltecwifilora32v3"
                  (Parsed (PList [])) I)).
Defined.

Lemma update_loop_app a b preferences :
  update_loop (a ++ b) preferences
  = match update_loop a preferences with
    | (Ok (), preferences) => update_loop b preferences
    | (Raise e, preferences) => (Raise e, preferences)
    end.
Proof.
  revert preferences. induction a as [|[key value] a IH]; intros preferences.
  - done.
  - cbn [app update_loop].
    destruct (if decide (key = "id") then _ else _) as [value'|e]; [|done].
    apply IH.
Qed.

Lemma length_substring n s : String.length (String.substring 0 n s) ≤ n.
Proof.
  revert s. induction n as [|n IH]; intros s; destruct s as [|c s]; cbn; try lia.
  specialize (IH s). lia.
Qed.

Lemma update_loop_other items preferences :
  Forall (λ item : string * pyval, item.1 ≠ "id"%string) items →
  (update_loop items preferences).1 = Ok ().
Proof.
  intros H. revert preferences.
  induction H as [|[key value] items Hk _ IH]; intros preferences; [done|].
  cbn [update_loop]. cbn in Hk. rewrite decide_False by done. apply IH.
Qed.

Lemma update_preference_other preferences key value k :
  head (split key) ≠ Some k →
  update_preference preferences key value !! k = preferences !! k.
Proof.
  intros Hk. destruct (split key) as [|k0 keys] eqn:Hs using rev_ind;
    [by destruct (split_not_nil key)|].
  clear IHkeys. rename k0 into last, keys into path.
  rewrite (update_preference_eq _ _ _ path last) by done.
  destruct path as [|k1 path]; cbn in Hk |- *;
    rewrite lookup_insert_ne; congruence.
Qed.

Lemma update_loop_keeps items preferences k :
  Forall (λ item : string * pyval, head (split item.1) ≠ Some k) items →
  (update_loop items preferences).2 !! k = preferences !! k
  ∨ ∃ e, (update_loop items preferences).1 = Raise e.
Proof.
  intros H. revert preferences.
  induction H as [|[key value] items Hk _ IH]; intros preferences; [by left|].
  cbn [update_loop]. cbn in Hk.
  destruct (if decide (key = "id"%string) then _ else _) as [value'|e];
    [|right; by eexists].
  destruct (IH (update_preference preferences key value')) as [->|?];
    [|by right].
  left. by apply update_preference_other.
Qed.

(** The stored device id.  In the items of a configuration, after the
    id no key is [id] again (the keys of a dictionary differ) or
    begins with [id.]; before it no key is [id].  Then an id that is
    a string of more than 20 characters is stored cut to its first
    20, and a shorter one as it is, so the stored id has at most 20;
    an id without a length (a number, a boolean, null) makes
    [update_preferences] raise [TypeError] once the items before it
    have been applied, and before anything is written to the file.
    An item keyed under [id.] puts a dictionary in the place of the
    id. *)
Theorem update_preferences_shortens_id
    (o : writing) (preferences : gmap string pyval)
    (before after : list (string * pyval)) (value : pyval) (f : rovers_json) :
  Forall (λ item, item.1 ≠ "id"%string) before →
  Forall (λ item, head (split item.1) ≠ Some "id"%string) after →
  match value with
  | PStr s =>
      ∃ stored,
        (update_loop (before ++ ("id"%string, value) :: after) preferences).1
        = Ok ()
        ∧ (update_preferences o preferences
             (before ++ ("id"%string, value) :: after) f).1.2 !! "id"
          = Some (PStr stored)
        ∧ stored = (if (20 <? String.length s)%nat
                    then String.substring 0 20 s else s)
        ∧ String.length stored ≤ 20
  | PNone | PBool _ | PNum _ =>
      (update_loop before preferences).1 = Ok ()
      ∧ update_preferences o preferences
          (before ++ ("id"%string, value) :: after) f
        = (Raise TypeError, (update_loop before preferences).2, f)
  | _ => True
  end
  ∧ (∀ key k rest value' preferences',
       split key = "id"%string :: k :: rest →
       ∃ d, update_preference preferences' key value' !! "id" = Some (PDict d)).
Proof.
  intros Hb Ha. split.
  - pose proof (update_loop_other before preferences Hb) as Hok.
    destruct (update_loop before preferences) as [r before_id] eqn:Hl.
    cbn [fst snd] in *. subst r.
    assert (Hafter : ∀ p, (update_loop after p).1 = Ok ()).
    { intros p. apply update_loop_other. eapply Forall_impl; [exact Ha|].
      intros [key v] Hk Heq. cbn in Hk, Heq. subst key. by apply Hk. }
    destruct value as [| | |s| |]; try done.
    + split; [done|]. unfold update_preferences.
      by rewrite update_loop_app, Hl.
    + split; [done|]. unfold update_preferences.
      by rewrite update_loop_app, Hl.
    + split; [done|]. unfold update_preferences.
      by rewrite update_loop_app, Hl.
    + exists (if (20 <? String.length s)%nat
              then String.substring 0 20 s else s).
      assert (Hcut : String.length
                       (if (20 <? String.length s)%nat
                        then String.substring 0 20 s else s) ≤ 20).
      { destruct (Nat.ltb_spec 20 (String.length s));
          [apply length_substring|lia]. }
      set (stored := if (20 <? String.length s)%nat
                     then String.substring 0 20 s else s) in *.
      assert (Hloop : update_loop (before ++ ("id"%string, PStr s) :: after)
                        preferences
                      = update_loop after
                          (update_preference before_id "id" (PStr stored))).
      { rewrite update_loop_app, Hl. cbn [update_loop].
        rewrite decide_True by done. cbn [len first_20 mbind result_bind].
        unfold stored. by destruct (20 <? String.length s)%nat. }
      split; [by rewrite Hloop|]. split; [|done].
      unfold update_preferences. rewrite Hloop.
      specialize (Hafter (update_preference before_id "id" (PStr stored))).
      destruct (update_loop_keeps after
                  (update_preference before_id "id" (PStr stored)) "id" Ha)
        as [Hkeep|[e He]]; [|congruence].
      destruct (update_loop after _) as [r final]. cbn [fst snd] in *.
      subst r. destruct (save_preferences _ _ _). cbn [fst snd].
      rewrite Hkeep, (update_preference_eq _ _ _ [] "id") by done.
      cbn [set_along]. by rewrite lookup_insert_eq.
  - intros key k rest value' preferences' Hs.
    destruct (exists_last (l := k :: rest)) as (path & last & Hp); [done|].
    rewrite (update_preference_eq _ _ _ ("id"%string :: path) last)
      by (by rewrite Hs, Hp).
    cbn [set_along]. rewrite lookup_insert_eq. by eexists.
Qed.

(** The configuration that [Device.__init__] publishes, with a
    26-character id, and one with a number for an id. *)
Lemma update_preferences_shortens_id_witness :
  (update_preferences Written ∅
     [("is_rover"%string, PBool true);
      ("id"%string, PStr "abcdefghijklmnopqrstuvwxyz");
      ("debug_v"%string, PBool true);
      ("secret"%string, PStr "k");
      ("wd"%string, PBool true)] Missing).1.2 !! "id"
  = Some (PStr "abcdefghijklmnopqrst")
  ∧ update_preferences Written ∅
      [("id"%string, PNum (Q2Qc 5)); ("wd"%string, PBool true)] Missing
    = (Raise TypeError, ∅, Missing).
Proof.
  split.
  - destruct (proj1 (update_preferences_shortens_id Written ∅
                       [("is_rover"%string, PBool true)]
                       [("debug_v"%string, PBool true);
                        ("secret"%string, PStr "k");
                        ("wd"%string, PBool true)]
                       (PStr "abcdefghijklmnopqrstuvwxyz") Missing
                       ltac:(repeat constructor; discriminate)
                       ltac:(repeat constructor; discriminate)))
      as (stored & _ & Hs & -> & _).
    exact Hs.
  - exact (proj2 (proj1 (update_preferences_shortens_id Written ∅ []
                           [("wd"%string, PBool true)]
                           (PNum (Q2Qc 5)) Missing
                           ltac:(constructor)
                           ltac:(repeat constructor; discriminate)))).
Defined.

End config_manager_facts.

(** ** More on the framing codec *)

Section thistothat_codec_facts.

Import thistothat.
Local Open Scope Z_scope.

Lemma message_unpack_helper frame secret :
  ∃ unpacked, message_unpack frame secret = Ok unpacked.
Proof.
  unfold message_unpack, decode_utf8.
  destruct (utf8_check 0 frame); [|by eexists]. cbn [mbind result_bind].
  destruct (xor_encrypt_decrypt frame secret) as [r|e] eqn:Hx; [by eexists|].
  assert (He : e = ZeroDivisionError ∨ e = RuntimeError).
  { revert Hx. unfold xor_encrypt_decrypt, encode_utf8.
    destruct secret as [|k secret]; [destruct frame; [done|]; cbn; intros [= <-]; auto|].
    by rewrite xor_loop_eq. }
  destruct He as [-> | ->]; by eexists.
Qed.

(** [message_unpack] never raises.  It gives [None] for a frame that
    is not UTF-8 and, when the secret is empty, for any frame that is
    not empty; otherwise it gives the frame XOR-ed with the secret,
    of the same length as the frame. *)
Theorem message_unpack_never_raises (frame secret : list Z) :
  message_unpack frame secret
  = Ok (if utf8_check 0 frame
        then if decide (secret = [] ∧ frame ≠ []) then None
             else Some (xor_with secret 0 frame)
        else None)
  ∧ length (xor_with secret 0 frame) = length frame.
Proof.
  split.
  - unfold message_unpack, decode_utf8.
    destruct (utf8_check 0 frame); [|done]. cbn [mbind result_bind].
    unfold xor_encrypt_decrypt, encode_utf8.
    destruct secret as [|k secret].
    + destruct frame as [|b frame]; [done|].
      rewrite decide_True by done. done.
    + rewrite xor_loop_eq by done. rewrite decide_False by (by intros [? _]).
      done.
  - generalize 0%nat. induction frame as [|b frame IH]; intros i; [done|].
    cbn. by rewrite IH.
Qed.

(** No confidentiality.  One frame and the text it was packed from
    give the secret away: byte by byte, the text (without its spaces)
    XOR the frame is the secret, repeated. *)
Theorem frame_and_text_give_the_secret (text secret frame : list Z) :
  secret ≠ [] →
  message_pack text secret = Ok frame →
  length frame = length (replace_space text)
  ∧ ∀ (i : nat) (b c : Z),
      replace_space text !! i = Some b → frame !! i = Some c →
      secret !! (i mod length secret)%nat = Some (Z.lxor b c).
Proof.
  intros Hs. unfold message_pack, xor_encrypt_decrypt, encode_utf8.
  rewrite xor_loop_eq by done. intros [= <-]. cbn [app].
  assert (Hlen : length secret ≠ O) by (by destruct secret).
  assert (H : ∀ n (i : nat) b c,
            replace_space text !! i = Some b →
            xor_with secret n (replace_space text) !! i = Some c →
            secret !! ((n + i) mod length secret)%nat = Some (Z.lxor b c)).
  { generalize (replace_space text). intros l.
    induction l as [|b0 l IH]; intros n i b c Hb Hc; [done|].
    destruct i as [|i]; cbn in Hb, Hc.
    - injection Hb as <-. injection Hc as <-.
      rewrite Nat.add_0_r, <- Z.lxor_assoc, Z.lxor_nilpotent, Z.lxor_0_l.
      destruct (lookup_lt_is_Some_2 secret (n mod length secret)%nat)
        as [k Hk]; [by apply Nat.mod_upper_bound|].
      by rewrite (nth_lookup_Some _ _ 0 _ Hk).
    - replace (n + S i)%nat with (S n + i)%nat by lia. by eapply IH. }
  split.
  - generalize 0%nat. generalize (replace_space text).
    intros l. induction l as [|b l IH]; intros n; [done|]. cbn. by rewrite IH.
  - intros i b c. apply (H 0%nat).
Qed.

(** A frame that cannot be unpacked is reported, not raised: when
    [ujson.loads] fails only with [Exception]s, [is_json] applied to
    what [message_unpack] returned always returns a pair, with no
    value and the exception for a frame that does not unpack. *)
Theorem undecodable_frame_is_reported {A} (loads : list Z → result A)
    (frame secret : list Z) :
  (∀ text e, loads text = Raise e → is_Exception e = true) →
  ∃ unpacked,
    message_unpack frame secret = Ok unpacked
    ∧ (unpacked = None →
       is_json loads unpacked = Ok (None, Some AttributeError))
    ∧ ∃ test_json err,
        is_json loads unpacked = Ok (test_json, err)
        ∧ (test_json = None ↔ err ≠ None).
Proof.
  intros Hloads.
  destruct (message_unpack_helper frame secret) as [unpacked Hu].
  exists unpacked. split; [done|]. split; [by intros ->|].
  unfold is_json. destruct unpacked as [bytes|]; [|cbn; eauto 6].
  - unfold decode_utf8. destruct (utf8_check 0 bytes); cbn.
    + destruct (loads bytes) as [v|e] eqn:Hl; cbn.
      * eexists _, _. split; [done|]. split; [done|]. by intros [].
      * rewrite (Hloads _ _ Hl). eexists _, _. split; [done|]. done.
    + eexists _, _. split; [done|]. done.
  - eexists _, _. split; [done|]. done.
Qed.

End thistothat_codec_facts.

(** The frame of [{"sat": 7}] against its text: the first key byte. *)
Lemma frame_and_text_give_the_secret_witness :
  examples.secret !! 0%nat = Some (Z.lxor 123 75).
Proof.
  refine (proj2 (frame_and_text_give_the_secret examples.sat_7_text
                   examples.secret examples.sat_7_frame _ _) 0%nat 123%Z 75%Z _ _).
  - discriminate.
  - reflexivity.
  - reflexivity.
  - reflexivity.
Defined.

(** A frame that is not UTF-8, at a base whose parser accepts nothing. *)
Lemma undecodable_frame_is_reported_witness :
  thistothat.is_json (λ _, Raise ValueError : result ())
    (default None
       (match thistothat.message_unpack [243; 153]%Z examples.secret with
        | Ok unpacked => Some unpacked
        | Raise _ => None
        end))
  = Ok (None, Some AttributeError).
Proof.
  destruct (undecodable_frame_is_reported (λ _, Raise ValueError : result ())
              [243; 153]%Z examples.secret) as (unpacked & Hu & Hnone & _).
  - intros text e [= <-]. reflexivity.
  - rewrite Hu. cbn [default]. apply Hnone.
    cbv in Hu. by injection Hu as <-.
Defined.

(** ** The heartbeat indicator *)

Section display_facts.

Import display.
Local Open Scope Z_scope.

Lemma heartbeat_step (self : Display) :
  0 ≤ _heartbeat_i self ≤ 2 →
  _heartbeat_dir self = 1 ∨ _heartbeat_dir self = -1 →
  0 ≤ _heartbeat_i (heartbeat self).1 ≤ 2
  ∧ (_heartbeat_dir (heartbeat self).1 = 1
     ∨ _heartbeat_dir (heartbeat self).1 = -1)
  ∧ _heartbeat_i (heartbeat self).1
    = _heartbeat_i self + _heartbeat_dir (heartbeat self).1
  ∧ (heartbeat self).2
    = _heartbeat_ico !! Z.to_nat (_heartbeat_i (heartbeat self).1)
  ∧ is_Some ((heartbeat self).2).
Proof.
  intros Hi Hd. destruct self as [i d]. cbn in Hi, Hd.
  assert (i = 0 ∨ i = 1 ∨ i = 2) as [-> | [-> | ->]] by lia;
    destruct Hd as [-> | ->];
    (set (h := heartbeat _); vm_compute in h; subst h);
    cbn [fst snd _heartbeat_i _heartbeat_dir];
    (split; [lia|]); (split; [auto|]); (split; [lia|]); (split; [done|]);
    by eexists.
Qed.

Lemma beats_S n self : beats (S n) self = (heartbeat (beats n self)).1.
Proof. done. Qed.

Lemma beats_invariant n (self : Display) :
  0 ≤ _heartbeat_i self ≤ 2 →
  _heartbeat_dir self = 1 ∨ _heartbeat_dir self = -1 →
  0 ≤ _heartbeat_i (beats n self) ≤ 2
  ∧ (_heartbeat_dir (beats n self) = 1 ∨ _heartbeat_dir (beats n self) = -1).
Proof.
  intros Hi Hd. induction n as [|n [IHi IHd]]; [done|].
  rewrite beats_S. destruct (heartbeat_step _ IHi IHd) as (? & ? & _). done.
Qed.

(** The heartbeat never stands still and never leaves its three
    icons.  From a display whose index is within the list and whose
    direction is one step, every call moves the index by exactly one
    place, stays within the list, and hands [oled.text] the icon at
    that place; after the first call the display runs through a cycle
    of four calls. *)
Theorem heartbeat_sweeps_the_icons (self : Display) (n : nat) :
  0 ≤ _heartbeat_i self ≤ 2 →
  _heartbeat_dir self = 1 ∨ _heartbeat_dir self = -1 →
  0 ≤ _heartbeat_i (beats (S n) self) ≤ 2
  ∧ Z.abs (_heartbeat_i (beats (S n) self) - _heartbeat_i (beats n self)) = 1
  ∧ (heartbeat (beats n self)).2
    = _heartbeat_ico !! Z.to_nat (_heartbeat_i (beats (S n) self))
  ∧ is_Some ((heartbeat (beats n self)).2)
  ∧ beats (S n + 4) self = beats (S n) self.
Proof.
  intros Hi Hd. destruct (beats_invariant n self Hi Hd) as [Hni Hnd].
  destruct (heartbeat_step _ Hni Hnd) as (Hsi & Hsd & Hmove & Hico & Hsome).
  rewrite beats_S. split; [done|]. split; [lia|]. split; [done|].
  split; [done|].
  replace (S n + 4)%nat with (4 + S n)%nat by lia.
  unfold beats at 1. rewrite Nat.iter_add. fold (beats (S n) self).
  rewrite beats_S.
  destruct (heartbeat (beats n self)).1 as [i d]. cbn in Hsi, Hsd, Hmove.
  destruct (beats n self) as [i0 d0]. cbn in Hni, Hnd, Hmove.
  assert (i = 0 ∨ i = 1 ∨ i = 2) as [-> | [-> | ->]] by lia;
    destruct Hsd as [-> | ->]; first [by vm_compute | lia].
Qed.

(** From start-up: the second call draws the third icon. *)
Lemma heartbeat_sweeps_the_icons_witness :
  (heartbeat (beats 1 examples.display_start)).2 = Some ".oO"%string.
Proof.
  destruct (heartbeat_sweeps_the_icons examples.display_start 1)
    as (_ & _ & H & _); [done|by left|].
  rewrite H. reflexivity.
Defined.

End display_facts.

(** ** The rover's fix and its timestamp *)

Section gps_facts.

Import tracking gps.
Local Open Scope Z_scope.

(** The time of a fix, from the rover's decoder to the base's log.
    When the decoder holds a date and a time that [mktime] accepts,
    [_get_unix_timestamp] adds the offset to 1970 that
    [TimeConverter] takes off again: the base gets back the rover's
    own epoch seconds.  When a field is missing or [mktime] fails,
    the timestamp is 0. *)
Theorem unix_timestamp_round_trip
    (mktime : list Qc → result Z) (time : list Qc) (date : list Z) :
  (∀ td e, mktime td = Raise e → is_Exception e = true) →
  (∀ day month year hours minutes seconds epoch time_rest date_rest,
     date = day :: month :: year :: date_rest →
     time = hours :: minutes :: seconds :: time_rest →
     mktime [of_int (year + 2000); of_int month; of_int day;
             hours; minutes; of_int (int seconds); of_int 0; of_int 0]
     = Ok epoch →
     _get_unix_timestamp mktime time date = Ok (epoch + 946684800)
     ∧ ∀ mktime' now,
         ∃ converter,
           thistothat.from_unix_epoch mktime' now (epoch + 946684800)
           = Ok converter
           ∧ thistothat.micropython_epoch converter = epoch
           ∧ thistothat.unix_epoch converter = epoch + 946684800)
  ∧ ((length date < 3)%nat ∨ (length time < 3)%nat →
     _get_unix_timestamp mktime time date = Ok 0)
  ∧ ∃ ut, _get_unix_timestamp mktime time date = Ok ut.
Proof.
  intros Hmk. split; [|split].
  - intros day month year hours minutes seconds epoch time_rest date_rest
      -> -> Hepoch.
    unfold _get_unix_timestamp. cbn [lookup list_lookup]. rewrite Hepoch.
    split; [done|]. intros mktime' now. eexists. split; [done|].
    unfold thistothat.micropython_epoch, thistothat.unix_epoch,
      thistothat.UNIX_OFFSET_SECONDS. cbn. lia.
  - unfold _get_unix_timestamp. intros [H|H].
    + destruct date as [|? [|? [|? ?]]]; cbn in H; try lia; cbn;
        repeat (match goal with |- context [match ?x with _ => _ end] =>
                  destruct x end); done.
    + destruct time as [|? [|? [|? ?]]]; cbn in H; try lia; cbn;
        repeat (match goal with |- context [match ?x with _ => _ end] =>
                  destruct x end); done.
  - unfold _get_unix_timestamp.
    repeat (match goal with
            | |- context [match ?x !! ?i with _ => _ end] => destruct (x !! i)
            end); eauto.
    destruct (mktime _) as [epoch|e] eqn:He; [eauto|].
    rewrite (Hmk _ _ He). eauto.
Qed.

(** The fix of 12:34:56.5 on 4 November 2026: 45296 seconds into the
    day, the half second cut off. *)
Lemma unix_timestamp_round_trip_witness :
  _get_unix_timestamp examples.mktime_of_day
    (timestamp examples.fix_at_noon) (date examples.fix_at_noon)
  = Ok (45296 + 946684800).
Proof.
  refine (proj1 (proj1 (unix_timestamp_round_trip examples.mktime_of_day
                          (timestamp examples.fix_at_noon)
                          (date examples.fix_at_noon) _)
                   4 11 26 (Q2Qc 12) (Q2Qc 34) (Q2Qc (113 # 2)) 45296 [] []
                   eq_refl eq_refl _)).
  - intros td e H. discriminate H.
  - reflexivity.
Defined.

Lemma _get_coords_dict_last_fix mktime g self self' :
  last_fix_whole self →
  _get_coords_dict mktime g self = Ok self' →
  last_fix_whole self'.
Proof.
  intros Hw. unfold _get_coords_dict.
  destruct (_decimal_coords self); [|by intros [= <-]].
  destruct (_get_unix_timestamp _ _ _) as [ut|e]; [|done].
  cbn [mbind result_bind].
  destruct (decide (latitude g ≠ 0%Qc ∧ longitude g ≠ 0%Qc)) as [Hfresh|_].
  - intros [= <-]. by right.
  - destruct (mock self); [by intros [= <-]|].
    case_decide; by intros [= <-].
Qed.

(** The last fix stays whole.  [_get_coords_dict], and so each round
    of [run], stores a position only when both coordinates are
    non-zero, and then stores both: together with zeros at start-up
    this makes "lat and lon both zero, or neither" an invariant. *)
Theorem last_fix_stays_whole
    (mktime : list Qc → result Z) (g : decoder) (self self' : GPSModule)
    (event : option bool) :
  last_fix_whole self →
  run_round mktime g self = Ok (self', event) →
  last_fix_whole self'.
Proof.
  intros Hw. unfold run_round.
  destruct (_ || _); [|by intros [= <- _]].
  destruct (_get_coords_dict mktime g self) as [self1|e] eqn:Hc; [|done].
  pose proof (_get_coords_dict_last_fix _ _ _ _ Hw Hc) as Hw1.
  cbn [mbind result_bind].
  destruct (data self1) as [d|]; [|by intros [= <- _]].
  destruct (_ && _); by intros [= <- _].
Qed.

(** From start-up, where no fix is stored, to the first fix. *)
Lemma last_fix_stays_whole_witness : last_fix_whole examples.gps_fixed.
Proof.
  refine (last_fix_stays_whole examples.mktime_of_day examples.fix_at_noon
            examples.gps_start examples.gps_fixed (Some true) _ _).
  - left. split; reflexivity.
  - vm_compute. reflexivity.
Defined.

(** What is published is the stored fix.  On a module that reads
    decimal coordinates and does not mock them, a round of [run] that
    publishes [gps.fix] leaves in [data] the position and the time of
    the stored last fix, which is then a real one (neither coordinate
    is zero); and the event says "changed" exactly when this round
    moved the stored position.  A round that falls back on the last
    fix therefore always says "unchanged". *)
Theorem published_fix_is_the_stored_fix
    (mktime : list Qc → result Z) (g : decoder) (self self' : GPSModule)
    (coords_changed : bool) :
  mock self = false →
  _decimal_coords self = true →
  run_round mktime g self = Ok (self', Some coords_changed) →
  (∃ d, data self' = Some d
        ∧ d !! "lat" = Some (PNum (_last_lat self'))
        ∧ d !! "lon" = Some (PNum (_last_lon self'))
        ∧ d !! "ut" = Some (number (_last_ut self')))
  ∧ _last_lat self' ≠ 0%Qc ∧ _last_lon self' ≠ 0%Qc
  ∧ (coords_changed = true
     ↔ _last_lat self' ≠ _last_lat self ∨ _last_lon self' ≠ _last_lon self)
  ∧ (¬ (latitude g ≠ 0%Qc ∧ longitude g ≠ 0%Qc) →
     coords_changed = false
     ∧ _last_lat self' = _last_lat self ∧ _last_lon self' = _last_lon self
     ∧ _last_ut self' = _last_ut self).
Proof.
  intros Hmock Hdec. unfold run_round, _get_coords_dict.
  rewrite Hmock, Hdec. cbn [orb].
  destruct (_ && _); [|done].
  destruct (_get_unix_timestamp _ _ _) as [ut|e]; [|done].
  cbn [mbind result_bind].
  destruct (decide (latitude g ≠ 0%Qc ∧ longitude g ≠ 0%Qc)) as [[Hlat Hlon]|Hno].
  - cbn [mbind result_bind data].
    rewrite lookup_insert_eq, lookup_insert_ne, lookup_insert_eq by done.
    cbn [truthy differs_from fst snd andb].
    destruct (bool_decide _ && _ && _); [|done].
    intros [= <- <-]. cbn [data _last_lat _last_lon _last_ut].
    split; [|split; [done|split; [done|split]]].
    + eexists. split; [done|]. split; [by rewrite lookup_insert_eq|].
      split; [by rewrite lookup_insert_ne, lookup_insert_eq|].
      by rewrite !lookup_insert_ne, lookup_insert_eq by done.
    + rewrite orb_true_iff, !bool_decide_eq_true. done.
    + intros []. by split.
  - case_decide as Hlast.
    + destruct Hlast as [Hlat Hlon]. cbn [mbind result_bind data].
      rewrite (lookup_insert_ne _ "ut" "lat"), (lookup_insert_ne _ "lon" "lat"),
        (lookup_insert_ne _ "ut" "lon"), !lookup_insert_eq by done.
      cbn [truthy differs_from fst snd].
      destruct (bool_decide _ && _ && _); [|done].
      intros [= <- <-]. cbn [data _last_lat _last_lon _last_ut].
      rewrite !bool_decide_eq_false_2 by (by intros H; apply H).
      split; [|split; [done|split; [done|split]]].
      * eexists. split; [done|].
        split; [by rewrite !lookup_insert_ne, lookup_insert_eq by done|].
        split; [by rewrite lookup_insert_ne, lookup_insert_eq|].
        by rewrite lookup_insert_eq.
      * split; [done|]. by intros [|].
      * done.
    + cbn [mbind result_bind data].
      rewrite lookup_insert_eq, lookup_insert_ne, lookup_insert_eq by done.
      cbn [truthy].
      destruct (decide (latitude g = 0%Qc)) as [Hz|Hnz].
      * rewrite (bool_decide_eq_false_2 (latitude g ≠ 0%Qc)) by (by intros H).
        by rewrite andb_false_r.
      * destruct (decide (longitude g = 0%Qc)) as [Hz|Hnz'];
          [|by destruct Hno].
        rewrite (bool_decide_eq_false_2 (longitude g ≠ 0%Qc)) by (by intros H).
        by rewrite andb_false_r.
Qed.

(** The first fix after start-up. *)
Lemma published_fix_is_the_stored_fix_witness :
  _last_lat examples.gps_fixed ≠ 0%Qc ∧ _last_lon examples.gps_fixed ≠ 0%Qc.
Proof.
  assert (run_round examples.mktime_of_day examples.fix_at_noon
            examples.gps_start
          = Ok (examples.gps_fixed, Some true)) as Hround
    by (vm_compute; reflexivity).
  pose proof (published_fix_is_the_stored_fix examples.mktime_of_day
                examples.fix_at_noon examples.gps_start examples.gps_fixed
                true eq_refl eq_refl Hround) as (_ & H1 & H2 & _).
  exact (conj H1 H2).
Defined.

End gps_facts.

(** ** The link to the phone *)

Section ble_facts.

Import tracking ble.
Local Open Scope Z_scope.

Lemma driver_call_Ok c r self :
  fails_with_Exception r →
  (driver_call c r self).1 = Ok ()
  ∧ _connections (driver_call c r self).2 = _connections self
  ∧ _handles (driver_call c r self).2 = _handles self
  ∧ _ble (driver_call c r self).2 = _ble self.
Proof.
  intros Hr. unfold driver_call, driver. destruct (_ble self) eqn:Hb.
  - destruct r as [[]|e] eqn:Her; [done|]. cbn. by rewrite (Hr e).
  - done.
Qed.

Lemma _advertising_Ok o self :
  fails_with_Exception (gap_advertise_stop o) →
  fails_with_Exception (gap_advertise_start o) →
  (_advertising o self).1 = Ok ().
Proof.
  intros Hs Ht. unfold _advertising, driver. destruct (_ble self) eqn:Hb; [|done].
  destruct (gap_advertise_stop o) as [[]|e] eqn:He.
  - case_match; [|done]. by apply driver_call_Ok.
  - cbn. by rewrite (Hs e).
Qed.

Lemma _negotiate_mtu_Ok o conn_handle self :
  fails_with_Exception (gattc_exchange_mtu o) →
  (_negotiate_mtu o conn_handle self).1 = Ok ()
  ∧ _connections (_negotiate_mtu o conn_handle self).2 = _connections self
  ∧ _handles (_negotiate_mtu o conn_handle self).2 = _handles self
  ∧ _ble (_negotiate_mtu o conn_handle self).2 = _ble self.
Proof.
  intros Hm. unfold _negotiate_mtu. case_match; [|done].
  by apply driver_call_Ok.
Qed.

(** What makes [_irq] raise.  With a driver that fails, if it fails,
    with [Exception]s, a connect event never raises, whatever its
    data.  [_irq] raises exactly in these cases, and then nothing has
    changed: a disconnect or MTU event whose tuple has the wrong
    length ([ValueError]); a read request whose tuple has neither two
    nor four entries, for which the handle is never bound
    ([NameError]); a write or read request on a module whose handles
    were never assigned ([AttributeError]). *)
Theorem irq_raises_on_malformed_events_only
    (o : outcomes) (event : Z) (data : list Z) (self : BLEModule) (e : exn) :
  driver_fails_with_Exception o →
  ((_irq o event data self).1 = Raise e ↔
     (event = _IRQ_CENTRAL_DISCONNECT ∧ length data ≠ 3%nat ∧ e = ValueError)
     ∨ (event = _IRQ_MTU_EXCHANGED ∧ length data ≠ 2%nat ∧ e = ValueError)
     ∨ (event = _IRQ_GATTS_READ_REQUEST
        ∧ length data ≠ 2%nat ∧ length data ≠ 4%nat ∧ e = NameError)
     ∨ ((event = _IRQ_GATTS_WRITE ∧ (2 ≤ length data)%nat
         ∨ event = _IRQ_GATTS_READ_REQUEST
           ∧ (length data = 2%nat ∨ length data = 4%nat))
        ∧ _handles self = None ∧ e = AttributeError))
  ∧ ((_irq o event data self).1 = Raise e → (_irq o event data self).2 = self).
Proof.
  intros (Hm & Hs & Ht & Hc & Hf & Hw).
  unfold _irq, _IRQ_CENTRAL_CONNECT, _IRQ_CENTRAL_DISCONNECT, _IRQ_GATTS_WRITE,
    _IRQ_GATTS_READ_REQUEST, _IRQ_MTU_EXCHANGED.
  destruct (Z.eqb_spec event 1) as [->|H1].
  { match goal with
    | |- (fst ?t = _ ↔ _) ∧ _ => assert (fst t = Ok ()) as ->
    end.
    { destruct data as [|c [|a [|b [|]]]]; cbn [try_except is_Exception];
        try by apply _advertising_Ok.
      destruct (_negotiate_mtu_Ok o c self Hm) as (Hn & _).
      destruct (_negotiate_mtu o c self) as [[[]|e0] s]; [|done].
      cbn [try_except]. by apply _advertising_Ok. }
    split; [|done]. split; [done|].
    intros [(?&_)|[(?&_)|[(?&_)|([(?&_)|(?&_)]&_)]]]; done. }
  destruct (Z.eqb_spec event 2) as [->|H2].
  { destruct data as [|c [|a [|b [|]]]]; cbn [fst snd length];
      try (split; [|done]; split;
           [intros [= <-]; left; repeat split; lia
           |intros [(_&_&->)|[(?&_)|[(?&_)|([(?&_)|(?&_)]&_)]]]; done]).
    rewrite _advertising_Ok by done. split; [|done]. split; [done|].
    intros [(_&?&_)|[(?&_)|[(?&_)|([(?&_)|(?&_)]&_)]]]; done. }
  destruct (Z.eqb_spec event 3) as [->|H3].
  { destruct data as [|c [|a rest]]; cbn [fst snd length].
    1,2: split; [|done]; split; [done|];
      intros [(?&_)|[(?&_)|[(?&_)|([(_&?)|(?&_)]&_)]]]; try done; lia.
    destruct (_handles self) as [h|] eqn:Hh.
    - match goal with
      | |- (fst ?t = _ ↔ _) ∧ _ => assert (fst t = Ok ()) as ->
      end.
      { unfold driver. destruct (_ble self).
        - destruct (command o) as [code|e0] eqn:Hcode;
            destruct (config o) as [buffer|e1] eqn:Hbuf;
            rewrite ?(Hc e0), ?(Hf e1) by done;
            repeat case_match; done.
        - repeat case_match; done. }
      split; [|done]. split; [done|].
      intros [(?&_)|[(?&_)|[(?&_)|(_&?&_)]]]; done.
    - cbn. split; [|done]. split.
      + intros [= <-]. do 3 right. split; [|done]. left. split; [done|lia].
      + by intros [(?&_)|[(?&_)|[(?&_)|(_&_&->)]]]. }
  destruct (Z.eqb_spec event 4) as [->|H4].
  { assert (Hu : ∀ a h, (if a =? _config_tx_handle h
                         then _update_config_characteristic o self
                         else (Ok (), self)).1 = Ok ()).
    { intros a h. case_match; [|done]. unfold _update_config_characteristic.
      case_match; [|done]. by apply driver_call_Ok. }
    destruct data as [|c [|a [|b [|d [|]]]]]; cbn [fst snd length];
      try (split; [|done]; split;
           [intros [= <-]; do 2 right; left; repeat split; lia
           |intros [(?&_)|[(?&_)|[(_&_&_&->)|([(?&_)|(_&[|])]&_)]]]; done]).
    all: destruct (_handles self) as [h|] eqn:Hh; cbn [fst snd];
      [rewrite Hu; split; [|done]; split; [done|];
       intros [(?&_)|[(?&_)|[(_&?&?&_)|(_&?&_)]]]; done
      |split; [|done]; split;
       [intros [= <-]; do 3 right; split; [|done]; right; split; [done|]; auto
       |intros [(?&_)|[(?&_)|[(_&?&?&_)|(_&_&->)]]]; done]]. }
  destruct (Z.eqb_spec event 21) as [->|H21].
  { destruct data as [|c [|a [|b ?]]]; cbn [fst snd length];
      try (split; [|done]; split;
           [intros [= <-]; right; left; repeat split; lia
           |intros [(?&_)|[(_&_&->)|[(?&_)|([(?&_)|(?&_)]&_)]]]; done]).
    split; [|done]. split; [done|].
    intros [(?&_)|[(_&?&_)|[(?&_)|([(?&_)|(?&_)]&_)]]]; done. }
  cbn. split; [|done]. split; [done|].
  intros [(?&_)|[(?&_)|[(?&_)|([(?&_)|(?&_)]&_)]]]; done.
Qed.

(** A read request whose tuple has three entries. *)
Lemma irq_raises_on_malformed_events_only_witness :
  (_irq examples.willing_driver _IRQ_GATTS_READ_REQUEST [7; 19; 0]
     examples.ble_idle).1 = Raise NameError.
Proof.
  refine (proj2 (proj1 (irq_raises_on_malformed_events_only
                          examples.willing_driver _IRQ_GATTS_READ_REQUEST
                          [7; 19; 0] examples.ble_idle NameError _)) _).
  - repeat split; intros e H; discriminate H.
  - right. right. left. repeat split; cbn; lia.
Defined.

Lemma advertising_app cs cs' :
  advertising (cs ++ cs')
  = foldl (λ on c, match c with
                   | Gap_advertise_stop => false
                   | Gap_advertise_start => true
                   | _ => on
                   end) (advertising cs) cs'.
Proof. unfold advertising. by rewrite foldl_app. Qed.

Lemma _advertising_advertises o self :
  _ble self = true →
  gap_advertise_stop o = Ok () → gap_advertise_start o = Ok () →
  (_advertising o self).1 = Ok ()
  ∧ _connections (_advertising o self).2 = _connections self
  ∧ advertising (calls (_advertising o self).2)
    = bool_decide (_connections self = ∅).
Proof.
  intros Hb Hs Ht. unfold _advertising, driver_call, driver, _BLE_MAX_CONNECT.
  rewrite Hb, Hs. cbn [record _connections _ble]. rewrite Hb, Ht.
  destruct (decide (_connections self = ∅)) as [He|Hne].
  - rewrite He, size_empty, bool_decide_eq_true_2 by done. cbn.
    split; [done|]. split; [done|]. by rewrite !advertising_app.
  - assert (size (_connections self) ≠ 0%nat) as Hsize.
    { intros Hz. by apply Hne, leibniz_equiv, size_empty_inv. }
    rewrite bool_decide_eq_false_2 by done.
    destruct (size (_connections self) <? 1)%nat eqn:Hlt.
    + apply Nat.ltb_lt in Hlt. lia.
    + cbn. split; [done|]. split; [done|]. by rewrite advertising_app.
Qed.

(** One central at a time.  With the driver there and doing what it
    is asked, a connect event adds the connection and a disconnect
    event takes it out, and after either the radio advertises exactly
    when no connection is left. *)
Theorem advertises_iff_nobody_connected
    (o : outcomes) (event conn_handle addr_type addr : Z) (self : BLEModule) :
  _ble self = true →
  gap_advertise_stop o = Ok () → gap_advertise_start o = Ok () →
  fails_with_Exception (gattc_exchange_mtu o) →
  event = _IRQ_CENTRAL_CONNECT ∨ event = _IRQ_CENTRAL_DISCONNECT →
  (_irq o event [conn_handle; addr_type; addr] self).1 = Ok ()
  ∧ _connections (_irq o event [conn_handle; addr_type; addr] self).2
    = (if decide (event = _IRQ_CENTRAL_CONNECT)
       then {[ conn_handle ]} ∪ _connections self
       else _connections self ∖ {[ conn_handle ]})
  ∧ advertising (calls (_irq o event [conn_handle; addr_type; addr] self).2)
    = bool_decide
        (_connections (_irq o event [conn_handle; addr_type; addr] self).2 = ∅).
Proof.
  intros Hb Hs Ht Hm [-> | ->];
    unfold _irq, _IRQ_CENTRAL_CONNECT, _IRQ_CENTRAL_DISCONNECT;
    cbn [Z.eqb Pos.eqb decide]; rewrite ?decide_True, ?decide_False by done.
  - destruct (_negotiate_mtu_Ok o conn_handle self Hm) as (Hn & Hc & _ & Hb').
    destruct (_negotiate_mtu o conn_handle self) as [[[]|e] s]; [|done].
    cbn [try_except]. cbn [snd] in Hc, Hb'.
    destruct (_advertising_advertises o
                (set_connections ({[ conn_handle ]} ∪ _connections s) s))
      as (-> & -> & ->); [cbn; by rewrite Hb'|done|done|].
    cbn [_connections set_connections]. by rewrite Hc.
  - destruct (_advertising_advertises o
                (set_connections (_connections self ∖ {[ conn_handle ]}) self))
      as (-> & -> & ->); done.
Qed.

(** The phone connects to the idle module, and advertising stops. *)
Lemma advertises_iff_nobody_connected_witness :
  advertising
    (calls (_irq examples.willing_driver _IRQ_CENTRAL_CONNECT [7; 0; 0]
              examples.ble_idle).2) = false.
Proof.
  destruct (advertises_iff_nobody_connected examples.willing_driver
              _IRQ_CENTRAL_CONNECT 7 0 0 examples.ble_idle)
    as (_ & Hc & ->); [done|done|done| |by left|].
  - intros e H. discriminate H.
  - rewrite Hc, decide_True by done. apply bool_decide_eq_false_2.
    intros [H _]%empty_union_L. by apply (non_empty_singleton_L 7) in H.
Defined.

(** A configuration is published only for JSON that is true.  When
    [ujson.loads] fails only with [Exception]s,
    [_process_config_data] never raises, and it publishes a
    configuration exactly when the buffer is UTF-8, decodes as JSON,
    and the value decoded is true in Python's sense: invalid data, but
    also an empty object, list or string, zero, [false] and [null]
    publish nothing. *)
Theorem config_published_for_true_json_only
    (loads : list Z → result pyval) (buffer : list Z) :
  (∀ text e, loads text = Raise e → is_Exception e = true) →
  ∃ published,
    _process_config_data loads buffer = Ok published
    ∧ ∀ config_data,
        published = Some config_data
        ↔ ∃ text,
            thistothat.decode_utf8 buffer = Ok text
            ∧ loads text = Ok config_data
            ∧ gps.truthy (Some config_data) = true.
Proof.
  intros Hl. unfold _process_config_data, thistothat.is_json.
  destruct (thistothat.decode_utf8 buffer) as [text|e] eqn:Hd.
  - cbn [mbind result_bind]. destruct (loads text) as [v|e] eqn:Hv.
    + cbn [mbind result_bind try_except fst].
      destruct (gps.truthy (Some v)) eqn:Ht; cbn [try_except]; eexists;
        (split; [done|]); intros c; split.
      * intros [= <-]. by exists text.
      * intros (? & [= <-] & ? & _). congruence.
      * done.
      * intros (? & [= <-] & ? & ?). congruence.
    + cbn [try_except mbind result_bind]. rewrite (Hl _ _ Hv). cbn.
      eexists. split; [done|]. intros c. split; [done|].
      intros (? & [= <-] & ? & _). congruence.
  - assert (is_Exception e = true) as He.
    { unfold thistothat.decode_utf8 in Hd. by case_match; simplify_eq. }
    cbn [mbind result_bind try_except]. rewrite He. cbn.
    eexists. split; [done|]. intros c. split; [done|].
    by intros (? & [=] & _).
Qed.

(** The buffer [{}], with a [loads] that knows this one text. *)
Lemma config_published_for_true_json_only_witness :
  _process_config_data
    (λ text, if decide (text = [123; 125]) then Ok (PDict ∅)
             else Raise ValueError)
    [123; 125] = Ok None.
Proof.
  destruct (config_published_for_true_json_only
              (λ text, if decide (text = [123; 125]) then Ok (PDict ∅)
                       else Raise ValueError)
              [123; 125]) as (published & -> & Hp).
  - intros text e. case_decide; [done|]. by intros [= <-].
  - destruct published as [config_data|]; [|done].
    destruct (proj1 (Hp config_data) eq_refl) as (text & [= <-] & Hv & Ht).
    rewrite decide_True in Hv by done. injection Hv as <-. done.
Defined.

End ble_facts.
